(** * gfxmath: fixed-dimension vectors and matrices (gfxmath.hh)

    A shallow embedding of the two class templates [gfx::vector] and
    [gfx::matrix].  Objects live in a store and member functions are
    computations over that store, so that [operator[]] returning a reference,
    locals that are copies of [*this], and calls of a vector member on a row of
    a matrix all read as they do in the header.

    - A member [f] of [gfx::vector] is [vec_f], a member of [gfx::matrix] is
      [mat_f]; the operators are [vec_add], [vec_sub], [vec_neg], [vec_scale]
      (by a scalar), [vec_dot] (by a vector), [vec_div], [vec_eq], [vec_ne],
      [vec_index] and likewise for matrices, [mat_mul] being the product.
    - Template parameters ([DIMENSION], [HEIGHT], [WIDTH], [RESULT_...]) are
      arguments of type [Z], as are indices: both are [int] in the header.
    - [assert] is live (the build does not define NDEBUG): a failed one ends
      the call in [Abort].  A failed [static_assert] ends it in [Rejected]:
      that instantiation does not exist.
    - In [lhs[i] = e] the right operand is evaluated first; the header's
      reads have no effect, so the other order gives the same outcome.
    - [int] is modelled by [Z], the type being 32 bits wide: a sum or
      product that leaves its range is outside the model, and the statements
      about [int] say within which bounds they hold.
    - [double] is binary64: the result of an operation on doubles is rounded
      to the nearest double, ties to even. *)

From Stdlib Require Import ZArith QArith Qabs Qround Qpower Lia Lqa.
From stdpp Require Import base list numbers.

Local Open Scope Z_scope.

(** ** The scalar type

    [scalar_type] is a template parameter: the header uses the literals 0 and
    1, the operators + - * / == != and [sqrt], and compares scalars with a
    [double] margin in [almost_equal].  [sdiv] is partial: [None] is a division
    the scalar type leaves undefined (integer division by zero).  A [double]
    is the rational it stands for; infinities and NaN are outside the
    model. *)

Definition double := Q.

(** *** Rounding to binary64

    The result of an arithmetic operation on doubles is the double nearest
    to the exact result, ties going to the one with an even significand. *)

(** The binade of a positive rational: the [e] with 2^e <= q < 2^(e+1). *)
Definition binade (q : Q) : Z :=
  let e := Z.log2 (Qnum q) - Z.log2 (Zpos (Qden q)) in
  if Qle_bool (2 ^ e) q then e else e - 1.

(** To the nearest integer, ties to the even one. *)
Definition rne (k : Q) : Z :=
  let f := Qfloor k in
  match (k - inject_Z f ?= 1 # 2)%Q with
  | Lt => f
  | Gt => f + 1
  | Eq => if Z.even f then f else f + 1
  end.

(** 53 significant bits; below 2^-1022 the spacing stays 2^-1074.  A result
    past the largest double stands for the infinity IEEE gives there: like
    it, it compares above every double. *)
Definition round_pos (q : Q) : Q :=
  let u := (2 ^ (Z.max (binade q) (-1022) - 52))%Q in
  (inject_Z (rne (q / u)) * u)%Q.

Definition round64 (q : Q) : double :=
  match (q ?= 0)%Q with
  | Eq => 0%Q
  | Gt => round_pos q
  | Lt => (- round_pos (- q))%Q
  end.

Definition DBL_MAX : double := (inject_Z (2 ^ 53 - 1) * 2 ^ 971)%Q.

(** The rationals that are values of the type [double]. *)
Definition is_double (q : Q) : Prop :=
  (round64 q == q)%Q /\ (Qabs q <= DBL_MAX)%Q.

Class Scalar (T : Type) := {
  s0 : T;
  s1 : T;
  sadd : T -> T -> T;
  ssub : T -> T -> T;
  smul : T -> T -> T;
  sdiv : T -> T -> option T;
  ssqrt : T -> T;
  seqb : T -> T -> bool;
  to_double : T -> double
}.

Definition INT_MIN : Z := -2147483648.
Definition INT_MAX : Z := 2147483647.

(** [int], within its range: truncating division, undefined on zero and,
    the quotient having no [int], on INT_MIN / -1. *)
#[export] Instance int_scalar : Scalar Z := {|
  s0 := 0;
  s1 := 1;
  sadd := Z.add;
  ssub := Z.sub;
  smul := Z.mul;
  sdiv := fun a b => if Z.eqb b 0 then None
                     else if Z.eqb a INT_MIN && Z.eqb b (-1) then None
                     else Some (Z.quot a b);
  ssqrt := Z.sqrt;
  seqb := Z.eqb;
  to_double := inject_Z
|}.

(** The laws of a numeric [scalar_type] that the closed forms below rest on. *)
Class ScalarLaws (T : Type) {ST : Scalar T} : Prop := {
  sadd_0_l : forall x : T, sadd s0 x = x;
  smul_comm : forall x y : T, smul x y = smul y x;
  ssub_opp : forall x y : T, ssub s0 (ssub x y) = ssub y x;
  seqb_refl : forall x : T, seqb x x = true
}.

#[export] Instance int_laws : ScalarLaws Z.
Proof.
  split; simpl; intros; first [lia | apply Z.eqb_refl].
Qed.

(** The literal [.001]: the double nearest to it. *)
Definition DEFAULT_DELTA : double := round64 (1 # 1000).

(** ** What a call can do *)

Inductive outcome (A : Type) : Type :=
| Ret (a : A)      (* the call returns *)
| Abort            (* an assert() failed *)
| Rejected         (* a static_assert failed: the instantiation does not compile *)
| Undefined.       (* undefined behaviour: dangling reference, undefined division *)

Arguments Ret {A} a.
Arguments Abort {A}.
Arguments Rejected {A}.
Arguments Undefined {A}.

(** A computation over a store [St]. *)
Definition comp (St A : Type) : Type := St -> outcome (A * St).

Definition ret {St A} (a : A) : comp St A := fun h => Ret (a, h).

Definition bind {St A B} (m : comp St A) (k : A -> comp St B) : comp St B :=
  fun h => match m h with
           | Ret (a, h') => k a h'
           | Abort => Abort
           | Rejected => Rejected
           | Undefined => Undefined
           end.

Definition undefined {St A} : comp St A := fun _ => Undefined.

Definition assert {St} (b : bool) : comp St unit :=
  fun h => if b then Ret (tt, h) else Abort.

Definition static_assert {St} (b : bool) : comp St unit :=
  fun h => if b then Ret (tt, h) else Rejected.

Notation "'let*' x ':=' m 'in' k" := (bind m (fun x => k))
  (at level 10, x name, m at level 100, k at level 200, only parsing).
Notation "m ';;' k" := (bind m (fun _ => k))
  (at level 100, k at level 200, right associativity, only parsing).

Section Gfx.

Context {T : Type} {ST : Scalar T}.

(** [std::array<scalar_type, DIMENSION> _elements] and
    [std::array<row_type, HEIGHT> _rows]. *)
Local Abbreviation vec := (list T) (only parsing).
Local Abbreviation mat := (list (list T)) (only parsing).

(** The store: the vector objects and the matrix objects alive. *)
Record heap : Type := Heap { vecs : list vec; mats : list mat }.

(** A reference to a vector is a vector object or a row of a matrix object
    ([row_type&]); a reference to a scalar is an element of one of those. *)
Inductive vref : Type :=
| VObj (l : nat)
| VRow (m : nat) (r : nat).

Local Abbreviation mref := nat (only parsing).
Local Abbreviation eref := (vref * nat)%type (only parsing).

Definition M (A : Type) : Type := comp heap A.

Definition lookup_vec (r : vref) (h : heap) : option vec :=
  match r with
  | VObj l => vecs h !! l
  | VRow m i => match mats h !! m with
                | Some rows => rows !! i
                | None => None
                end
  end.

Definition update_vec (r : vref) (v : vec) (h : heap) : heap :=
  match r with
  | VObj l => Heap (<[l := v]> (vecs h)) (mats h)
  | VRow m i => match mats h !! m with
                | Some rows => Heap (vecs h) (<[m := <[i := v]> rows]> (mats h))
                | None => h
                end
  end.

(** Copy a whole vector out of, or into, the object a reference names. *)
Definition load (r : vref) : M vec :=
  fun h => match lookup_vec r h with
           | Some v => Ret (v, h)
           | None => Undefined
           end.

Definition store (r : vref) (v : vec) : M unit :=
  fun h => match lookup_vec r h with
           | Some _ => Ret (tt, update_vec r v h)
           | None => Undefined
           end.

Definition load_mat (m : mref) : M mat :=
  fun h => match mats h !! m with
           | Some a => Ret (a, h)
           | None => Undefined
           end.

Definition store_mat (m : mref) (a : mat) : M unit :=
  fun h => match mats h !! m with
           | Some _ => Ret (tt, Heap (vecs h) (<[m := a]> (mats h)))
           | None => Undefined
           end.

(** Read and write through a reference to a scalar. *)
Definition read (e : eref) : M T :=
  fun h => match lookup_vec (fst e) h with
           | Some v => match v !! snd e with
                       | Some x => Ret (x, h)
                       | None => Undefined
                       end
           | None => Undefined
           end.

Definition write (e : eref) (x : T) : M unit :=
  fun h => match lookup_vec (fst e) h with
           | Some v => match v !! snd e with
                       | Some _ => Ret (tt, update_vec (fst e) (<[snd e := x]> v) h)
                       | None => Undefined
                       end
           | None => Undefined
           end.

(** A local object of automatic storage: it is created at the end of the
    store, lives for the body, and is destroyed when the body is left. *)
Definition local_vec {A} (init : vec) (body : vref -> M A) : M A :=
  fun h =>
    let l := length (vecs h) in
    match body (VObj l) (Heap (vecs h ++ [init]) (mats h)) with
    | Ret (a, h') => Ret (a, Heap (take l (vecs h')) (mats h'))
    | Abort => Abort
    | Rejected => Rejected
    | Undefined => Undefined
    end.

Definition local_mat {A} (init : mat) (body : mref -> M A) : M A :=
  fun h =>
    let l := length (mats h) in
    match body l (Heap (vecs h) (mats h ++ [init])) with
    | Ret (a, h') => Ret (a, Heap (vecs h') (take l (mats h')))
    | Abort => Abort
    | Rejected => Rejected
    | Undefined => Undefined
    end.

(** [for (int i = lo; i < hi; i++)], threading the scalar locals the body
    updates. *)
Fixpoint for_loop {S} (n : nat) (i : Z) (body : Z -> S -> M S) (s : S) : M S :=
  match n with
  | O => ret s
  | S n' => let* s' := body i s in for_loop n' (i + 1) body s'
  end.

Definition for_range {S} (lo hi : Z) (body : Z -> S -> M S) (s : S) : M S :=
  for_loop (Z.to_nat (hi - lo)) lo body s.

Definition for_each (lo hi : Z) (body : Z -> M unit) : M unit :=
  for_range lo hi (fun i _ => body i) tt.

(** The same loop when its body may [return]: [Some r] leaves the function
    with [r], [None] goes on. *)
Fixpoint for_return_loop {R} (n : nat) (i : Z) (body : Z -> M (option R))
  : M (option R) :=
  match n with
  | O => ret None
  | S n' => let* r := body i in
            match r with
            | Some v => ret (Some v)
            | None => for_return_loop n' (i + 1) body
            end
  end.

Definition for_return {R} (lo hi : Z) (body : Z -> M (option R)) : M (option R) :=
  for_return_loop (Z.to_nat (hi - lo)) lo body.

Definition divide (a b : T) : M T :=
  match sdiv a b with
  | Some q => ret q
  | None => undefined
  end.

Definition sneq (a b : T) : bool := negb (seqb a b).

(** [lhs <= rhs + delta] and [lhs >= rhs - delta], in double: the sum and
    the difference are rounded, the comparisons are exact. *)
Definition within (a b : T) (delta : double) : bool :=
  Qle_bool (to_double a) (round64 (to_double b + delta))
  && Qle_bool (round64 (to_double b - delta)) (to_double a).


(** ** gfx::vector<scalar_type, DIMENSION>

    [DIMENSION] is the template parameter, an [int].  [this] and [rhs] are
    references: a vector member can be called on a row of a matrix. *)

Definition is_index (DIMENSION i : Z) : bool :=
  (i >=? 0) && (i <? DIMENSION).

(** [operator[]], const and non-const: the assertion, then a reference to
    the element. *)
Definition vec_index (DIMENSION : Z) (this : vref) (i : Z) : M eref :=
  assert (is_index DIMENSION i);;
  ret (this, Z.to_nat i).

(** [v[i]] read, and [v[i] = x]. *)
Definition vec_get (DIMENSION : Z) (this : vref) (i : Z) : M T :=
  let* e := vec_index DIMENSION this i in read e.

Definition vec_set (DIMENSION : Z) (this : vref) (i : Z) (x : T) : M unit :=
  let* e := vec_index DIMENSION this i in write e x.

Definition vec_dimension (DIMENSION : Z) (this : vref) : M Z :=
  ret DIMENSION.

Definition vec_fill (DIMENSION : Z) (this : vref) (value : T) : M unit :=
  for_each 0 DIMENSION (fun i => vec_set DIMENSION this i value).

(** [gfx::vector<scalar_type, DIMENSION> name(default_value);] as a local:
    the array comes into being (its elements indeterminate: any value will
    do, here 0) and the constructor fills it. *)
Definition vec_new {A} (DIMENSION : Z) (default_value : T) (body : vref -> M A)
  : M A :=
  local_vec (replicate (Z.to_nat DIMENSION) s0)
            (fun v => vec_fill DIMENSION v default_value;; body v).

(** [same_type name = *this;] as a local. *)
Definition vec_copy {A} (init : vref) (body : vref -> M A) : M A :=
  let* elements := load init in local_vec elements body.

(** The initializer-list constructor: the list in order, zero-padded, the
    excess ignored. *)
Fixpoint init_elements (n : nat) (it : list T) : vec * list T :=
  match n with
  | O => ([], it)
  | S n' => match it with
            | x :: it' => let '(v, rest) := init_elements n' it' in (x :: v, rest)
            | [] => let '(v, rest) := init_elements n' [] in (s0 :: v, rest)
            end
  end.

Definition vec_init (DIMENSION : Z) (il : list T) : vec :=
  fst (init_elements (Z.to_nat DIMENSION) il).

(** [operator=]. *)
Definition vec_assign (this rhs : vref) : M unit :=
  let* elements := load rhs in store this elements.

Definition vec_eq (DIMENSION : Z) (this rhs : vref) : M bool :=
  let* dr := vec_dimension DIMENSION rhs in
  let* dt := vec_dimension DIMENSION this in
  if negb (dr =? dt) then ret false
  else
    let* r := for_return 0 DIMENSION (fun i =>
                let* a := vec_get DIMENSION rhs i in
                let* b := vec_get DIMENSION this i in
                if sneq a b then ret (Some false) else ret None) in
    match r with
    | Some b => ret b
    | None => ret true
    end.

Definition vec_ne (DIMENSION : Z) (this rhs : vref) : M bool :=
  let* dr := vec_dimension DIMENSION rhs in
  let* dt := vec_dimension DIMENSION this in
  if negb (dr =? dt) then ret true
  else
    let* r := for_return 0 DIMENSION (fun i =>
                let* a := vec_get DIMENSION rhs i in
                let* b := vec_get DIMENSION this i in
                if sneq a b then ret (Some true) else ret None) in
    match r with
    | Some b => ret b
    | None => ret false
    end.

Definition vec_add (DIMENSION : Z) (this rhs : vref) : M vec :=
  vec_copy this (fun sum =>
    for_each 0 DIMENSION (fun i =>
      let* a := vec_get DIMENSION this i in
      let* b := vec_get DIMENSION rhs i in
      vec_set DIMENSION sum i (sadd a b));;
    load sum).

Definition vec_sub (DIMENSION : Z) (this rhs : vref) : M vec :=
  vec_copy this (fun dif =>
    for_each 0 DIMENSION (fun i =>
      let* a := vec_get DIMENSION this i in
      let* b := vec_get DIMENSION rhs i in
      vec_set DIMENSION dif i (ssub a b));;
    load dif).

Definition vec_neg (DIMENSION : Z) (this : vref) : M vec :=
  vec_copy this (fun neg =>
    for_each 0 DIMENSION (fun i =>
      let* a := vec_get DIMENSION this i in
      vec_set DIMENSION neg i (ssub s0 a));;
    load neg).

Definition vec_scale (DIMENSION : Z) (this : vref) (rhs : T) : M vec :=
  vec_copy this (fun prod =>
    for_each 0 DIMENSION (fun i =>
      let* a := vec_get DIMENSION this i in
      vec_set DIMENSION prod i (smul rhs a));;
    load prod).

(** [operator*(const same_type&)]: the dot product. *)
Definition vec_dot (DIMENSION : Z) (this rhs : vref) : M T :=
  for_range 0 DIMENSION (fun i dot =>
    let* a := vec_get DIMENSION this i in
    let* b := vec_get DIMENSION rhs i in
    ret (sadd dot (smul a b))) s0.

Definition vec_div (DIMENSION : Z) (this : vref) (rhs : T) : M vec :=
  vec_copy this (fun quot =>
    for_each 0 DIMENSION (fun i =>
      let* a := vec_get DIMENSION this i in
      let* q := divide a rhs in
      vec_set DIMENSION quot i q);;
    load quot).

Definition vec_almost_equal (DIMENSION : Z) (this rhs : vref) (delta : double)
  : M bool :=
  let* dr := vec_dimension DIMENSION rhs in
  let* r := for_return 0 dr (fun i =>
              let* a := vec_get DIMENSION this i in
              let* b := vec_get DIMENSION rhs i in
              if negb (within a b delta) then ret (Some false) else ret None) in
  match r with
  | Some b => ret b
  | None => ret true
  end.

Definition vec_magnitude_squared (DIMENSION : Z) (this : vref) : M T :=
  for_range 0 DIMENSION (fun i magsq =>
    let* a := vec_get DIMENSION this i in
    let* b := vec_get DIMENSION this i in
    ret (sadd magsq (smul a b))) s0.

Definition vec_magnitude (DIMENSION : Z) (this : vref) : M T :=
  let* mag := for_range 0 DIMENSION (fun i mag =>
                let* a := vec_get DIMENSION this i in
                let* b := vec_get DIMENSION this i in
                ret (sadd mag (smul a b))) s0 in
  ret (ssqrt mag).

Definition vec_normalize (DIMENSION : Z) (this : vref) : M vec :=
  vec_copy this (fun norm =>
    let* mag := for_range 0 DIMENSION (fun i mag =>
                  let* a := vec_get DIMENSION this i in
                  let* b := vec_get DIMENSION this i in
                  ret (sadd mag (smul a b))) s0 in
    let mag := ssqrt mag in
    for_each 0 DIMENSION (fun i =>
      let* a := vec_get DIMENSION this i in
      let* q := divide a mag in
      vec_set DIMENSION norm i q);;
    load norm).

Definition vec_cross (DIMENSION : Z) (this rhs : vref) : M vec :=
  vec_copy this (fun crossed =>
    let* a1 := vec_get DIMENSION this 1 in
    let* b2 := vec_get DIMENSION rhs 2 in
    let* a2 := vec_get DIMENSION this 2 in
    let* b1 := vec_get DIMENSION rhs 1 in
    vec_set DIMENSION crossed 0 (ssub (smul a1 b2) (smul a2 b1));;
    let* a0 := vec_get DIMENSION this 0 in
    let* b2 := vec_get DIMENSION rhs 2 in
    let* a2 := vec_get DIMENSION this 2 in
    let* b0 := vec_get DIMENSION rhs 0 in
    vec_set DIMENSION crossed 1 (ssub s0 (ssub (smul a0 b2) (smul a2 b0)));;
    let* a0 := vec_get DIMENSION this 0 in
    let* b1 := vec_get DIMENSION rhs 1 in
    let* a1 := vec_get DIMENSION this 1 in
    let* b0 := vec_get DIMENSION rhs 0 in
    vec_set DIMENSION crossed 2 (ssub (smul a0 b1) (smul a1 b0));;
    load crossed).

(** The result types of the member templates below hold a
    [std::array<scalar_type, RESULT_DIMENSION>], which is ill-formed for a
    negative size: that is the first static check of each. *)
Definition vec_subvector (DIMENSION RESULT_DIMENSION : Z) (this : vref)
    (start_index : Z) : M vec :=
  static_assert (0 <=? RESULT_DIMENSION);;
  static_assert (RESULT_DIMENSION <=? DIMENSION);;
  assert (is_index DIMENSION (start_index + RESULT_DIMENSION - 1));;
  vec_new RESULT_DIMENSION s0 (fun part =>
    for_each 0 RESULT_DIMENSION (fun i =>
      let* a := vec_get DIMENSION this (start_index + i) in
      vec_set RESULT_DIMENSION part i a);;
    load part).

Definition vec_shrink (DIMENSION RESULT_DIMENSION : Z) (this : vref) : M vec :=
  static_assert (0 <=? RESULT_DIMENSION);;
  static_assert (RESULT_DIMENSION <? DIMENSION);;
  vec_new RESULT_DIMENSION s0 (fun lower =>
    for_each 0 RESULT_DIMENSION (fun i =>
      let* a := vec_get DIMENSION this i in
      vec_set RESULT_DIMENSION lower i a);;
    load lower).

Definition vec_grow (DIMENSION RESULT_DIMENSION : Z) (this : vref)
    (default_value : T) : M vec :=
  static_assert (RESULT_DIMENSION >? DIMENSION);;
  vec_new RESULT_DIMENSION default_value (fun higher =>
    let* d := vec_dimension DIMENSION this in
    for_each 0 d (fun i =>
      let* a := vec_get DIMENSION this i in
      vec_set RESULT_DIMENSION higher i a);;
    load higher).

(** ** gfx::matrix<scalar_type, HEIGHT, WIDTH> *)

Definition is_row (HEIGHT r : Z) : bool := (r >=? 0) && (r <? HEIGHT).
Definition is_column (WIDTH c : Z) : bool := (c >=? 0) && (c <? WIDTH).
Definition is_square (HEIGHT WIDTH : Z) : bool := WIDTH =? HEIGHT.

Definition mat_height (HEIGHT WIDTH : Z) : M Z := ret HEIGHT.
Definition mat_width (HEIGHT WIDTH : Z) : M Z := ret WIDTH.

(** [operator[]], const and non-const: the assertion, then a reference to
    the row. *)
Definition mat_index (HEIGHT : Z) (this : mref) (row : Z) : M vref :=
  assert (is_row HEIGHT row);;
  ret (VRow this (Z.to_nat row)).

(** [m[i][j]] read, and [m[i][j] = x]. *)
Definition mat_get (HEIGHT WIDTH : Z) (this : mref) (i j : Z) : M T :=
  let* row := mat_index HEIGHT this i in vec_get WIDTH row j.

Definition mat_set (HEIGHT WIDTH : Z) (this : mref) (i j : Z) (x : T) : M unit :=
  let* row := mat_index HEIGHT this i in vec_set WIDTH row j x.

Definition mat_fill (HEIGHT WIDTH : Z) (this : mref) (value : T) : M unit :=
  for_each 0 HEIGHT (fun i =>
    for_each 0 WIDTH (fun j =>
      mat_set HEIGHT WIDTH this i j value)).

(** [gfx::matrix<scalar_type, HEIGHT, WIDTH> name(default_value);] as a
    local: the rows come into being as default-constructed vectors, all 0,
    and the constructor fills the matrix. *)
Definition mat_new {A} (HEIGHT WIDTH : Z) (default_value : T)
    (body : mref -> M A) : M A :=
  local_mat (replicate (Z.to_nat HEIGHT) (replicate (Z.to_nat WIDTH) s0))
            (fun m => mat_fill HEIGHT WIDTH m default_value;; body m).

(** [same_type name = *this;] as a local. *)
Definition mat_copy {A} (init : mref) (body : mref -> M A) : M A :=
  let* rows := load_mat init in local_mat rows body.

(** The initializer-list constructor: row-major, one iterator for the whole
    matrix. *)
Fixpoint init_rows (n w : nat) (it : list T) : mat :=
  match n with
  | O => []
  | S n' => let '(row, rest) := init_elements w it in row :: init_rows n' w rest
  end.

Definition mat_init (HEIGHT WIDTH : Z) (il : list T) : mat :=
  init_rows (Z.to_nat HEIGHT) (Z.to_nat WIDTH) il.

(** [operator=]. *)
Definition mat_assign (this rhs : mref) : M unit :=
  let* rows := load_mat rhs in store_mat this rows.

Definition mat_eq (HEIGHT WIDTH : Z) (this rhs : mref) : M bool :=
  let* r := for_return 0 HEIGHT (fun i =>
              for_return 0 WIDTH (fun j =>
                let* a := mat_get HEIGHT WIDTH this i j in
                let* b := mat_get HEIGHT WIDTH rhs i j in
                if sneq a b then ret (Some false) else ret None)) in
  match r with
  | Some b => ret b
  | None => ret true
  end.

Definition mat_ne (HEIGHT WIDTH : Z) (this rhs : mref) : M bool :=
  let* b := mat_eq HEIGHT WIDTH this rhs in ret (negb b).

Definition mat_add (HEIGHT WIDTH : Z) (this rhs : mref) : M mat :=
  mat_copy this (fun sum =>
    for_each 0 HEIGHT (fun i =>
      for_each 0 WIDTH (fun j =>
        let* a := mat_get HEIGHT WIDTH this i j in
        let* b := mat_get HEIGHT WIDTH rhs i j in
        mat_set HEIGHT WIDTH sum i j (sadd a b)));;
    load_mat sum).

Definition mat_sub (HEIGHT WIDTH : Z) (this rhs : mref) : M mat :=
  mat_copy this (fun dif =>
    for_each 0 HEIGHT (fun i =>
      for_each 0 WIDTH (fun j =>
        let* a := mat_get HEIGHT WIDTH this i j in
        let* b := mat_get HEIGHT WIDTH rhs i j in
        mat_set HEIGHT WIDTH dif i j (ssub a b)));;
    load_mat dif).

Definition mat_neg (HEIGHT WIDTH : Z) (this : mref) : M mat :=
  mat_copy this (fun neg =>
    for_each 0 HEIGHT (fun i =>
      for_each 0 WIDTH (fun j =>
        let* a := mat_get HEIGHT WIDTH this i j in
        mat_set HEIGHT WIDTH neg i j (ssub s0 a)));;
    load_mat neg).

Definition mat_div (HEIGHT WIDTH : Z) (this : mref) (rhs : T) : M mat :=
  mat_copy this (fun quot =>
    for_each 0 HEIGHT (fun i =>
      for_each 0 WIDTH (fun j =>
        let* a := mat_get HEIGHT WIDTH this i j in
        let* q := divide a rhs in
        mat_set HEIGHT WIDTH quot i j q));;
    load_mat quot).

Definition mat_scale (HEIGHT WIDTH : Z) (this : mref) (rhs : T) : M mat :=
  mat_copy this (fun prod =>
    for_each 0 HEIGHT (fun i =>
      for_each 0 WIDTH (fun j =>
        let* a := mat_get HEIGHT WIDTH this i j in
        mat_set HEIGHT WIDTH prod i j (smul a rhs)));;
    load_mat prod).

(** [operator*(const matrix<scalar_type, WIDTH, RESULT_WIDTH>&)]. *)
Definition mat_mul (HEIGHT WIDTH RESULT_WIDTH : Z) (this rhs : mref) : M mat :=
  mat_new HEIGHT RESULT_WIDTH s0 (fun crossed =>
    for_range 0 HEIGHT (fun i (crossval : T) =>
      for_range 0 RESULT_WIDTH (fun j (crossval : T) =>
        let crossval := s0 in
        let* crossval := for_range 0 WIDTH (fun k crossval =>
                           let* a := mat_get HEIGHT WIDTH this i k in
                           let* b := mat_get WIDTH RESULT_WIDTH rhs k j in
                           ret (sadd crossval (smul a b))) crossval in
        mat_set HEIGHT RESULT_WIDTH crossed i j crossval;;
        ret crossval) crossval) s0;;
    load_mat crossed).

Definition mat_submatrix (HEIGHT WIDTH RESULT_HEIGHT RESULT_WIDTH : Z)
    (this : mref) (top left : Z) : M mat :=
  static_assert (RESULT_HEIGHT >? 0);;
  static_assert (RESULT_WIDTH >? 0);;
  static_assert (RESULT_HEIGHT <=? HEIGHT);;
  static_assert (RESULT_WIDTH <=? WIDTH);;
  mat_new RESULT_HEIGHT RESULT_WIDTH s0 (fun sub =>
    for_each 0 RESULT_HEIGHT (fun i =>
      for_each 0 RESULT_WIDTH (fun j =>
        let* a := mat_get HEIGHT WIDTH this (i + top) (j + left) in
        mat_set RESULT_HEIGHT RESULT_WIDTH sub i j a));;
    load_mat sub).

(** As for the vector templates, a negative result size has no type. *)
Definition mat_shrink (HEIGHT WIDTH RESULT_HEIGHT RESULT_WIDTH : Z)
    (this : mref) : M mat :=
  static_assert ((0 <=? RESULT_HEIGHT) && (0 <=? RESULT_WIDTH));;
  static_assert (RESULT_HEIGHT <=? HEIGHT);;
  static_assert (RESULT_WIDTH <=? WIDTH);;
  static_assert ((RESULT_WIDTH <? WIDTH) || (RESULT_HEIGHT <? HEIGHT));;
  mat_new RESULT_HEIGHT RESULT_WIDTH s0 (fun sub =>
    for_each 0 RESULT_HEIGHT (fun i =>
      for_each 0 RESULT_WIDTH (fun j =>
        let* a := mat_get HEIGHT WIDTH this i j in
        mat_set RESULT_HEIGHT RESULT_WIDTH sub i j a));;
    load_mat sub).

Definition mat_grow (HEIGHT WIDTH RESULT_HEIGHT RESULT_WIDTH : Z)
    (this : mref) (default_value : T) : M mat :=
  static_assert (RESULT_HEIGHT >=? HEIGHT);;
  static_assert (RESULT_WIDTH >=? WIDTH);;
  static_assert ((RESULT_HEIGHT >? HEIGHT) || (RESULT_WIDTH >? WIDTH));;
  mat_new RESULT_HEIGHT RESULT_WIDTH default_value (fun growth =>
    for_each 0 HEIGHT (fun i =>
      for_each 0 WIDTH (fun j =>
        let* a := mat_get HEIGHT WIDTH this i j in
        mat_set RESULT_HEIGHT RESULT_WIDTH growth i j a));;
    load_mat growth).

(** The left operand is [_rows[i]], without the assertion of [operator[]]. *)
Definition mat_almost_equal (HEIGHT WIDTH : Z) (this rhs : mref)
    (delta : double) : M bool :=
  let* r := for_return 0 HEIGHT (fun i =>
              let* rhs_row := mat_index HEIGHT rhs i in
              let* eq := vec_almost_equal WIDTH (VRow this (Z.to_nat i))
                                          rhs_row delta in
              if negb eq then ret (Some false) else ret None) in
  match r with
  | Some b => ret b
  | None => ret true
  end.

Definition mat_column_matrix (HEIGHT WIDTH : Z) (this : mref) (column : Z)
  : M mat :=
  mat_new HEIGHT 1 s0 (fun col =>
    for_each 0 HEIGHT (fun i =>
      for_each 0 (column + 1) (fun j =>
        if j =? column then
          let* a := mat_get HEIGHT WIDTH this i j in
          mat_set HEIGHT 1 col i j a
        else ret tt));;
    load_mat col).

Definition mat_column_vector (HEIGHT WIDTH : Z) (this : mref) (column : Z)
  : M vec :=
  vec_new HEIGHT s0 (fun col =>
    for_each 0 HEIGHT (fun i =>
      for_each 0 (column + 1) (fun j =>
        if j =? column then
          let* a := mat_get HEIGHT WIDTH this i j in
          vec_set HEIGHT col i a
        else ret tt));;
    load col).

Definition mat_identity (HEIGHT WIDTH : Z) : M mat :=
  static_assert (is_square HEIGHT WIDTH);;
  mat_new HEIGHT WIDTH s0 (fun ident =>
    for_each 0 HEIGHT (fun i =>
      for_each 0 WIDTH (fun j =>
        if i =? j then mat_set HEIGHT WIDTH ident i j s1 else ret tt));;
    load_mat ident).

Definition mat_row_matrix (HEIGHT WIDTH : Z) (this : mref) (row : Z) : M mat :=
  assert (is_row HEIGHT row);;
  mat_new 1 WIDTH s0 (fun rowmat =>
    for_each 0 (row + 1) (fun i =>
      for_each 0 WIDTH (fun j =>
        if i =? row then
          let* a := mat_get HEIGHT WIDTH this i j in
          mat_set 1 WIDTH rowmat 0 j a
        else ret tt));;
    load_mat rowmat).

Definition mat_row_vector (HEIGHT WIDTH : Z) (this : mref) (row : Z) : M vec :=
  vec_new WIDTH s0 (fun rowvec =>
    for_each 0 (row + 1) (fun i =>
      for_each 0 WIDTH (fun j =>
        if i =? row then
          let* a := mat_get HEIGHT WIDTH this i j in
          vec_set WIDTH rowvec j a
        else ret tt));;
    load rowvec).

Definition mat_transpose (HEIGHT WIDTH : Z) (this : mref) : M mat :=
  mat_new WIDTH HEIGHT s0 (fun transpose =>
    for_each 0 HEIGHT (fun i =>
      for_each 0 WIDTH (fun j =>
        let* a := mat_get HEIGHT WIDTH this i j in
        mat_set WIDTH HEIGHT transpose j i a));;
    load_mat transpose).

Definition mat_determinant (HEIGHT WIDTH : Z) (this : mref) : M T :=
  static_assert (is_square HEIGHT WIDTH);;
  static_assert ((WIDTH =? 2) || (WIDTH =? 3));;
  let at_ := mat_get HEIGHT WIDTH this in
  let det := s0 in
  let* det :=
    if WIDTH =? 2 then
      let* a00 := at_ 0 0 in
      let* a11 := at_ 1 1 in
      let* a10 := at_ 1 0 in
      let* a01 := at_ 0 1 in
      ret (sadd det (ssub (smul a00 a11) (smul a10 a01)))
    else ret det in
  let* det :=
    if WIDTH =? 3 then
      let* a00 := at_ 0 0 in
      let* a11 := at_ 1 1 in
      let* a22 := at_ 2 2 in
      let det := sadd det (smul (smul a00 a11) a22) in
      let* a01 := at_ 0 1 in
      let* a12 := at_ 1 2 in
      let* a20 := at_ 2 0 in
      let det := sadd det (smul (smul a01 a12) a20) in
      let* a02 := at_ 0 2 in
      let* a10 := at_ 1 0 in
      let* a21 := at_ 2 1 in
      let det := sadd det (smul (smul a02 a10) a21) in
      let* a02 := at_ 0 2 in
      let* a11 := at_ 1 1 in
      let* a20 := at_ 2 0 in
      let det := ssub det (smul (smul a02 a11) a20) in
      let* a01 := at_ 0 1 in
      let* a10 := at_ 1 0 in
      let* a22 := at_ 2 2 in
      let det := ssub det (smul (smul a01 a10) a22) in
      let* a00 := at_ 0 0 in
      let* a12 := at_ 1 2 in
      let* a21 := at_ 2 1 in
      let det := ssub det (smul (smul a00 a12) a21) in
      ret det
    else ret det in
  ret det.

(** [solve]: Cramer's rule.  Leaving the function without a [return] (neither
    branch taken) is undefined behaviour. *)
Definition mat_solve (HEIGHT WIDTH : Z) (this : mref) (b : vref) : M vec :=
  static_assert (is_square HEIGHT WIDTH);;
  static_assert ((WIDTH =? 2) || (WIDTH =? 3));;
  if HEIGHT =? 2 then
    let* det := mat_determinant HEIGHT WIDTH this in
    vec_new HEIGHT s0 (fun cramsol =>
      mat_copy this (fun cramer =>
        let* b0 := vec_get HEIGHT b 0 in
        mat_set HEIGHT WIDTH cramer 0 0 b0;;
        let* b1 := vec_get HEIGHT b 1 in
        mat_set HEIGHT WIDTH cramer 1 0 b1;;
        let* d := mat_determinant HEIGHT WIDTH cramer in
        let* q := divide d det in
        vec_set HEIGHT cramsol 0 q;;
        mat_assign cramer this;;
        let* b0 := vec_get HEIGHT b 0 in
        mat_set HEIGHT WIDTH cramer 0 1 b0;;
        let* b1 := vec_get HEIGHT b 1 in
        mat_set HEIGHT WIDTH cramer 1 1 b1;;
        let* d := mat_determinant HEIGHT WIDTH cramer in
        let* q := divide d det in
        vec_set HEIGHT cramsol 1 q;;
        load cramsol))
  else if HEIGHT =? 3 then
    let* det := mat_determinant HEIGHT WIDTH this in
    vec_new HEIGHT s0 (fun cramsol =>
      mat_copy this (fun cramer =>
        for_each 0 3 (fun i =>
          for_each 0 3 (fun j =>
            let* bj := vec_get HEIGHT b j in
            mat_set HEIGHT WIDTH cramer j i bj);;
          let* d := mat_determinant HEIGHT WIDTH cramer in
          let* q := divide d det in
          vec_set HEIGHT cramsol i q;;
          mat_assign cramer this);;
        load cramsol))
  else undefined.

(** ** What the specification says

    Definitions that follow the words of the specification, to be compared
    with what the member functions compute. *)

Definition det2 (a00 a01 a10 a11 : T) : T :=
  ssub (smul a00 a11) (smul a10 a01).

Definition det3 (a00 a01 a02 a10 a11 a12 a20 a21 a22 : T) : T :=
  ssub (ssub (ssub (sadd (sadd (smul (smul a00 a11) a22)
                               (smul (smul a01 a12) a20))
                         (smul (smul a02 a10) a21))
                   (smul (smul a02 a11) a20))
             (smul (smul a01 a10) a22))
       (smul (smul a00 a12) a21).

Definition det_spec (A : mat) : T :=
  match A with
  | [[a00; a01]; [a10; a11]] => det2 a00 a01 a10 a11
  | [[a00; a01; a02]; [a10; a11; a12]; [a20; a21; a22]] =>
      det3 a00 a01 a02 a10 a11 a12 a20 a21 a22
  | _ => s0
  end.

(** [A] with column [c], and only column [c], replaced by [b]. *)
Definition replace_column (A : mat) (c : nat) (b : vec) : mat :=
  zip_with (fun row x => <[c := x]> row) A b.

(** Component [i] of the solution by Cramer's rule. *)
Definition cramer_component (A : mat) (b : vec) (i : nat) : option T :=
  sdiv (det_spec (replace_column A i b)) (det_spec A).

(** ** Rounding: monotone, odd, and exact on the integers below 2^53 *)

Section Rounding.

Local Open Scope Q_scope.

Lemma pow2_pos e : 0 < 2 ^ e.
Proof. apply Qpower_0_lt. reflexivity. Qed.

Lemma pow2_succ e : 2 ^ (e + 1) == 2 * 2 ^ e.
Proof. rewrite Qpower_plus by discriminate. simpl (2 ^ 1). ring. Qed.

Lemma pow2_le e1 e2 : (e1 <= e2)%Z -> 2 ^ e1 <= 2 ^ e2.
Proof. intros. apply Qpower_le_compat_l; [assumption | discriminate]. Qed.

Lemma pow2_lt_inv e1 e2 : 2 ^ e1 < 2 ^ e2 -> (e1 < e2)%Z.
Proof. intros H. apply (Qpower_lt_compat_l_inv 2); [assumption | reflexivity]. Qed.

Lemma pow2_inject e : (0 <= e)%Z -> inject_Z (2 ^ e) == 2 ^ e.
Proof. intros. now rewrite Zpower_Qpower. Qed.

Lemma binade_spec q : 0 < q -> 2 ^ binade q <= q /\ q < 2 ^ (binade q + 1).
Proof.
  intros Hq. destruct q as [n d]. unfold binade. simpl Qnum. simpl Qden.
  assert (Hn : (0 < n)%Z) by (unfold Qlt in Hq; simpl in Hq; lia).
  set (a := Z.log2 n). set (b := Z.log2 (Z.pos d)).
  assert (Ha : (0 <= a)%Z) by apply Z.log2_nonneg.
  assert (Hb : (0 <= b)%Z) by apply Z.log2_nonneg.
  destruct (Z.log2_spec n Hn) as [Hn1 Hn2]. fold a in Hn1, Hn2.
  destruct (Z.log2_spec (Z.pos d) eq_refl) as [Hd1 Hd2]. fold b in Hd1, Hd2.
  rewrite Zle_Qle, pow2_inject in Hn1 by assumption.
  rewrite Zlt_Qlt, pow2_inject in Hn2 by lia.
  rewrite Zle_Qle, pow2_inject in Hd1 by assumption.
  rewrite Zlt_Qlt, pow2_inject in Hd2 by lia.
  replace (Z.succ a) with (a + 1)%Z in Hn2 by lia.
  replace (Z.succ b) with (b + 1)%Z in Hd2 by lia.
  rewrite pow2_succ in Hn2, Hd2.
  assert (Eq : n # d == inject_Z n / inject_Z (Z.pos d)) by apply Qmake_Qdiv.
  assert (Ee : 2 ^ (a - b) == 2 ^ a / 2 ^ b) by (apply Qpower_minus; discriminate).
  pose proof (pow2_pos a) as Pa. pose proof (pow2_pos b) as Pb.
  set (N := inject_Z n) in *. set (Dq := inject_Z (Z.pos d)) in *.
  assert (HD : 0 < Dq) by lra.
  assert (Hup : n # d < 2 * 2 ^ (a - b)).
  { rewrite Eq, Ee. apply Qlt_shift_div_r; [assumption|].
    assert (E2 : 2 * (2 ^ a / 2 ^ b) * Dq == 2 * 2 ^ a * (Dq / 2 ^ b)) by (field; lra).
    rewrite E2.
    assert (1 <= Dq / 2 ^ b) by (apply Qle_shift_div_l; lra).
    nra. }
  assert (Hlow : 2 ^ (a - b) <= 2 * (n # d)).
  { rewrite Eq, Ee. apply Qle_shift_div_r; [assumption|].
    assert (E2 : 2 * (N / Dq) * 2 ^ b == N * (2 * 2 ^ b / Dq)) by (field; lra).
    rewrite E2.
    assert (1 <= 2 * 2 ^ b / Dq) by (apply Qle_shift_div_l; lra).
    nra. }
  destruct (Qle_bool (2 ^ (a - b)) (n # d)) eqn:E.
  - apply Qle_bool_iff in E. split; [assumption|]. now rewrite pow2_succ.
  - assert (n # d < 2 ^ (a - b)).
    { apply Qnot_le_lt. intros Hle. apply Qle_bool_iff in Hle. congruence. }
    replace (a - b - 1 + 1)%Z with (a - b)%Z by lia.
    split; [|assumption].
    assert (E3 : 2 ^ (a - b) == 2 * 2 ^ (a - b - 1)).
    { rewrite <- pow2_succ. now replace (a - b - 1 + 1)%Z with (a - b)%Z by lia. }
    lra.
Qed.

Lemma binade_mono x y : 0 < x -> x <= y -> (binade x <= binade y)%Z.
Proof.
  intros Hx Hxy.
  destruct (binade_spec x Hx) as [Hx1 _].
  destruct (binade_spec y) as [_ Hy2]; [lra|].
  assert (binade x < binade y + 1)%Z; [|lia].
  apply pow2_lt_inv. lra.
Qed.

Lemma rne_floor k : (Qfloor k <= rne k <= Qfloor k + 1)%Z.
Proof.
  unfold rne. destruct (k - inject_Z (Qfloor k) ?= 1 # 2); [|lia|lia].
  destruct (Z.even _); lia.
Qed.

Lemma rne_mono k1 k2 : k1 <= k2 -> (rne k1 <= rne k2)%Z.
Proof.
  intros Hk. pose proof (Qfloor_resp_le _ _ Hk) as Hf.
  pose proof (rne_floor k1) as H1. pose proof (rne_floor k2) as H2.
  destruct (Z.eq_dec (Qfloor k1) (Qfloor k2)) as [E|Hne]; [|lia].
  unfold rne in *. rewrite <- E in *.
  destruct (Qcompare_spec (k1 - inject_Z (Qfloor k1)) (1 # 2)) as [E1|L1|G1];
    destruct (Qcompare_spec (k2 - inject_Z (Qfloor k1)) (1 # 2)) as [E2|L2|G2];
    try lia; try lra; destruct (Z.even _); lia.
Qed.

Lemma rne_wd k1 k2 : k1 == k2 -> rne k1 = rne k2.
Proof.
  intros E. apply Z.le_antisymm; apply rne_mono; lra.
Qed.

Lemma rne_int z : rne (inject_Z z) = z.
Proof.
  unfold rne. rewrite Qfloor_Z.
  destruct (Qcompare_spec (inject_Z z - inject_Z z) (1 # 2)) as [E|L|G];
    [lra | reflexivity | lra].
Qed.

Lemma rne_ge z k : inject_Z z <= k -> (z <= rne k)%Z.
Proof. intros H. rewrite <- (rne_int z). now apply rne_mono. Qed.

Lemma rne_le z k : k <= inject_Z z -> (rne k <= z)%Z.
Proof. intros H. rewrite <- (rne_int z). now apply rne_mono. Qed.

Lemma round_pos_nonneg q : 0 < q -> 0 <= round_pos q.
Proof.
  intros Hq. unfold round_pos.
  set (u := 2 ^ (Z.max (binade q) (-1022) - 52)).
  assert (Hu : 0 < u) by apply pow2_pos.
  assert (0 <= rne (q / u))%Z.
  { apply rne_ge. apply Qle_shift_div_l; [assumption|]. change (inject_Z 0) with 0. lra. }
  rewrite Zle_Qle in H. change (inject_Z 0) with 0 in H. nra.
Qed.

(** A positive rational in a normal binade rounds within the binade. *)
Lemma round_pos_low q e :
  0 < q -> e = Z.max (binade q) (-1022) -> e = binade q ->
  2 ^ e <= round_pos q.
Proof.
  intros Hq He Hn. unfold round_pos. rewrite <- He.
  set (u := 2 ^ (e - 52)).
  assert (Hu : 0 < u) by apply pow2_pos.
  destruct (binade_spec q Hq) as [Hlow _]. rewrite <- Hn in Hlow.
  assert (E : 2 ^ e == inject_Z (2 ^ 52) * u).
  { unfold u. rewrite pow2_inject by lia.
    rewrite <- Qpower_plus by discriminate. now replace (52 + (e - 52))%Z with e by lia. }
  assert (2 ^ 52 <= rne (q / u))%Z.
  { apply rne_ge. apply Qle_shift_div_l; [assumption|]. lra. }
  rewrite Zle_Qle in H. rewrite E. nra.
Qed.

Lemma round_pos_high q e :
  0 < q -> e = Z.max (binade q) (-1022) -> round_pos q <= 2 ^ (e + 1).
Proof.
  intros Hq He. unfold round_pos. rewrite <- He.
  set (u := 2 ^ (e - 52)).
  assert (Hu : 0 < u) by apply pow2_pos.
  destruct (binade_spec q Hq) as [_ Hhigh].
  assert (2 ^ (binade q + 1) <= 2 ^ (e + 1)) by (apply pow2_le; lia).
  assert (E : 2 ^ (e + 1) == inject_Z (2 ^ 53) * u).
  { unfold u. rewrite pow2_inject by lia.
    rewrite <- Qpower_plus by discriminate. now replace (53 + (e - 52))%Z with (e + 1)%Z by lia. }
  assert (rne (q / u) <= 2 ^ 53)%Z.
  { apply rne_le. apply Qle_shift_div_r; [assumption|]. lra. }
  rewrite Zle_Qle in H0. rewrite E. nra.
Qed.

Lemma round_pos_mono x y : 0 < x -> x <= y -> round_pos x <= round_pos y.
Proof.
  intros Hx Hxy. assert (Hy : 0 < y) by lra.
  pose proof (binade_mono x y Hx Hxy) as Hb.
  set (ex := Z.max (binade x) (-1022)). set (ey := Z.max (binade y) (-1022)).
  destruct (Z.eq_dec ex ey) as [E|Hne].
  - unfold round_pos. fold ex. fold ey. rewrite <- E.
    set (u := 2 ^ (ex - 52)).
    assert (Hu : 0 < u) by apply pow2_pos.
    assert (rne (x / u) <= rne (y / u))%Z.
    { apply rne_mono. apply Qle_shift_div_l; [assumption|].
      assert (x / u * u == x) by (field; lra). lra. }
    rewrite Zle_Qle in H. nra.
  - assert (Hlt : (ex < ey)%Z) by lia.
    assert (Hn : ey = binade y) by lia.
    pose proof (round_pos_high x ex Hx eq_refl).
    pose proof (round_pos_low y ey Hy eq_refl Hn).
    assert (2 ^ (ex + 1) <= 2 ^ ey) by (apply pow2_le; lia).
    lra.
Qed.

Lemma round64_mono x y : x <= y -> round64 x <= round64 y.
Proof.
  intros Hxy. unfold round64.
  destruct (Qcompare_spec x 0) as [Ex|Lx|Gx];
    destruct (Qcompare_spec y 0) as [Ey|Ly|Gy]; try lra.
  - now apply round_pos_nonneg.
  - pose proof (round_pos_nonneg (- x)). lra.
  - pose proof (round_pos_mono (- y) (- x)). lra.
  - pose proof (round_pos_nonneg (- x)). pose proof (round_pos_nonneg y). lra.
  - now apply round_pos_mono.
Qed.

#[export] Instance round64_wd : Proper (Qeq ==> Qeq) round64.
Proof.
  intros x y E. apply Qle_antisym; apply round64_mono; lra.
Qed.

Lemma round64_opp q : round64 (- q) == - round64 q.
Proof.
  unfold round64.
  destruct (Qcompare_spec q 0) as [E|L|G];
    destruct (Qcompare_spec (- q) 0) as [E'|L'|G']; try lra.
  assert (Hq : - - q == q) by ring.
  assert (round_pos (- - q) == round_pos q).
  { apply Qle_antisym; apply round_pos_mono; lra. }
  lra.
Qed.

Lemma round64_abs q : Qabs (round64 q) == round64 (Qabs q).
Proof.
  apply Qabs_case with (x := q); intros Hq.
  - rewrite Qabs_pos; [reflexivity|].
    change 0 with (round64 0). now apply round64_mono.
  - rewrite round64_opp. apply Qabs_neg.
    change 0 with (round64 0). now apply round64_mono.
Qed.

Lemma round_pos_int z : (0 < z < 2 ^ 53)%Z -> round_pos (inject_Z z) == inject_Z z.
Proof.
  intros Hz. unfold round_pos.
  assert (Hq : 0 < inject_Z z).
  { change 0 with (inject_Z 0). rewrite <- Zlt_Qlt. lia. }
  destruct (binade_spec _ Hq) as [Hlow Hhigh].
  set (e := binade (inject_Z z)) in *.
  assert (He : (0 <= e <= 52)%Z).
  { split.
    - assert (2 ^ 0 < 2 ^ (e + 1)); [|apply pow2_lt_inv in H; lia].
      assert (inject_Z 1 <= inject_Z z) by (rewrite <- Zle_Qle; lia).
      change (2 ^ 0) with (inject_Z 1). lra.
    - assert (2 ^ e < 2 ^ 53); [|apply pow2_lt_inv in H; lia].
      assert (inject_Z z < inject_Z (2 ^ 53)) by (rewrite <- Zlt_Qlt; lia).
      rewrite pow2_inject in H by lia. lra. }
  replace (Z.max e (-1022)) with e by lia.
  assert (E : inject_Z z / 2 ^ (e - 52) == inject_Z (z * 2 ^ (52 - e))).
  { rewrite inject_Z_mult, pow2_inject by lia.
    replace (e - 52)%Z with (- (52 - e))%Z by lia. rewrite Qpower_opp.
    field. apply Qpower_not_0. discriminate. }
  rewrite (rne_wd _ _ E), rne_int, inject_Z_mult, pow2_inject by lia.
  rewrite <- Qmult_assoc, <- Qpower_plus by discriminate.
  replace (52 - e + (e - 52))%Z with 0%Z by lia. simpl (2 ^ 0). ring.
Qed.

Lemma round64_int z : (Z.abs z < 2 ^ 53)%Z -> round64 (inject_Z z) == inject_Z z.
Proof.
  intros Hz. unfold round64.
  destruct (Qcompare_spec (inject_Z z) 0) as [E|L|G].
  - lra.
  - change 0 with (inject_Z 0) in L. rewrite <- Zlt_Qlt in L.
    rewrite <- inject_Z_opp, round_pos_int by lia. rewrite inject_Z_opp. ring.
  - change 0 with (inject_Z 0) in G. rewrite <- Zlt_Qlt in G.
    apply round_pos_int. lia.
Qed.

Lemma is_double_int z : (Z.abs z < 2 ^ 53)%Z -> is_double (inject_Z z).
Proof.
  intros Hz. split; [now apply round64_int|].
  assert (Qabs (inject_Z z) == inject_Z (Z.abs z)) as ->.
  { unfold Qabs, inject_Z. reflexivity. }
  assert (inject_Z (Z.abs z) <= inject_Z (2 ^ 53)) by (rewrite <- Zle_Qle; lia).
  assert (inject_Z (2 ^ 53) <= DBL_MAX) by (vm_compute; discriminate).
  lra.
Qed.

End Rounding.

(** The model against known doubles: 0.1 is 0x3FB999999999999A; a tie goes
    to the even significand, also across a power of two; below 2^-1022 the
    spacing is 2^-1074. *)
Example round64_tenth : (round64 (1 # 10) == 3602879701896397 / 2 ^ 55)%Q.
Proof. vm_compute. reflexivity. Qed.

Example round64_ties :
  (round64 (1 + 1 / 2 ^ 53) == 1)%Q /\
  (round64 (1 + 3 / 2 ^ 53) == 1 + 1 / 2 ^ 51)%Q /\
  (round64 (2 - 1 / 2 ^ 53) == 2)%Q.
Proof. repeat split; vm_compute; reflexivity. Qed.

Example round64_subnormal :
  (round64 (1 / 2 ^ 1075) == 0)%Q /\
  (round64 (3 / 2 ^ 1076) == 1 / 2 ^ 1074)%Q /\
  (round64 DBL_MAX == DBL_MAX)%Q.
Proof. repeat split; vm_compute; reflexivity. Qed.

(** ** Running a computation *)

Lemma bind_eval {A B} (m : M A) (k : A -> M B) h a h1 r :
  m h = Ret (a, h1) -> k a h1 = r -> bind m k h = r.
Proof. intros Hm Hk. unfold bind. now rewrite Hm. Qed.

Lemma bind_abort {A B} (m : M A) (k : A -> M B) h :
  m h = Abort -> bind m k h = Abort.
Proof. intros Hm. unfold bind. now rewrite Hm. Qed.

Lemma bind_inv {A B} (m : M A) (k : A -> M B) h b h2 :
  bind m k h = Ret (b, h2) ->
  exists a h1, m h = Ret (a, h1) /\ k a h1 = Ret (b, h2).
Proof.
  unfold bind. destruct (m h) as [[a h1]| | |]; try discriminate.
  intros Hk. now exists a, h1.
Qed.

Lemma assert_eval b (h : heap) : b = true -> assert b h = Ret (tt, h).
Proof. now intros ->. Qed.

Lemma static_assert_eval b (h : heap) : b = true -> static_assert b h = Ret (tt, h).
Proof. now intros ->. Qed.

Lemma is_index_true D i : is_index D i = true <-> 0 <= i < D.
Proof. unfold is_index. rewrite andb_true_iff. lia. Qed.

Lemma is_row_true H r : is_row H r = true <-> 0 <= r < H.
Proof. unfold is_row. rewrite andb_true_iff. lia. Qed.

Lemma read_eval r i v x h :
  lookup_vec r h = Some v -> v !! i = Some x -> read (r, i) h = Ret (x, h).
Proof. intros Hv Hx. unfold read. simpl. now rewrite Hv, Hx. Qed.

Lemma write_eval r i v x y h :
  lookup_vec r h = Some v -> v !! i = Some y ->
  write (r, i) x h = Ret (tt, update_vec r (<[i := x]> v) h).
Proof. intros Hv Hy. unfold write. simpl. now rewrite Hv, Hy. Qed.

Lemma load_eval r v h : lookup_vec r h = Some v -> load r h = Ret (v, h).
Proof. intros Hv. unfold load. now rewrite Hv. Qed.

Lemma load_mat_eval m a h : mats h !! m = Some a -> load_mat m h = Ret (a, h).
Proof. intros Hm. unfold load_mat. now rewrite Hm. Qed.

Lemma vec_get_eval D r i v x h :
  is_index D i = true -> lookup_vec r h = Some v -> v !! Z.to_nat i = Some x ->
  vec_get D r i h = Ret (x, h).
Proof.
  intros Hi Hv Hx. unfold vec_get, vec_index.
  eapply bind_eval; [eapply bind_eval; [now apply assert_eval | reflexivity] |].
  now apply read_eval with v.
Qed.

Lemma vec_set_eval D r i v x y h :
  is_index D i = true -> lookup_vec r h = Some v -> v !! Z.to_nat i = Some y ->
  vec_set D r i x h = Ret (tt, update_vec r (<[Z.to_nat i := x]> v) h).
Proof.
  intros Hi Hv Hy. unfold vec_set, vec_index.
  eapply bind_eval; [eapply bind_eval; [now apply assert_eval | reflexivity] |].
  now apply write_eval with y.
Qed.

Lemma mat_index_eval H m i h :
  is_row H i = true -> mat_index H m i h = Ret (VRow m (Z.to_nat i), h).
Proof.
  intros Hi. unfold mat_index.
  eapply bind_eval; [now apply assert_eval | reflexivity].
Qed.

Lemma lookup_row m i a row h :
  mats h !! m = Some a -> a !! i = Some row -> lookup_vec (VRow m i) h = Some row.
Proof. intros Hm Hr. unfold lookup_vec. now rewrite Hm. Qed.

Lemma mat_get_eval H W m i j a row x h :
  is_row H i = true -> is_index W j = true ->
  mats h !! m = Some a -> a !! Z.to_nat i = Some row ->
  row !! Z.to_nat j = Some x ->
  mat_get H W m i j h = Ret (x, h).
Proof.
  intros Hi Hj Hm Hr Hx. unfold mat_get.
  eapply bind_eval; [now apply mat_index_eval |].
  eapply vec_get_eval; eauto using lookup_row.
Qed.

Lemma mat_set_eval H W m i j a row x y h :
  is_row H i = true -> is_index W j = true ->
  mats h !! m = Some a -> a !! Z.to_nat i = Some row ->
  row !! Z.to_nat j = Some y ->
  mat_set H W m i j x h =
    Ret (tt, Heap (vecs h)
                  (<[m := <[Z.to_nat i := <[Z.to_nat j := x]> row]> a]> (mats h))).
Proof.
  intros Hi Hj Hm Hr Hy. unfold mat_set.
  eapply bind_eval; [now apply mat_index_eval |].
  erewrite vec_set_eval; eauto using lookup_row.
  unfold update_vec. now rewrite Hm.
Qed.

(** ** Locals on top of a store

    While a member function runs, the store is the caller's store [h] with
    the function's local vectors [lv] and local matrices [lm] on top. *)

Definition ext (h : heap) (lv : list vec) (lm : list mat) : heap :=
  Heap (vecs h ++ lv) (mats h ++ lm).

Lemma ext_nil h : ext h [] [] = h.
Proof. destruct h. unfold ext. simpl. now rewrite !app_nil_r. Qed.

Lemma mats_ext_base m a h lv lm :
  mats h !! m = Some a -> mats (ext h lv lm) !! m = Some a.
Proof. intros Hm. simpl. now apply lookup_app_l_Some. Qed.

Lemma mats_ext_local k h lv lm :
  mats (ext h lv lm) !! (length (mats h) + k)%nat = lm !! k.
Proof.
  simpl. rewrite lookup_app_r by lia. f_equal. lia.
Qed.

Lemma lookup_vec_base r v h lv lm :
  lookup_vec r h = Some v -> lookup_vec r (ext h lv lm) = Some v.
Proof.
  destruct r as [l|m i]; unfold lookup_vec; simpl.
  - now apply lookup_app_l_Some.
  - destruct (mats h !! m) as [rows|] eqn:Hm; [|discriminate].
    now rewrite (lookup_app_l_Some _ _ _ _ Hm).
Qed.

Lemma lookup_vec_local k h lv lm :
  lookup_vec (VObj (length (vecs h) + k)) (ext h lv lm) = lv !! k.
Proof.
  simpl. rewrite lookup_app_r by lia. f_equal. lia.
Qed.

Lemma update_vec_local k v h lv lm :
  update_vec (VObj (length (vecs h) + k)) v (ext h lv lm)
  = ext h (<[k := v]> lv) lm.
Proof.
  unfold update_vec, ext. simpl. f_equal.
  rewrite insert_app_r_alt by lia. do 2 f_equal. lia.
Qed.

Lemma insert_mats_local k a h lv lm :
  Heap (vecs (ext h lv lm))
       (<[(length (mats h) + k)%nat := a]> (mats (ext h lv lm)))
  = ext h lv (<[k := a]> lm).
Proof.
  unfold ext. simpl. f_equal.
  rewrite insert_app_r_alt by lia. do 2 f_equal. lia.
Qed.

Lemma vec_get_base D r i v x h lv lm :
  is_index D i = true -> lookup_vec r h = Some v -> v !! Z.to_nat i = Some x ->
  vec_get D r i (ext h lv lm) = Ret (x, ext h lv lm).
Proof. eauto using vec_get_eval, lookup_vec_base. Qed.

Lemma vec_get_local D k i v x h lv lm :
  is_index D i = true -> lv !! k = Some v -> v !! Z.to_nat i = Some x ->
  vec_get D (VObj (length (vecs h) + k)) i (ext h lv lm) = Ret (x, ext h lv lm).
Proof.
  intros. eapply vec_get_eval; eauto. now rewrite lookup_vec_local.
Qed.

Lemma vec_set_local D k i v x y h lv lm :
  is_index D i = true -> lv !! k = Some v -> v !! Z.to_nat i = Some y ->
  vec_set D (VObj (length (vecs h) + k)) i x (ext h lv lm)
  = Ret (tt, ext h (<[k := <[Z.to_nat i := x]> v]> lv) lm).
Proof.
  intros. erewrite vec_set_eval; eauto.
  - now rewrite update_vec_local.
  - now rewrite lookup_vec_local.
Qed.

Lemma mat_get_base H W m i j a row x h lv lm :
  is_row H i = true -> is_index W j = true ->
  mats h !! m = Some a -> a !! Z.to_nat i = Some row ->
  row !! Z.to_nat j = Some x ->
  mat_get H W m i j (ext h lv lm) = Ret (x, ext h lv lm).
Proof. eauto using mat_get_eval, mats_ext_base. Qed.

Lemma mat_get_local H W k i j a row x h lv lm :
  is_row H i = true -> is_index W j = true ->
  lm !! k = Some a -> a !! Z.to_nat i = Some row ->
  row !! Z.to_nat j = Some x ->
  mat_get H W (length (mats h) + k)%nat i j (ext h lv lm) = Ret (x, ext h lv lm).
Proof.
  intros. eapply mat_get_eval; eauto. now rewrite mats_ext_local.
Qed.

Lemma mat_set_local H W k i j a row x y h lv lm :
  is_row H i = true -> is_index W j = true ->
  lm !! k = Some a -> a !! Z.to_nat i = Some row ->
  row !! Z.to_nat j = Some y ->
  mat_set H W (length (mats h) + k)%nat i j x (ext h lv lm)
  = Ret (tt, ext h lv (<[k := <[Z.to_nat i := <[Z.to_nat j := x]> row]> a]> lm)).
Proof.
  intros. erewrite mat_set_eval; eauto.
  - now rewrite insert_mats_local.
  - now rewrite mats_ext_local.
Qed.

Lemma load_base r v h lv lm :
  lookup_vec r h = Some v -> load r (ext h lv lm) = Ret (v, ext h lv lm).
Proof. eauto using load_eval, lookup_vec_base. Qed.

Lemma load_local k v h lv lm :
  lv !! k = Some v ->
  load (VObj (length (vecs h) + k)) (ext h lv lm) = Ret (v, ext h lv lm).
Proof. intros. apply load_eval. now rewrite lookup_vec_local. Qed.

Lemma load_mat_base m a h lv lm :
  mats h !! m = Some a -> load_mat m (ext h lv lm) = Ret (a, ext h lv lm).
Proof. eauto using load_mat_eval, mats_ext_base. Qed.

Lemma load_mat_local k a h lv lm :
  lm !! k = Some a ->
  load_mat (length (mats h) + k)%nat (ext h lv lm) = Ret (a, ext h lv lm).
Proof. intros. apply load_mat_eval. now rewrite mats_ext_local. Qed.

Lemma store_mat_local k a b h lv lm :
  lm !! k = Some b ->
  store_mat (length (mats h) + k)%nat a (ext h lv lm)
  = Ret (tt, ext h lv (<[k := a]> lm)).
Proof.
  intros Hk. unfold store_mat. rewrite mats_ext_local, Hk.
  now rewrite insert_mats_local.
Qed.

Lemma local_vec_ext {A} init (body : vref -> M A) a h lv lm lv2 lm2 :
  body (VObj (length (vecs h) + length lv)) (ext h (lv ++ [init]) lm)
    = Ret (a, ext h lv2 lm2) ->
  local_vec init body (ext h lv lm) = Ret (a, ext h (take (length lv) lv2) lm2).
Proof.
  intros Hb. unfold local_vec. simpl vecs. simpl mats.
  rewrite length_app, <- app_assoc.
  change (Heap (vecs h ++ lv ++ [init]) (mats h ++ lm))
    with (ext h (lv ++ [init]) lm).
  rewrite Hb. unfold ext. simpl. now rewrite take_app_add.
Qed.

Lemma local_mat_ext {A} init (body : mref -> M A) a h lv lm lv2 lm2 :
  body (length (mats h) + length lm)%nat (ext h lv (lm ++ [init]))
    = Ret (a, ext h lv2 lm2) ->
  local_mat init body (ext h lv lm) = Ret (a, ext h lv2 (take (length lm) lm2)).
Proof.
  intros Hb. unfold local_mat. simpl vecs. simpl mats.
  rewrite length_app, <- app_assoc.
  change (Heap (vecs h ++ lv) (mats h ++ lm ++ [init]))
    with (ext h lv (lm ++ [init])).
  rewrite Hb. unfold ext. simpl. now rewrite take_app_add.
Qed.

Lemma divide_eval a b q (h : heap) :
  sdiv a b = Some q -> divide a b h = Ret (q, h).
Proof. intros Hq. unfold divide. now rewrite Hq. Qed.

(** ** determinant *)

Section Determinant.

(** [det] starts at the literal 0 and the first term is added to it. *)
Context {SL : ScalarLaws T}.

Lemma determinant_2x2 h this a00 a01 a10 a11 :
  mats h !! this = Some [[a00; a01]; [a10; a11]] ->
  mat_determinant 2 2 this h = Ret (det2 a00 a01 a10 a11, h).
Proof.
  intros Hm. unfold mat_determinant.
  do 2 (eapply bind_eval; [now apply static_assert_eval |]).
  change (2 =? 2) with true. change (2 =? 3) with false. cbv iota.
  eapply bind_eval.
  { repeat (eapply bind_eval;
            [eapply mat_get_eval; [reflexivity | reflexivity | exact Hm
                                  | reflexivity | reflexivity] |]).
    reflexivity. }
  eapply bind_eval; [reflexivity |].
  unfold ret, det2. now rewrite sadd_0_l.
Qed.

Lemma determinant_3x3 h this a00 a01 a02 a10 a11 a12 a20 a21 a22 :
  mats h !! this = Some [[a00; a01; a02]; [a10; a11; a12]; [a20; a21; a22]] ->
  mat_determinant 3 3 this h =
    Ret (det3 a00 a01 a02 a10 a11 a12 a20 a21 a22, h).
Proof.
  intros Hm. unfold mat_determinant.
  do 2 (eapply bind_eval; [now apply static_assert_eval |]).
  change (3 =? 2) with false. change (3 =? 3) with true. cbv iota.
  eapply bind_eval; [reflexivity |].
  eapply bind_eval.
  { repeat (eapply bind_eval;
            [eapply mat_get_eval; [reflexivity | reflexivity | exact Hm
                                  | reflexivity | reflexivity] |]).
    reflexivity. }
  unfold ret, det3. now rewrite sadd_0_l.
Qed.

End Determinant.

(** ** Straight-line evaluation

    [eval_comp] runs a computation whose loops have literal bounds on a store
    of the form [ext h lv lm], one primitive at a time. *)

Ltac in_range :=
  first [ reflexivity | apply is_index_true; lia | apply is_row_true; lia ].

Ltac eval_prim :=
  lazymatch goal with
  | |- assert _ _ = _ => apply assert_eval; reflexivity
  | |- static_assert _ _ = _ => apply static_assert_eval; reflexivity
  | |- vec_get _ (VObj (_ + _)) _ _ = _ =>
      eapply vec_get_local; [in_range | reflexivity | reflexivity]
  | |- vec_get _ _ _ _ = _ =>
      eapply vec_get_base; [in_range | eassumption | reflexivity]
  | |- vec_set _ (VObj (_ + _)) _ _ _ = _ =>
      eapply vec_set_local; [in_range | reflexivity | reflexivity]
  | |- mat_get _ _ (_ + _)%nat _ _ _ = _ => eapply mat_get_local; reflexivity
  | |- mat_get _ _ _ _ _ _ = _ =>
      eapply mat_get_base;
        [reflexivity | reflexivity | eassumption | reflexivity | reflexivity]
  | |- mat_set _ _ (_ + _)%nat _ _ _ _ = _ => eapply mat_set_local; reflexivity
  | |- load (VObj (_ + _)) _ = _ => eapply load_local; reflexivity
  | |- load _ _ = _ => eapply load_base; eassumption
  | |- load_mat (_ + _)%nat _ = _ => eapply load_mat_local; reflexivity
  | |- load_mat _ _ = _ => eapply load_mat_base; eassumption
  | |- store_mat (_ + _)%nat _ _ = _ => eapply store_mat_local; reflexivity
  | |- divide _ _ _ = _ => eapply divide_eval; eassumption
  end.

Ltac eval_comp :=
  lazymatch goal with
  | |- bind _ _ _ = _ =>
      eapply bind_eval; [eval_comp | cbv beta; eval_comp]
  | |- ret _ _ = _ => reflexivity
  | |- (if ?c then _ else _) _ = _ =>
      let c' := eval vm_compute in c in
      change c with c'; cbv iota; eval_comp
  | |- local_vec _ _ _ = _ => eapply local_vec_ext; eval_comp
  | |- local_mat _ _ _ = _ => eapply local_mat_ext; eval_comp
  | |- for_each ?lo ?hi ?f _ = _ =>
      let n := eval vm_compute in (Z.to_nat (hi - lo)) in
      change (for_each lo hi f) with (for_loop n lo (fun i (_ : unit) => f i) tt);
      cbn [for_loop]; eval_comp
  | |- _ => eval_prim
  end.

(** ** cross *)

Lemma cross_3 h this rhs a0 a1 a2 b0 b1 b2 :
  lookup_vec this h = Some [a0; a1; a2] ->
  lookup_vec rhs h = Some [b0; b1; b2] ->
  vec_cross 3 this rhs h =
    Ret ([ssub (smul a1 b2) (smul a2 b1);
          ssub s0 (ssub (smul a0 b2) (smul a2 b0));
          ssub (smul a0 b1) (smul a1 b0)], h).
Proof.
  intros Ha Hb. rewrite <- (ext_nil h).
  unfold vec_cross, vec_copy. etransitivity; [eval_comp | reflexivity].
Qed.

(** ** solve *)

Section Solve.

Context {SL : ScalarLaws T}.

Lemma determinant_2x2_local h lv lm k a00 a01 a10 a11 :
  lm !! k = Some [[a00; a01]; [a10; a11]] ->
  mat_determinant 2 2 (length (mats h) + k)%nat (ext h lv lm)
  = Ret (det2 a00 a01 a10 a11, ext h lv lm).
Proof.
  intros Hk. apply determinant_2x2.
  now rewrite mats_ext_local.
Qed.

Lemma determinant_3x3_local h lv lm k a00 a01 a02 a10 a11 a12 a20 a21 a22 :
  lm !! k = Some [[a00; a01; a02]; [a10; a11; a12]; [a20; a21; a22]] ->
  mat_determinant 3 3 (length (mats h) + k)%nat (ext h lv lm)
  = Ret (det3 a00 a01 a02 a10 a11 a12 a20 a21 a22, ext h lv lm).
Proof.
  intros Hk. apply determinant_3x3.
  now rewrite mats_ext_local.
Qed.

Ltac eval_solve :=
  lazymatch goal with
  | |- bind _ _ _ = _ =>
      eapply bind_eval; [eval_solve | cbv beta; eval_solve]
  | |- local_vec _ _ _ = _ => eapply local_vec_ext; eval_solve
  | |- local_mat _ _ _ = _ => eapply local_mat_ext; eval_solve
  | |- for_each ?lo ?hi ?f _ = _ =>
      let n := eval vm_compute in (Z.to_nat (hi - lo)) in
      change (for_each lo hi f) with (for_loop n lo (fun i (_ : unit) => f i) tt);
      cbn [for_loop]; eval_solve
  | |- mat_determinant 2 2 (_ + _)%nat _ = _ =>
      eapply determinant_2x2_local; reflexivity
  | |- mat_determinant 2 2 _ _ = _ =>
      eapply determinant_2x2; apply mats_ext_base; eassumption
  | |- mat_determinant 3 3 (_ + _)%nat _ = _ =>
      eapply determinant_3x3_local; reflexivity
  | |- mat_determinant 3 3 _ _ = _ =>
      eapply determinant_3x3; apply mats_ext_base; eassumption
  | |- mat_assign _ _ _ = _ => unfold mat_assign; eval_solve
  | |- _ => eval_comp
  end.

Lemma solve_2x2 h this b a00 a01 a10 a11 b0 b1 x0 x1 :
  mats h !! this = Some [[a00; a01]; [a10; a11]] ->
  lookup_vec b h = Some [b0; b1] ->
  cramer_component [[a00; a01]; [a10; a11]] [b0; b1] 0 = Some x0 ->
  cramer_component [[a00; a01]; [a10; a11]] [b0; b1] 1 = Some x1 ->
  mat_solve 2 2 this b h = Ret ([x0; x1], h).
Proof.
  intros HA Hb H0 H1. rewrite <- (ext_nil h).
  unfold cramer_component in H0, H1. simpl in H0, H1.
  unfold mat_solve, vec_new, mat_copy, vec_fill.
  do 2 (eapply bind_eval; [now apply static_assert_eval |]).
  change (2 =? 2) with true. cbv iota.
  etransitivity; [eval_solve | reflexivity].
Qed.

Lemma solve_3x3 h this b a00 a01 a02 a10 a11 a12 a20 a21 a22 b0 b1 b2 x0 x1 x2 :
  let A := [[a00; a01; a02]; [a10; a11; a12]; [a20; a21; a22]] in
  mats h !! this = Some A ->
  lookup_vec b h = Some [b0; b1; b2] ->
  cramer_component A [b0; b1; b2] 0 = Some x0 ->
  cramer_component A [b0; b1; b2] 1 = Some x1 ->
  cramer_component A [b0; b1; b2] 2 = Some x2 ->
  mat_solve 3 3 this b h = Ret ([x0; x1; x2], h).
Proof.
  intros A HA Hb H0 H1 H2. rewrite <- (ext_nil h).
  unfold cramer_component, A in H0, H1, H2. simpl in H0, H1, H2.
  unfold mat_solve, vec_new, mat_copy, vec_fill.
  do 2 (eapply bind_eval; [now apply static_assert_eval |]).
  change (3 =? 2) with false. change (3 =? 3) with true. cbv iota.
  etransitivity; [eval_solve | reflexivity].
Qed.

End Solve.

(** ** Frame: what a computation may write

    [frame nv nm m]: [m] neither creates nor destroys an object of the store
    it is given, and writes to none of the first [nv] vectors and first [nm]
    matrices.  A member function is entered with [nv] and [nm] the sizes of
    the caller's store, so only its own locals lie above them. *)

Definition frame {A} (nv nm : nat) (m : M A) : Prop :=
  forall h a h',
    (nv <= length (vecs h))%nat -> (nm <= length (mats h))%nat ->
    m h = Ret (a, h') ->
    length (vecs h') = length (vecs h) /\
    length (mats h') = length (mats h) /\
    take nv (vecs h') = take nv (vecs h) /\
    take nm (mats h') = take nm (mats h).

(** A reference into the part of the store that may be written. *)
Definition above (nv nm : nat) (r : vref) : Prop :=
  match r with
  | VObj l => (nv <= l)%nat
  | VRow m _ => (nm <= m)%nat
  end.

(** [unchanged m]: whenever [m] returns, the store is the one it was given. *)
Definition unchanged {A} (m : M A) : Prop :=
  forall h a h', m h = Ret (a, h') -> h' = h.

Lemma frame_unchanged {A} (m : M A) :
  (forall nv nm, frame nv nm m) -> unchanged m.
Proof.
  intros Hf h a h' Hm.
  destruct (Hf (length (vecs h)) (length (mats h)) h a h') as (Lv & Lm & Tv & Tm);
    [lia | lia | exact Hm |].
  rewrite <- Lv in Tv at 1. rewrite <- Lm in Tm at 1.
  rewrite !firstn_all in Tv, Tm.
  destruct h, h'; simpl in *; congruence.
Qed.

Lemma frame_pure {A} nv nm (m : M A) :
  (forall h a h', m h = Ret (a, h') -> h' = h) -> frame nv nm m.
Proof. intros Hp h a h' _ _ Hm. now rewrite (Hp _ _ _ Hm). Qed.

Lemma frame_ret {A} nv nm (a : A) : frame nv nm (ret a).
Proof. apply frame_pure. unfold ret. congruence. Qed.

Lemma frame_undefined {A} nv nm : frame nv nm (undefined : M A).
Proof. apply frame_pure. unfold undefined. discriminate. Qed.

Lemma frame_assert nv nm b : frame nv nm (assert b).
Proof. apply frame_pure. unfold assert. destruct b; congruence. Qed.

Lemma frame_static_assert nv nm b : frame nv nm (static_assert b).
Proof. apply frame_pure. unfold static_assert. destruct b; congruence. Qed.

Lemma frame_read nv nm e : frame nv nm (read e).
Proof.
  apply frame_pure. unfold read. intros h a h'.
  destruct (lookup_vec e.1 h) as [v|]; [|discriminate].
  destruct (v !! e.2); congruence.
Qed.

Lemma frame_load nv nm r : frame nv nm (load r).
Proof.
  apply frame_pure. unfold load. intros h a h'.
  destruct (lookup_vec r h); congruence.
Qed.

Lemma frame_load_mat nv nm m : frame nv nm (load_mat m).
Proof.
  apply frame_pure. unfold load_mat. intros h a h'.
  destruct (mats h !! m); congruence.
Qed.

Lemma frame_divide nv nm a b : frame nv nm (divide a b).
Proof.
  unfold divide. destruct (sdiv a b); [apply frame_ret | apply frame_undefined].
Qed.

Lemma frame_bind {A B} nv nm (m : M A) (k : A -> M B) :
  frame nv nm m -> (forall a, frame nv nm (k a)) -> frame nv nm (bind m k).
Proof.
  intros Hm Hk h b h2 Hv Hn Hb.
  apply bind_inv in Hb as (a & h1 & H1 & H2).
  destruct (Hm _ _ _ Hv Hn H1) as (Lv & Lm & Tv & Tm).
  destruct (Hk a h1 b h2) as (Lv' & Lm' & Tv' & Tm'); [lia | lia | exact H2 |].
  repeat split; congruence.
Qed.

Lemma frame_if {A} nv nm (b : bool) (m1 m2 : M A) :
  frame nv nm m1 -> frame nv nm m2 -> frame nv nm (if b then m1 else m2).
Proof. now destruct b. Qed.

Lemma frame_update_vec nv nm r v h :
  above nv nm r ->
  length (vecs (update_vec r v h)) = length (vecs h) /\
  length (mats (update_vec r v h)) = length (mats h) /\
  take nv (vecs (update_vec r v h)) = take nv (vecs h) /\
  take nm (mats (update_vec r v h)) = take nm (mats h).
Proof.
  destruct r as [l|m i]; unfold update_vec; simpl; intros Ha.
  - rewrite length_insert, take_insert_ge by lia. auto.
  - destruct (mats h !! m); simpl; [|auto].
    rewrite length_insert, take_insert_ge by lia. auto.
Qed.

Lemma frame_write nv nm e x : above nv nm e.1 -> frame nv nm (write e x).
Proof.
  intros Ha h a h' _ _. unfold write.
  destruct (lookup_vec e.1 h) as [v|]; [|discriminate].
  destruct (v !! e.2); [|discriminate].
  intros [= _ <-]. now apply frame_update_vec.
Qed.

Lemma frame_store nv nm r v : above nv nm r -> frame nv nm (store r v).
Proof.
  intros Ha h a h' _ _. unfold store.
  destruct (lookup_vec r h); [|discriminate].
  intros [= _ <-]. now apply frame_update_vec.
Qed.

Lemma frame_store_mat nv nm m a : (nm <= m)%nat -> frame nv nm (store_mat m a).
Proof.
  intros Ha h u h' _ _. unfold store_mat.
  destruct (mats h !! m); [|discriminate].
  intros [= _ <-]. simpl. rewrite length_insert, take_insert_ge by lia. auto.
Qed.

Lemma frame_local_vec {A} nv nm init (body : vref -> M A) :
  (forall l, (nv <= l)%nat -> frame nv nm (body (VObj l))) ->
  frame nv nm (local_vec init body).
Proof.
  intros Hb h a h' Hv Hn. unfold local_vec.
  destruct (body _ _) as [[a1 h1]| | |] eqn:Hbody; try discriminate.
  intros [= <- <-].
  apply Hb in Hbody as (Lv & Lm & Tv & Tm); simpl in *;
    [| lia | rewrite length_app; lia | lia].
  rewrite length_app in Lv. simpl in Lv.
  rewrite take_app_le in Tv by lia.
  repeat split; [rewrite length_take; lia | lia | | exact Tm].
  now rewrite take_take, Nat.min_l by lia.
Qed.

Lemma frame_local_mat {A} nv nm init (body : mref -> M A) :
  (forall l, (nm <= l)%nat -> frame nv nm (body l)) ->
  frame nv nm (local_mat init body).
Proof.
  intros Hb h a h' Hv Hn. unfold local_mat.
  destruct (body _ _) as [[a1 h1]| | |] eqn:Hbody; try discriminate.
  intros [= <- <-].
  apply Hb in Hbody as (Lv & Lm & Tv & Tm); simpl in *;
    [| lia | lia | rewrite length_app; lia].
  rewrite length_app in Lm. simpl in Lm.
  rewrite take_app_le in Tm by lia.
  repeat split; [lia | rewrite length_take; lia | exact Tv |].
  now rewrite take_take, Nat.min_l by lia.
Qed.

Lemma frame_for_loop {S} nv nm n i (body : Z -> S -> M S) s :
  (forall j t, frame nv nm (body j t)) -> frame nv nm (for_loop n i body s).
Proof.
  intros Hb. revert i s. induction n as [|n IH]; intros i s; simpl.
  - apply frame_ret.
  - apply frame_bind; auto.
Qed.

Lemma frame_for_range {S} nv nm lo hi (body : Z -> S -> M S) s :
  (forall j t, frame nv nm (body j t)) -> frame nv nm (for_range lo hi body s).
Proof. apply frame_for_loop. Qed.

Lemma frame_for_each nv nm lo hi (body : Z -> M unit) :
  (forall j, frame nv nm (body j)) -> frame nv nm (for_each lo hi body).
Proof. intros Hb. apply frame_for_range. auto. Qed.

Lemma frame_for_return {R} nv nm lo hi (body : Z -> M (option R)) :
  (forall j, frame nv nm (body j)) -> frame nv nm (for_return lo hi body).
Proof.
  intros Hb. unfold for_return. generalize (Z.to_nat (hi - lo)) as n.
  intros n. revert lo. induction n as [|n IH]; intros i; simpl.
  - apply frame_ret.
  - apply frame_bind; [auto|]. intros [r|]; [apply frame_ret | apply IH].
Qed.

Lemma frame_vec_index nv nm D r i : frame nv nm (vec_index D r i).
Proof.
  unfold vec_index. apply frame_bind; [apply frame_assert|].
  intros _. apply frame_ret.
Qed.

Lemma frame_vec_get nv nm D r i : frame nv nm (vec_get D r i).
Proof.
  unfold vec_get. apply frame_bind; [apply frame_vec_index|].
  intros e. apply frame_read.
Qed.

Lemma frame_vec_set nv nm D r i x :
  above nv nm r -> frame nv nm (vec_set D r i x).
Proof.
  intros Ha h a h' Hv Hn. unfold vec_set, vec_index, assert, bind, ret.
  destruct (is_index D i); [|discriminate].
  now apply frame_write.
Qed.

Lemma frame_mat_index nv nm H m i : frame nv nm (mat_index H m i).
Proof.
  unfold mat_index. apply frame_bind; [apply frame_assert|].
  intros _. apply frame_ret.
Qed.

Lemma frame_mat_get nv nm H W m i j : frame nv nm (mat_get H W m i j).
Proof.
  unfold mat_get. apply frame_bind; [apply frame_mat_index|].
  intros r. apply frame_vec_get.
Qed.

Lemma frame_mat_set nv nm H W m i j x :
  (nm <= m)%nat -> frame nv nm (mat_set H W m i j x).
Proof.
  intros Ha h a h' Hv Hn. unfold mat_set, mat_index, assert, bind, ret.
  destruct (is_row H i); [|discriminate].
  now apply frame_vec_set.
Qed.

Lemma frame_vec_fill nv nm D r x :
  above nv nm r -> frame nv nm (vec_fill D r x).
Proof.
  intros Ha. unfold vec_fill. apply frame_for_each.
  intros j. now apply frame_vec_set.
Qed.

Lemma frame_mat_fill nv nm H W m x :
  (nm <= m)%nat -> frame nv nm (mat_fill H W m x).
Proof.
  intros Ha. unfold mat_fill. apply frame_for_each. intros i.
  apply frame_for_each. intros j. now apply frame_mat_set.
Qed.

Lemma frame_mat_assign nv nm this rhs :
  (nm <= this)%nat -> frame nv nm (mat_assign this rhs).
Proof.
  intros Ha. unfold mat_assign. apply frame_bind; [apply frame_load_mat|].
  intros a. now apply frame_store_mat.
Qed.

Lemma frame_vec_new {A} nv nm D d (body : vref -> M A) :
  (forall l, (nv <= l)%nat -> frame nv nm (body (VObj l))) ->
  frame nv nm (vec_new D d body).
Proof.
  intros Hb. unfold vec_new. apply frame_local_vec. intros l Hl.
  apply frame_bind; [now apply frame_vec_fill | auto].
Qed.

Lemma frame_vec_copy {A} nv nm init (body : vref -> M A) :
  (forall l, (nv <= l)%nat -> frame nv nm (body (VObj l))) ->
  frame nv nm (vec_copy init body).
Proof.
  intros Hb. unfold vec_copy. apply frame_bind; [apply frame_load|].
  intros v. now apply frame_local_vec.
Qed.

Lemma frame_mat_new {A} nv nm H W d (body : mref -> M A) :
  (forall l, (nm <= l)%nat -> frame nv nm (body l)) ->
  frame nv nm (mat_new H W d body).
Proof.
  intros Hb. unfold mat_new. apply frame_local_mat. intros l Hl.
  apply frame_bind; [now apply frame_mat_fill | auto].
Qed.

Lemma frame_mat_copy {A} nv nm init (body : mref -> M A) :
  (forall l, (nm <= l)%nat -> frame nv nm (body l)) ->
  frame nv nm (mat_copy init body).
Proof.
  intros Hb. unfold mat_copy. apply frame_bind; [apply frame_load_mat|].
  intros a. now apply frame_local_mat.
Qed.

(** One step of a frame proof, by the shape of the computation. *)
Ltac frame_step :=
  lazymatch goal with
  | |- frame _ _ (bind _ _) => apply frame_bind; [| intros ?]
  | |- frame _ _ (ret _) => apply frame_ret
  | |- frame _ _ undefined => apply frame_undefined
  | |- frame _ _ (assert _) => apply frame_assert
  | |- frame _ _ (static_assert _) => apply frame_static_assert
  | |- frame _ _ (if _ then _ else _) => apply frame_if
  | |- frame _ _ (match ?o with Some _ => _ | None => _ end) => destruct o
  | |- frame _ _ (vec_new _ _ _) => apply frame_vec_new; intros ? ?
  | |- frame _ _ (vec_copy _ _) => apply frame_vec_copy; intros ? ?
  | |- frame _ _ (mat_new _ _ _ _) => apply frame_mat_new; intros ? ?
  | |- frame _ _ (mat_copy _ _) => apply frame_mat_copy; intros ? ?
  | |- frame _ _ (for_each _ _ _) => apply frame_for_each; intros ?
  | |- frame _ _ (for_range _ _ _ _) => apply frame_for_range; intros ? ?
  | |- frame _ _ (for_return _ _ _) => apply frame_for_return; intros ?
  | |- frame _ _ (load _) => apply frame_load
  | |- frame _ _ (load_mat _) => apply frame_load_mat
  | |- frame _ _ (divide _ _) => apply frame_divide
  | |- frame _ _ (vec_dimension _ _) => apply frame_ret
  | |- frame _ _ (vec_get _ _ _) => apply frame_vec_get
  | |- frame _ _ (mat_get _ _ _ _ _) => apply frame_mat_get
  | |- frame _ _ (mat_index _ _ _) => apply frame_mat_index
  | |- frame _ _ (vec_set _ _ _ _) => apply frame_vec_set; simpl; assumption
  | |- frame _ _ (mat_set _ _ _ _ _ _) => apply frame_mat_set; assumption
  | |- frame _ _ (mat_assign _ _) => apply frame_mat_assign; assumption
  end.

Ltac frame_all := intros; cbv zeta; repeat frame_step.

Lemma frame_vec_eq nv nm D this rhs : frame nv nm (vec_eq D this rhs).
Proof. unfold vec_eq. frame_all. Qed.

Lemma frame_vec_ne nv nm D this rhs : frame nv nm (vec_ne D this rhs).
Proof. unfold vec_ne. frame_all. Qed.

Lemma frame_vec_add nv nm D this rhs : frame nv nm (vec_add D this rhs).
Proof. unfold vec_add. frame_all. Qed.

Lemma frame_vec_sub nv nm D this rhs : frame nv nm (vec_sub D this rhs).
Proof. unfold vec_sub. frame_all. Qed.

Lemma frame_vec_neg nv nm D this : frame nv nm (vec_neg D this).
Proof. unfold vec_neg. frame_all. Qed.

Lemma frame_vec_scale nv nm D this x : frame nv nm (vec_scale D this x).
Proof. unfold vec_scale. frame_all. Qed.

Lemma frame_vec_dot nv nm D this rhs : frame nv nm (vec_dot D this rhs).
Proof. unfold vec_dot. frame_all. Qed.

Lemma frame_vec_div nv nm D this x : frame nv nm (vec_div D this x).
Proof. unfold vec_div. frame_all. Qed.

Lemma frame_vec_almost_equal nv nm D this rhs delta :
  frame nv nm (vec_almost_equal D this rhs delta).
Proof. unfold vec_almost_equal. frame_all. Qed.

Lemma frame_vec_magnitude_squared nv nm D this :
  frame nv nm (vec_magnitude_squared D this).
Proof. unfold vec_magnitude_squared. frame_all. Qed.

Lemma frame_vec_magnitude nv nm D this : frame nv nm (vec_magnitude D this).
Proof. unfold vec_magnitude. frame_all. Qed.

Lemma frame_vec_normalize nv nm D this : frame nv nm (vec_normalize D this).
Proof. unfold vec_normalize. frame_all. Qed.

Lemma frame_vec_cross nv nm D this rhs : frame nv nm (vec_cross D this rhs).
Proof. unfold vec_cross. frame_all. Qed.

Lemma frame_vec_subvector nv nm D R this start :
  frame nv nm (vec_subvector D R this start).
Proof. unfold vec_subvector. frame_all. Qed.

Lemma frame_vec_shrink nv nm D R this : frame nv nm (vec_shrink D R this).
Proof. unfold vec_shrink. frame_all. Qed.

Lemma frame_vec_grow nv nm D R this d : frame nv nm (vec_grow D R this d).
Proof. unfold vec_grow. frame_all. Qed.

Lemma frame_mat_eq nv nm H W this rhs : frame nv nm (mat_eq H W this rhs).
Proof. unfold mat_eq. frame_all. Qed.

Lemma frame_mat_ne nv nm H W this rhs : frame nv nm (mat_ne H W this rhs).
Proof.
  unfold mat_ne. apply frame_bind; [apply frame_mat_eq|].
  intros b. apply frame_ret.
Qed.

Lemma frame_mat_add nv nm H W this rhs : frame nv nm (mat_add H W this rhs).
Proof. unfold mat_add. frame_all. Qed.

Lemma frame_mat_sub nv nm H W this rhs : frame nv nm (mat_sub H W this rhs).
Proof. unfold mat_sub. frame_all. Qed.

Lemma frame_mat_neg nv nm H W this : frame nv nm (mat_neg H W this).
Proof. unfold mat_neg. frame_all. Qed.

Lemma frame_mat_div nv nm H W this x : frame nv nm (mat_div H W this x).
Proof. unfold mat_div. frame_all. Qed.

Lemma frame_mat_scale nv nm H W this x : frame nv nm (mat_scale H W this x).
Proof. unfold mat_scale. frame_all. Qed.

Lemma frame_mat_mul nv nm H W RW this rhs :
  frame nv nm (mat_mul H W RW this rhs).
Proof. unfold mat_mul. frame_all. Qed.

Lemma frame_mat_submatrix nv nm H W RH RW this top left :
  frame nv nm (mat_submatrix H W RH RW this top left).
Proof. unfold mat_submatrix. frame_all. Qed.

Lemma frame_mat_shrink nv nm H W RH RW this :
  frame nv nm (mat_shrink H W RH RW this).
Proof. unfold mat_shrink. frame_all. Qed.

Lemma frame_mat_grow nv nm H W RH RW this d :
  frame nv nm (mat_grow H W RH RW this d).
Proof. unfold mat_grow. frame_all. Qed.

Lemma frame_mat_almost_equal nv nm H W this rhs delta :
  frame nv nm (mat_almost_equal H W this rhs delta).
Proof.
  unfold mat_almost_equal. apply frame_bind.
  - apply frame_for_return. intros i.
    apply frame_bind; [apply frame_mat_index|]. intros r.
    apply frame_bind; [apply frame_vec_almost_equal|]. intros b.
    apply frame_if; apply frame_ret.
  - intros [b|]; apply frame_ret.
Qed.

Lemma frame_mat_column_matrix nv nm H W this c :
  frame nv nm (mat_column_matrix H W this c).
Proof. unfold mat_column_matrix. frame_all. Qed.

Lemma frame_mat_column_vector nv nm H W this c :
  frame nv nm (mat_column_vector H W this c).
Proof. unfold mat_column_vector. frame_all. Qed.

Lemma frame_mat_identity nv nm H W : frame nv nm (mat_identity H W).
Proof. unfold mat_identity. frame_all. Qed.

Lemma frame_mat_row_matrix nv nm H W this r :
  frame nv nm (mat_row_matrix H W this r).
Proof. unfold mat_row_matrix. frame_all. Qed.

Lemma frame_mat_row_vector nv nm H W this r :
  frame nv nm (mat_row_vector H W this r).
Proof. unfold mat_row_vector. frame_all. Qed.

Lemma frame_mat_transpose nv nm H W this :
  frame nv nm (mat_transpose H W this).
Proof. unfold mat_transpose. frame_all. Qed.

Lemma frame_mat_determinant nv nm H W this :
  frame nv nm (mat_determinant H W this).
Proof. unfold mat_determinant. frame_all. Qed.

Lemma frame_mat_solve nv nm H W this b : frame nv nm (mat_solve H W this b).
Proof.
  unfold mat_solve.
  do 2 (apply frame_bind; [apply frame_static_assert | intros _]).
  repeat apply frame_if; [| | apply frame_undefined].
  - apply frame_bind; [apply frame_mat_determinant | intros det].
    apply frame_vec_new. intros cramsol Hs.
    apply frame_mat_copy. intros cramer Hc.
    repeat first [ apply frame_mat_determinant | frame_step ].
  - apply frame_bind; [apply frame_mat_determinant | intros det].
    apply frame_vec_new. intros cramsol Hs.
    apply frame_mat_copy. intros cramer Hc.
    repeat first [ apply frame_mat_determinant | frame_step ].
Qed.

(** ** Dot product and squared magnitude *)

Definition sum_of_squares (v : vec) : T :=
  fold_left (fun acc x => sadd acc (smul x x)) v s0.

Lemma to_nat_succ i : 0 <= i -> Z.to_nat (i + 1) = S (Z.to_nat i).
Proof. intros. lia. Qed.

Lemma square_loop h D this rhs v :
  lookup_vec this h = Some v -> lookup_vec rhs h = Some v ->
  Z.of_nat (length v) = D ->
  forall n i acc, 0 <= i -> i + Z.of_nat n = D ->
    for_loop n i (fun i dot =>
                    let* a := vec_get D this i in
                    let* b := vec_get D rhs i in
                    ret (sadd dot (smul a b))) acc h
    = Ret (fold_left (fun acc x => sadd acc (smul x x))
                     (drop (Z.to_nat i) v) acc, h).
Proof.
  intros Ht Hr HD. induction n as [|n IH]; intros i acc Hi Hn.
  - rewrite drop_ge by lia. reflexivity.
  - destruct (lookup_lt_is_Some_2 v (Z.to_nat i)) as [x Hx]; [lia|].
    rewrite (drop_S _ _ _ Hx). simpl.
    eapply bind_eval.
    + eapply bind_eval; [eapply vec_get_eval; eauto; apply is_index_true; lia|].
      eapply bind_eval; [eapply vec_get_eval; eauto; apply is_index_true; lia|].
      reflexivity.
    + rewrite IH by lia. now rewrite to_nat_succ.
Qed.

Lemma dot_self h D this rhs v :
  lookup_vec this h = Some v -> lookup_vec rhs h = Some v ->
  Z.of_nat (length v) = D ->
  vec_dot D this rhs h = Ret (sum_of_squares v, h).
Proof.
  intros Ht Hr HD. unfold vec_dot, for_range.
  erewrite square_loop; eauto; lia.
Qed.

Lemma magnitude_squared_sum h D this v :
  lookup_vec this h = Some v -> Z.of_nat (length v) = D ->
  vec_magnitude_squared D this h = Ret (sum_of_squares v, h).
Proof.
  intros Ht HD. unfold vec_magnitude_squared, for_range.
  erewrite square_loop; eauto; lia.
Qed.

(** ** almost_equal *)

(** [|x - y| <= delta], as the specification has it. *)
Definition close (delta : double) (x y : T) : Prop :=
  (Qabs (to_double x - to_double y) <= delta)%Q.

Definition all_close (delta : double) (u v : vec) : Prop :=
  forall i x y, u !! i = Some x -> v !! i = Some y -> close delta x y.

Definition all_close_mat (delta : double) (a b : mat) : Prop :=
  forall i u v, a !! i = Some u -> b !! i = Some v -> all_close delta u v.

Definition all_within (delta : double) (u v : vec) : bool :=
  forallb (fun p => within p.1 p.2 delta) (zip u v).

(** What the code tests: the left element lies between the two bounds as
    they are computed. *)
Definition inside (delta : double) (x y : T) : Prop :=
  (round64 (to_double y - delta) <= to_double x)%Q /\
  (to_double x <= round64 (to_double y + delta))%Q.

Definition all_inside (delta : double) (u v : vec) : Prop :=
  forall i x y, u !! i = Some x -> v !! i = Some y -> inside delta x y.

Definition all_inside_mat (delta : double) (a b : mat) : Prop :=
  forall i u v, a !! i = Some u -> b !! i = Some v -> all_inside delta u v.

Lemma within_inside delta x y : within x y delta = true <-> inside delta x y.
Proof.
  unfold within, inside. rewrite andb_true_iff, !Qle_bool_iff. tauto.
Qed.

(** The element converts to [double] as it is. *)
Definition representable (x : T) : Prop :=
  (round64 (to_double x) == to_double x)%Q.

(** Within the margin is inside the computed bounds: rounding is monotone
    and leaves the left element, a double, as it is. *)
Lemma close_inside delta x y :
  representable x -> close delta x y -> inside delta x y.
Proof.
  unfold representable, close, inside. intros Hx Hc.
  apply Qabs_Qle_condition in Hc.
  split; rewrite <- Hx; apply round64_mono; lra.
Qed.

Lemma all_close_inside delta u v :
  Forall representable u -> all_close delta u v -> all_inside delta u v.
Proof.
  intros Hu Hc i x y Hx Hy. apply close_inside; [|now apply (Hc i)].
  exact (Forall_lookup_1 _ _ _ _ Hu Hx).
Qed.

(** A double between the computed bound and the left element keeps it
    outside. *)
Lemma outside_by_a_double delta x y (d : double) :
  (round64 d == d)%Q ->
  (to_double y + delta <= d /\ d < to_double x
   \/ to_double x < d /\ d <= to_double y - delta)%Q ->
  ~ inside delta x y.
Proof.
  unfold inside. intros Hd Hout [Hlow Hhigh].
  destruct Hout as [[H1 H2]|[H1 H2]].
  - pose proof (round64_mono _ _ H1) as Hm. rewrite Hd in Hm. lra.
  - pose proof (round64_mono _ _ H2) as Hm. rewrite Hd in Hm. lra.
Qed.

Lemma all_within_inside delta u v :
  length u = length v -> all_within delta u v = true <-> all_inside delta u v.
Proof.
  unfold all_within, all_inside. revert v.
  induction u as [|x u IH]; intros [|y v] Hl; try discriminate; simpl.
  - split; [intros _ i x y Hx; discriminate | reflexivity].
  - rewrite andb_true_iff, within_inside, IH by (simpl in Hl; lia). split.
    + intros [Hxy Hall] [|i] a b; simpl; [intros [= <-] [= <-]; exact Hxy|].
      apply Hall.
    + intros Hall. split; [apply (Hall O); reflexivity|].
      intros i a b. apply (Hall (S i)).
Qed.

Lemma almost_equal_loop h D this rhs u v delta :
  lookup_vec this h = Some u -> lookup_vec rhs h = Some v ->
  Z.of_nat (length u) = D -> Z.of_nat (length v) = D ->
  forall n i, 0 <= i -> i + Z.of_nat n = D ->
    for_return_loop n i (fun i =>
        let* a := vec_get D this i in
        let* b := vec_get D rhs i in
        if negb (within a b delta) then ret (Some false) else ret None) h
    = Ret (if all_within delta (drop (Z.to_nat i) u) (drop (Z.to_nat i) v)
           then None else Some false, h).
Proof.
  intros Ht Hr Hu Hv. induction n as [|n IH]; intros i Hi Hn.
  - rewrite !drop_ge by lia. reflexivity.
  - destruct (lookup_lt_is_Some_2 u (Z.to_nat i)) as [x Hx]; [lia|].
    destruct (lookup_lt_is_Some_2 v (Z.to_nat i)) as [y Hy]; [lia|].
    rewrite (drop_S _ _ _ Hx), (drop_S _ _ _ Hy).
    unfold all_within. simpl.
    eapply bind_eval.
    + eapply bind_eval; [eapply vec_get_eval; eauto; apply is_index_true; lia|].
      eapply bind_eval; [eapply vec_get_eval; eauto; apply is_index_true; lia|].
      instantiate (1 := h).
      instantiate (1 := if within x y delta then None else Some false).
      now destruct (within x y delta).
    + destruct (within x y delta); simpl; [|reflexivity].
      rewrite IH by lia. now rewrite to_nat_succ.
Qed.

Lemma vec_almost_equal_within h D this rhs u v delta :
  lookup_vec this h = Some u -> lookup_vec rhs h = Some v ->
  Z.of_nat (length u) = D -> Z.of_nat (length v) = D ->
  vec_almost_equal D this rhs delta h = Ret (all_within delta u v, h).
Proof.
  intros Ht Hr Hu Hv. unfold vec_almost_equal, vec_dimension.
  eapply bind_eval; [reflexivity|]. unfold for_return.
  eapply bind_eval; [eapply almost_equal_loop; eauto; lia|].
  change (Z.to_nat 0) with O. rewrite !drop_0.
  now destruct (all_within delta u v).
Qed.

(** A matrix of the declared shape. *)
Definition shaped (H W : Z) (a : mat) : Prop :=
  Z.of_nat (length a) = H /\ forall i row, a !! i = Some row -> Z.of_nat (length row) = W.

Definition all_within_mat (delta : double) (a b : mat) : bool :=
  forallb (fun p => all_within delta p.1 p.2) (zip a b).

Lemma mat_almost_equal_loop h H W this rhs a b delta :
  mats h !! this = Some a -> mats h !! rhs = Some b ->
  shaped H W a -> shaped H W b ->
  forall n i, 0 <= i -> i + Z.of_nat n = H ->
    for_return_loop n i (fun i =>
        let* rhs_row := mat_index H rhs i in
        let* eq := vec_almost_equal W (VRow this (Z.to_nat i)) rhs_row delta in
        if negb eq then ret (Some false) else ret None) h
    = Ret (if all_within_mat delta (drop (Z.to_nat i) a) (drop (Z.to_nat i) b)
           then None else Some false, h).
Proof.
  intros Ht Hr [Ha Hra] [Hb Hrb]. induction n as [|n IH]; intros i Hi Hn.
  - rewrite !drop_ge by lia. reflexivity.
  - destruct (lookup_lt_is_Some_2 a (Z.to_nat i)) as [u Hu]; [lia|].
    destruct (lookup_lt_is_Some_2 b (Z.to_nat i)) as [v Hv]; [lia|].
    rewrite (drop_S _ _ _ Hu), (drop_S _ _ _ Hv).
    unfold all_within_mat. simpl.
    eapply bind_eval.
    + eapply bind_eval; [apply mat_index_eval; apply is_row_true; lia|].
      eapply bind_eval;
        [eapply vec_almost_equal_within; eauto using lookup_row|].
      instantiate (1 := h).
      instantiate (1 := if all_within delta u v then None else Some false).
      now destruct (all_within delta u v).
    + destruct (all_within delta u v); simpl; [|reflexivity].
      rewrite IH by lia. now rewrite to_nat_succ.
Qed.

Lemma mat_almost_equal_within h H W this rhs a b delta :
  mats h !! this = Some a -> mats h !! rhs = Some b ->
  shaped H W a -> shaped H W b ->
  mat_almost_equal H W this rhs delta h = Ret (all_within_mat delta a b, h).
Proof.
  intros Ht Hr Ha Hb. unfold mat_almost_equal, for_return.
  eapply bind_eval.
  - eapply mat_almost_equal_loop; eauto; destruct Ha; lia.
  - change (Z.to_nat 0) with O. rewrite !drop_0.
    now destruct (all_within_mat delta a b).
Qed.

Lemma all_within_mat_inside delta H W a b :
  shaped H W a -> shaped H W b ->
  all_within_mat delta a b = true <-> all_inside_mat delta a b.
Proof.
  intros [Ha Hra] [Hb Hrb]. unfold all_within_mat, all_inside_mat.
  assert (Hl : length a = length b) by lia. clear Ha Hb.
  revert b Hl Hrb. induction a as [|u a IH]; intros [|v b] Hl Hrb;
    try discriminate; simpl.
  - split; [intros _ i u v Hu; discriminate | reflexivity].
  - assert (Huv : length u = length v).
    { specialize (Hra O u eq_refl). specialize (Hrb O v eq_refl). lia. }
    rewrite andb_true_iff, all_within_inside, IH; simpl in *;
      [| intros i r; apply (Hra (S i)) | lia | intros i r; apply (Hrb (S i))
       | exact Huv].
    split.
    + intros [Hxy Hall] [|i] p q; simpl; [intros [= <-] [= <-]; exact Hxy|].
      apply Hall.
    + intros Hall. split; [apply (Hall O); reflexivity|].
      intros i p q. apply (Hall (S i)).
Qed.

(** ** cross, continued: anti-commutativity *)

(** The cross product of the specification. *)
Definition cross_spec (a b : vec) : vec :=
  match a, b with
  | [a0; a1; a2], [b0; b1; b2] =>
      [ssub (smul a1 b2) (smul a2 b1);
       ssub (smul a2 b0) (smul a0 b2);
       ssub (smul a0 b1) (smul a1 b0)]
  | _, _ => []
  end.

(** The expression [a.cross(b) == -(b.cross(a))], its temporaries as
    locals. *)
Definition cross_anticommutes (a b : vref) : M bool :=
  let* ab := vec_cross 3 a b in
  local_vec ab (fun lhs =>
    let* ba := vec_cross 3 b a in
    local_vec ba (fun t =>
      let* nba := vec_neg 3 t in
      local_vec nba (fun rhs => vec_eq 3 lhs rhs))).

Lemma cross_from_3 h D this rhs a0 a1 a2 ta b0 b1 b2 tb :
  3 <= D ->
  lookup_vec this h = Some (a0 :: a1 :: a2 :: ta) ->
  lookup_vec rhs h = Some (b0 :: b1 :: b2 :: tb) ->
  vec_cross D this rhs h =
    Ret (ssub (smul a1 b2) (smul a2 b1)
         :: ssub s0 (ssub (smul a0 b2) (smul a2 b0))
         :: ssub (smul a0 b1) (smul a1 b0)
         :: ta, h).
Proof.
  intros HD Ha Hb. rewrite <- (ext_nil h).
  unfold vec_cross, vec_copy. etransitivity; [eval_comp | reflexivity].
Qed.

Lemma neg_3 h this x y z :
  lookup_vec this h = Some [x; y; z] ->
  vec_neg 3 this h = Ret ([ssub s0 x; ssub s0 y; ssub s0 z], h).
Proof.
  intros Ha. rewrite <- (ext_nil h).
  unfold vec_neg, vec_copy. etransitivity; [eval_comp | reflexivity].
Qed.

Section Cross.

Context {SL : ScalarLaws T}.

Lemma cross_3_spec h this rhs a b :
  lookup_vec this h = Some a -> lookup_vec rhs h = Some b ->
  length a = 3%nat -> length b = 3%nat ->
  vec_cross 3 this rhs h = Ret (cross_spec a b, h).
Proof.
  intros Ha Hb La Lb.
  destruct a as [|a0 [|a1 [|a2 [|]]]]; try discriminate.
  destruct b as [|b0 [|b1 [|b2 [|]]]]; try discriminate.
  rewrite (cross_3 _ _ _ _ _ _ _ _ _ Ha Hb). simpl.
  now rewrite ssub_opp.
Qed.

Lemma eq_loop_same h D this rhs v :
  lookup_vec this h = Some v -> lookup_vec rhs h = Some v ->
  Z.of_nat (length v) = D ->
  forall n i, 0 <= i -> i + Z.of_nat n = D ->
    for_return_loop n i (fun i =>
        let* a := vec_get D rhs i in
        let* b := vec_get D this i in
        if sneq a b then ret (Some false) else ret None) h
    = Ret (None, h).
Proof.
  intros Ht Hr HD. induction n as [|n IH]; intros i Hi Hn; [reflexivity|].
  destruct (lookup_lt_is_Some_2 v (Z.to_nat i)) as [x Hx]; [lia|].
  simpl. eapply bind_eval.
  - eapply bind_eval; [eapply vec_get_eval; eauto; apply is_index_true; lia|].
    eapply bind_eval; [eapply vec_get_eval; eauto; apply is_index_true; lia|].
    unfold sneq. rewrite seqb_refl. reflexivity.
  - simpl. apply IH; lia.
Qed.

Lemma vec_eq_same h D this rhs v :
  lookup_vec this h = Some v -> lookup_vec rhs h = Some v ->
  Z.of_nat (length v) = D ->
  vec_eq D this rhs h = Ret (true, h).
Proof.
  intros Ht Hr HD. unfold vec_eq, vec_dimension.
  do 2 (eapply bind_eval; [reflexivity|]).
  rewrite Z.eqb_refl. simpl.
  eapply bind_eval; [eapply eq_loop_same; eauto; lia | reflexivity].
Qed.

Lemma neg_cross_spec a b :
  length a = 3%nat -> length b = 3%nat ->
  map (ssub s0) (cross_spec b a) = cross_spec a b.
Proof.
  intros La Lb.
  destruct a as [|a0 [|a1 [|a2 [|]]]]; try discriminate.
  destruct b as [|b0 [|b1 [|b2 [|]]]]; try discriminate.
  simpl. rewrite !ssub_opp.
  now rewrite (smul_comm a1 b2), (smul_comm a2 b1), (smul_comm a2 b0),
    (smul_comm a0 b2), (smul_comm a0 b1), (smul_comm a1 b0).
Qed.

Lemma cross_anticommutes_true h a b u v :
  lookup_vec a h = Some u -> lookup_vec b h = Some v ->
  length u = 3%nat -> length v = 3%nat ->
  cross_anticommutes a b h = Ret (true, h).
Proof.
  intros Ha Hb Lu Lv.
  destruct u as [|a0 [|a1 [|a2 [|]]]]; try discriminate.
  destruct v as [|b0 [|b1 [|b2 [|]]]]; try discriminate.
  pose proof (neg_cross_spec [a0; a1; a2] [b0; b1; b2] eq_refl eq_refl) as Hneg.
  simpl in Hneg.
  rewrite <- (ext_nil h). unfold cross_anticommutes.
  eapply bind_eval; [eapply cross_3_spec; eauto using lookup_vec_base|].
  simpl cross_spec. etransitivity.
  { eapply local_vec_ext.
    eapply bind_eval; [eapply cross_3_spec; eauto using lookup_vec_base|].
    simpl cross_spec. eapply local_vec_ext.
    eapply bind_eval; [eapply neg_3; rewrite lookup_vec_local; reflexivity|].
    eapply local_vec_ext. rewrite Hneg.
    eapply vec_eq_same; [rewrite lookup_vec_local; reflexivity .. | reflexivity]. }
  reflexivity.
Qed.

End Cross.

(** ** shrink and submatrix *)

Lemma bind_ext {A B} (m m' : M A) (k k' : A -> M B) h :
  m h = m' h -> (forall a h1, k a h1 = k' a h1) -> bind m k h = bind m' k' h.
Proof.
  intros Hm Hk. unfold bind. rewrite Hm.
  destruct (m' h) as [[a h1]| | |]; auto.
Qed.

Lemma for_loop_ext {S} (f g : Z -> S -> M S) :
  (forall i s h, f i s h = g i s h) ->
  forall n i s h, for_loop n i f s h = for_loop n i g s h.
Proof.
  intros Hfg. induction n as [|n IH]; intros i s h; [reflexivity|].
  simpl. apply bind_ext; auto.
Qed.

Lemma for_each_ext (f g : Z -> M unit) lo hi :
  (forall i h, f i h = g i h) ->
  forall h, for_each lo hi f h = for_each lo hi g h.
Proof.
  intros Hfg h. unfold for_each, for_range. apply for_loop_ext. auto.
Qed.

Lemma local_mat_ext_body {A} init (f g : nat -> M A) :
  (forall l h, f l h = g l h) ->
  forall h, local_mat init f h = local_mat init g h.
Proof. intros Hfg h. unfold local_mat. now rewrite Hfg. Qed.

Lemma shrink_submatrix_eq H W RH RW this h :
  0 < RH <= H -> 0 < RW <= W -> RW < W \/ RH < H ->
  mat_shrink H W RH RW this h = mat_submatrix H W RH RW this 0 0 h.
Proof.
  intros HH HW Hlt. unfold mat_shrink, mat_submatrix.
  replace ((0 <=? RH) && (0 <=? RW)) with true by lia.
  replace (RH <=? H) with true by lia.
  replace (RW <=? W) with true by lia.
  replace ((RW <? W) || (RH <? H)) with true by lia.
  replace (RH >? 0) with true by lia.
  replace (RW >? 0) with true by lia.
  unfold static_assert, bind at 1 2 3 4 5 6 7 8. unfold mat_new.
  apply local_mat_ext_body. intros sub h1.
  apply bind_ext; [reflexivity|]. intros _ h2.
  apply bind_ext; [|reflexivity].
  apply for_each_ext. intros i h3. apply for_each_ext. intros j h4.
  now rewrite !Z.add_0_r.
Qed.

(** ** solve against Cramer's rule, for any system of the two sizes *)

(** A square matrix of side [n]. *)
Definition square (n : nat) (A : mat) : Prop :=
  length A = n /\ Forall (fun row => length row = n) A.


Section SolveSpec.

Context {SL : ScalarLaws T}.

Lemma determinant_spec_2_or_3 h this n A :
  n = 2%nat \/ n = 3%nat -> square n A -> mats h !! this = Some A ->
  mat_determinant (Z.of_nat n) (Z.of_nat n) this h = Ret (det_spec A, h).
Proof.
  intros [-> | ->] [Hl Hr] HA.
  - destruct A as [|r0 [|r1 [|]]]; try discriminate.
    apply Forall_cons_1 in Hr as [L0 Hr]. apply Forall_cons_1 in Hr as [L1 _].
    destruct r0 as [|a00 [|a01 [|]]]; try discriminate.
    destruct r1 as [|a10 [|a11 [|]]]; try discriminate.
    now apply determinant_2x2.
  - destruct A as [|r0 [|r1 [|r2 [|]]]]; try discriminate.
    apply Forall_cons_1 in Hr as [L0 Hr]. apply Forall_cons_1 in Hr as [L1 Hr].
    apply Forall_cons_1 in Hr as [L2 _].
    destruct r0 as [|a00 [|a01 [|a02 [|]]]]; try discriminate.
    destruct r1 as [|a10 [|a11 [|a12 [|]]]]; try discriminate.
    destruct r2 as [|a20 [|a21 [|a22 [|]]]]; try discriminate.
    now apply determinant_3x3.
Qed.


End SolveSpec.

End Gfx.

(** ** Loops that write a local, for any dimension *)

Section Loops.

Context {T : Type} {ST : Scalar T}.

Lemma for_each_inv (I : Z -> @heap T -> Prop) lo hi (body : Z -> M unit) h :
  lo <= hi -> I lo h ->
  (forall i h1, lo <= i < hi -> I i h1 ->
                exists h2, body i h1 = Ret (tt, h2) /\ I (i + 1) h2) ->
  exists h', for_each lo hi body h = Ret (tt, h') /\ I hi h'.
Proof.
  intros Hle H0 Hstep. unfold for_each, for_range.
  assert (Hgen : forall n i h1, lo <= i -> i + Z.of_nat n = hi -> I i h1 ->
            exists h', for_loop n i (fun i (_ : unit) => body i) tt h1 = Ret (tt, h')
                       /\ I hi h').
  { induction n as [|n IH]; intros i h1 Hi Hn Hinv.
    - exists h1. split; [reflexivity|]. now replace hi with i by lia.
    - destruct (Hstep i h1) as (h2 & Hb & Hinv2); [lia | assumption |].
      destruct (IH (i + 1) h2) as (h' & Hl & Hinv'); [lia | lia | assumption |].
      exists h'. split; [|assumption].
      simpl. eapply bind_eval; [exact Hb | exact Hl]. }
  apply Hgen; [lia | lia | assumption].
Qed.

Lemma for_each_abort_at lo hi k (body : Z -> M unit) (h : @heap T) :
  lo <= k < hi ->
  (forall i, lo <= i < k -> body i h = Ret (tt, h)) ->
  body k h = Abort ->
  for_each lo hi body h = Abort.
Proof.
  intros Hk Hnop Hab. unfold for_each, for_range.
  assert (Hgen : forall n i, lo <= i <= k -> k < i + Z.of_nat n ->
            for_loop n i (fun i (_ : unit) => body i) tt h = Abort).
  { induction n as [|n IH]; intros i Hi Hn; [lia|].
    simpl. destruct (decide (i = k)) as [->|Hne].
    - now apply bind_abort.
    - eapply bind_eval; [apply Hnop; lia|]. apply IH; lia. }
  apply Hgen; lia.
Qed.

Lemma bind_ret_r {A} (m : M A) (h : @heap T) : bind m ret h = m h.
Proof. unfold bind, ret. destruct (m h) as [[a h']| | |]; reflexivity. Qed.

Lemma for_each_last c (F : Z -> M unit) (h : @heap T) :
  0 <= c ->
  for_each 0 (c + 1) (fun j => if j =? c then F j else ret tt) h = F c h.
Proof.
  intros Hc. unfold for_each, for_range.
  assert (Hgen : forall n i, 0 <= i -> i + Z.of_nat n = c + 1 -> (0 < n)%nat ->
            for_loop n i (fun j (_ : unit) => if j =? c then F j else ret tt) tt h
            = F c h).
  { induction n as [|n IH]; intros i Hi Hn Hpos; [lia|].
    simpl. destruct (Z.eqb_spec i c) as [->|Hne].
    - assert (n = O) by lia. subst n. simpl. apply bind_ret_r.
    - eapply bind_eval; [reflexivity|]. apply IH; lia. }
  apply Hgen; lia.
Qed.


(** Entry [i][j] of a matrix value. *)
Definition entry (a : list (list T)) (i j : nat) : option T :=
  match a !! i with
  | Some row => row !! j
  | None => None
  end.

Lemma shaped_row H W (a : list (list T)) i :
  shaped H W a -> 0 <= i < H ->
  exists row, a !! Z.to_nat i = Some row /\ Z.of_nat (length row) = W.
Proof.
  intros [Hl Hr] Hi.
  destruct (lookup_lt_is_Some_2 a (Z.to_nat i)) as [row Hrow]; [lia|].
  exists row. split; [assumption | now apply (Hr (Z.to_nat i))].
Qed.

Lemma shaped_insert H W (a : list (list T)) i row row' :
  shaped H W a -> a !! i = Some row -> length row' = length row ->
  shaped H W (<[i := row']> a).
Proof.
  intros [Hl Hr] Hrow Hlen. split; [now rewrite length_insert|].
  intros k r. destruct (decide (k = i)) as [->|Hne].
  - rewrite list_lookup_insert_eq by (eapply lookup_lt_Some; eauto).
    intros [= <-]. rewrite Hlen. eauto.
  - rewrite list_lookup_insert_ne by congruence. apply Hr.
Qed.

Lemma entry_insert (a : list (list T)) ni nj row x i j :
  a !! ni = Some row -> (nj < length row)%nat ->
  entry (<[ni := <[nj := x]> row]> a) i j
  = if decide (i = ni /\ j = nj) then Some x else entry a i j.
Proof.
  intros Hrow Hlt. unfold entry. destruct (decide (i = ni)) as [->|Hne].
  - rewrite list_lookup_insert_eq by (eapply lookup_lt_Some; eauto).
    rewrite Hrow. destruct (decide (j = nj)) as [->|Hnj].
    + rewrite list_lookup_insert_eq by assumption.
      now rewrite decide_True by auto.
    + rewrite list_lookup_insert_ne by congruence.
      now rewrite decide_False by tauto.
  - rewrite list_lookup_insert_ne by congruence.
    now rewrite decide_False by tauto.
Qed.

(** The local matrix [m] while two nested loops write [g i j] at [i][j],
    row by row: rows before [ri] are written, and row [ri] up to [cj]. *)
Definition written (g : Z -> Z -> T) (RH RW ri cj : Z) (m : list (list T)) : Prop :=
  shaped RH RW m /\
  forall i j, 0 <= i -> 0 <= j < RW -> i < ri \/ (i = ri /\ j < cj) ->
              entry m (Z.to_nat i) (Z.to_nat j) = Some (g i j).

Lemma mat_write_loops h RH RW (g : Z -> Z -> T) (body : Z -> Z -> M unit) m0 :
  shaped RH RW m0 -> 0 <= RW ->
  (forall i j m row,
      0 <= i < RH -> 0 <= j < RW -> shaped RH RW m ->
      m !! Z.to_nat i = Some row ->
      body i j (ext h [] [m])
      = Ret (tt, ext h [] [<[Z.to_nat i := <[Z.to_nat j := g i j]> row]> m])) ->
  exists m',
    for_each 0 RH (fun i => for_each 0 RW (fun j => body i j)) (ext h [] [m0])
    = Ret (tt, ext h [] [m']) /\
    shaped RH RW m' /\
    forall i j, 0 <= i < RH -> 0 <= j < RW ->
                entry m' (Z.to_nat i) (Z.to_nat j) = Some (g i j).
Proof.
  intros Hs HW Hbody.
  assert (HH : 0 <= RH) by (destruct Hs; lia).
  destruct (for_each_inv
              (fun i h1 => exists m, h1 = ext h [] [m] /\ written g RH RW i 0 m)
              0 RH (fun i => for_each 0 RW (fun j => body i j)) (ext h [] [m0]))
    as (h' & Hrun & m' & -> & Hw' & Hall); [assumption | | |].
  - exists m0. split; [reflexivity|]. split; [assumption|]. intros; lia.
  - intros i h1 Hi (m & -> & Hw).
    destruct (for_each_inv
                (fun j h1 => exists m, h1 = ext h [] [m] /\ written g RH RW i j m)
                0 RW (fun j => body i j) (ext h [] [m]))
      as (h2 & Hrun & m2 & -> & Hw2 & Hall2); [assumption | | |].
    + exists m. split; [reflexivity | exact Hw].
    + intros j h2 Hj (m1 & -> & Hs1 & Hall1).
      destruct (shaped_row RH RW m1 i Hs1 Hi) as (row & Hrow & Hlen).
      eexists. split; [now apply Hbody with (row := row)|].
      eexists. split; [reflexivity|]. split.
      * eapply shaped_insert; eauto. now rewrite length_insert.
      * intros i' j' Hi' Hj' Hlt.
        rewrite entry_insert by (assumption || lia).
        destruct (decide _) as [[E1 E2]|Hne].
        -- replace i' with i by lia. now replace j' with j by lia.
        -- apply Hall1; [assumption | assumption |].
           destruct Hlt as [Hlt | [-> Hlt]]; [now left | right].
           split; [reflexivity|].
           assert (j' <> j) by (intros ->; tauto). lia.
    + eexists. split; [exact Hrun|]. exists m2. split; [reflexivity|].
      split; [assumption|]. intros i' j' Hi' Hj' Hlt.
      apply Hall2; [assumption | assumption |]. lia.
  - exists m'. split; [exact Hrun|]. split; [assumption|].
    intros i j Hi Hj. apply Hall; lia.
Qed.

Lemma vec_write_loop h D (g : Z -> T) (body : Z -> M unit) (v0 : list T) :
  Z.of_nat (length v0) = D ->
  (forall i v, 0 <= i < D -> Z.of_nat (length v) = D ->
      body i (ext h [v] []) = Ret (tt, ext h [<[Z.to_nat i := g i]> v] [])) ->
  exists v',
    for_each 0 D body (ext h [v0] []) = Ret (tt, ext h [v'] []) /\
    Z.of_nat (length v') = D /\
    forall i, 0 <= i < D -> v' !! Z.to_nat i = Some (g i).
Proof.
  intros Hl Hbody.
  destruct (for_each_inv
              (fun i h1 => exists v, h1 = ext h [v] [] /\ Z.of_nat (length v) = D /\
                                     forall k, 0 <= k < i -> v !! Z.to_nat k = Some (g k))
              0 D body (ext h [v0] []))
    as (h' & Hrun & v' & -> & Hl' & Hall); [lia | | |].
  - exists v0. split; [reflexivity|]. split; [assumption|]. intros; lia.
  - intros i h1 Hi (v & -> & Hlv & Hall).
    eexists. split; [now apply Hbody|].
    eexists. split; [reflexivity|]. split; [now rewrite length_insert|].
    intros k Hk. destruct (decide (k = i)) as [->|Hne].
    + rewrite list_lookup_insert_eq by lia. reflexivity.
    + rewrite list_lookup_insert_ne by lia. apply Hall. lia.
  - exists v'. split; [exact Hrun|]. split; [assumption|]. exact Hall.
Qed.


Lemma shaped_replicate H W (x : T) :
  0 <= H -> 0 <= W ->
  shaped H W (replicate (Z.to_nat H) (replicate (Z.to_nat W) x)).
Proof.
  intros HH HW. split; [rewrite length_replicate; lia|].
  intros i row Hrow. apply lookup_replicate in Hrow as [-> _].
  rewrite length_replicate. lia.
Qed.

Lemma shaped_entry H W (a : list (list T)) i j :
  shaped H W a -> 0 <= i < H -> 0 <= j < W ->
  exists row x, a !! Z.to_nat i = Some row /\ row !! Z.to_nat j = Some x /\
                entry a (Z.to_nat i) (Z.to_nat j) = Some x.
Proof.
  intros Hs Hi Hj. destruct (shaped_row H W a i Hs Hi) as (row & Hrow & Hlen).
  destruct (lookup_lt_is_Some_2 row (Z.to_nat j)) as [x Hx]; [lia|].
  exists row, x. repeat split; try assumption. unfold entry. now rewrite Hrow.
Qed.

(** [m[i][j] = x] on the one local matrix of the running function. *)
Lemma mat_set_sole H W i j x h (m : list (list T)) row :
  shaped H W m -> 0 <= i < H -> 0 <= j < W ->
  m !! Z.to_nat i = Some row ->
  mat_set H W (length (mats h) + 0)%nat i j x (ext h [] [m])
  = Ret (tt, ext h [] [<[Z.to_nat i := <[Z.to_nat j := x]> row]> m]).
Proof.
  intros [Hl Hr] Hi Hj Hrow.
  destruct (lookup_lt_is_Some_2 row (Z.to_nat j)) as [y Hy].
  { specialize (Hr _ _ Hrow). lia. }
  erewrite mat_set_local; [reflexivity | | | reflexivity | exact Hrow | exact Hy].
  - apply is_row_true. lia.
  - apply is_index_true. lia.
Qed.

Lemma vec_set_sole D i x h (v : list T) :
  Z.of_nat (length v) = D -> 0 <= i < D ->
  vec_set D (VObj (length (vecs h) + 0)) i x (ext h [v] [])
  = Ret (tt, ext h [<[Z.to_nat i := x]> v] []).
Proof.
  intros Hl Hi.
  destruct (lookup_lt_is_Some_2 v (Z.to_nat i)) as [y Hy]; [lia|].
  erewrite vec_set_local; [reflexivity | | reflexivity | exact Hy].
  apply is_index_true. lia.
Qed.

Lemma mat_fill_sole H W value h (m0 : list (list T)) :
  shaped H W m0 -> 0 <= W ->
  exists m',
    mat_fill H W (length (mats h) + 0)%nat value (ext h [] [m0])
    = Ret (tt, ext h [] [m']) /\ shaped H W m'.
Proof.
  intros Hs HW.
  destruct (mat_write_loops h H W (fun _ _ => value)
              (fun i j => mat_set H W (length (mats h) + 0)%nat i j value) m0)
    as (m' & Hrun & Hs' & _); [assumption | assumption | |].
  - intros i j m row Hi Hj Hm Hrow. now apply mat_set_sole.
  - exists m'. split; assumption.
Qed.

Lemma vec_fill_sole D value h (v0 : list T) :
  Z.of_nat (length v0) = D ->
  vec_fill D (VObj (length (vecs h) + 0)) value (ext h [v0] [])
  = Ret (tt, ext h [replicate (Z.to_nat D) value] []).
Proof.
  intros Hl.
  destruct (vec_write_loop h D (fun _ => value)
              (fun i => vec_set D (VObj (length (vecs h) + 0)) i value) v0)
    as (v' & Hrun & Hl' & Hall); [assumption | |].
  - intros i v Hi Hv. now apply vec_set_sole.
  - unfold vec_fill. rewrite Hrun.
    assert (v' = replicate (Z.to_nat D) value) as ->; [|reflexivity].
    apply list_eq. intros k. destruct (decide (k < Z.to_nat D)%nat) as [Hk|Hk].
    + rewrite lookup_replicate_2 by assumption.
      specialize (Hall (Z.of_nat k)). rewrite Nat2Z.id in Hall. apply Hall. lia.
    + rewrite (lookup_ge_None_2 v') by lia.
      symmetry. apply lookup_replicate_None. lia.
Qed.

Lemma vec_new_sole {A} D value (body : vref -> M A) h a v2 :
  0 <= D ->
  body (VObj (length (vecs h) + 0)) (ext h [replicate (Z.to_nat D) value] [])
    = Ret (a, ext h [v2] []) ->
  vec_new D value body (ext h [] []) = Ret (a, ext h [] []).
Proof.
  intros HD Hbody. unfold vec_new. etransitivity.
  { eapply local_vec_ext. eapply bind_eval; [|exact Hbody].
    apply vec_fill_sole. rewrite length_replicate. lia. }
  reflexivity.
Qed.


(** ** submatrix, column and row extraction on a matrix of the declared shape *)

(** The scalar at [i][j], 0 where there is none. *)
Definition entry_or_0 (a : list (list T)) (i j : Z) : T :=
  default s0 (entry a (Z.to_nat i) (Z.to_nat j)).

Lemma mat_get_entry H W this i j (a : list (list T)) h lv lm :
  mats h !! this = Some a -> shaped H W a -> 0 <= i < H -> 0 <= j < W ->
  mat_get H W this i j (ext h lv lm) = Ret (entry_or_0 a i j, ext h lv lm) /\
  entry a (Z.to_nat i) (Z.to_nat j) = Some (entry_or_0 a i j).
Proof.
  intros Ha Hs Hi Hj.
  destruct (shaped_entry H W a i j Hs Hi Hj) as (row & x & Hrow & Hx & He).
  unfold entry_or_0. rewrite He. simpl. split; [|reflexivity].
  eapply mat_get_base; eauto; [apply is_row_true | apply is_index_true]; lia.
Qed.

Lemma submatrix_returns H W RH RW this top left (a : list (list T)) h :
  mats h !! this = Some a -> shaped H W a ->
  0 < RH -> 0 < RW ->
  0 <= top -> top + RH <= H -> 0 <= left -> left + RW <= W ->
  exists r,
    mat_submatrix H W RH RW this top left h = Ret (r, h) /\
    shaped RH RW r /\
    forall i j, 0 <= i < RH -> 0 <= j < RW ->
                entry r (Z.to_nat i) (Z.to_nat j)
                = entry a (Z.to_nat (i + top)) (Z.to_nat (j + left)).
Proof.
  intros Ha Hs HRH HRW Ht Hth Hl Hlw.
  pose (g := fun i j => entry_or_0 a (i + top) (j + left)).
  assert (Hloops : forall m1, shaped RH RW m1 ->
            exists m2,
              for_each 0 RH (fun i => for_each 0 RW (fun j =>
                  let* x := mat_get H W this (i + top) (j + left) in
                  mat_set RH RW (length (mats h) + 0)%nat i j x))
                (ext h [] [m1]) = Ret (tt, ext h [] [m2]) /\
              shaped RH RW m2 /\
              forall i j, 0 <= i < RH -> 0 <= j < RW ->
                          entry m2 (Z.to_nat i) (Z.to_nat j) = Some (g i j)).
  { intros m1 Hs1. apply mat_write_loops; [assumption | lia |].
    intros i j m row Hi Hj Hm Hrow.
    eapply bind_eval.
    - apply (mat_get_entry H W this (i + top) (j + left) a); auto; lia.
    - now apply mat_set_sole. }
  destruct (Hloops (replicate (Z.to_nat RH) (replicate (Z.to_nat RW) s0)))
    as (r & _ & Hsr & Hr); [apply shaped_replicate; lia|].
  assert (Hex : exists r,
    mat_submatrix H W RH RW this top left (ext h [] []) = Ret (r, ext h [] []) /\
    shaped RH RW r /\
    forall i j, 0 <= i < RH -> 0 <= j < RW ->
                entry r (Z.to_nat i) (Z.to_nat j) = Some (g i j)).
  { unfold mat_submatrix.
    replace (RH >? 0) with true by lia. replace (RW >? 0) with true by lia.
    replace (RH <=? H) with true by lia. replace (RW <=? W) with true by lia.
    unfold mat_new.
    destruct (mat_fill_sole RH RW s0 h
                (replicate (Z.to_nat RH) (replicate (Z.to_nat RW) s0)))
      as (m1 & Hfill & Hs1); [apply shaped_replicate; lia | lia |].
    destruct (Hloops m1 Hs1) as (m2 & Hrun & Hs2 & Hm2).
    exists m2. split; [|split; assumption].
    do 4 (eapply bind_eval; [reflexivity|]).
    etransitivity.
    { eapply local_mat_ext. eapply bind_eval; [exact Hfill|].
      eapply bind_eval; [exact Hrun|]. now apply load_mat_local. }
    reflexivity. }
  rewrite ext_nil in Hex. destruct Hex as (r' & Hrun & Hsr' & Hr').
  exists r'. split; [assumption|]. split; [assumption|].
  intros i j Hi Hj. rewrite (Hr' i j Hi Hj). unfold g.
  symmetry. apply (mat_get_entry H W this (i + top) (j + left) a h [] []);
    auto; lia.
Qed.

Lemma column_vector_returns H W this c (a : list (list T)) h :
  mats h !! this = Some a -> shaped H W a -> 0 <= c < W ->
  exists r,
    mat_column_vector H W this c h = Ret (r, h) /\
    Z.of_nat (length r) = H /\
    forall i, 0 <= i < H -> r !! Z.to_nat i = entry a (Z.to_nat i) (Z.to_nat c).
Proof.
  intros Ha Hs Hc.
  assert (HH : 0 <= H) by (destruct Hs; lia).
  destruct (vec_write_loop h H (fun i => entry_or_0 a i c)
              (fun i => for_each 0 (c + 1) (fun j =>
                 if j =? c then
                   let* x := mat_get H W this i j in
                   vec_set H (VObj (length (vecs h) + 0)) i x
                 else ret tt))
              (replicate (Z.to_nat H) s0))
    as (r & Hrun & Hlr & Hr).
  { rewrite length_replicate. lia. }
  { intros i v Hi Hv.
    rewrite (for_each_last c (fun j =>
               let* x := mat_get H W this i j in
               vec_set H (VObj (length (vecs h) + 0)) i x)) by lia.
    eapply bind_eval.
    - apply (mat_get_entry H W this i c a); auto.
    - now apply vec_set_sole. }
  exists r. split; [|split; [assumption|]].
  - rewrite <- (ext_nil h). unfold mat_column_vector.
    eapply vec_new_sole; [assumption|].
    eapply bind_eval; [exact Hrun|]. now apply load_local.
  - intros i Hi. rewrite (Hr i Hi). symmetry.
    apply (mat_get_entry H W this i c a h [] []); auto.
Qed.

Lemma column_matrix_first_column H W this (a : list (list T)) h :
  mats h !! this = Some a -> shaped H W a -> 0 < W ->
  exists r,
    mat_column_matrix H W this 0 h = Ret (r, h) /\
    shaped H 1 r /\
    forall i, 0 <= i < H -> entry r (Z.to_nat i) 0 = entry a (Z.to_nat i) 0.
Proof.
  intros Ha Hs HW.
  assert (HH : 0 <= H) by (destruct Hs; lia).
  assert (Hloops : forall m1, shaped H 1 m1 ->
            exists m2,
              for_each 0 H (fun i => for_each 0 1 (fun j =>
                  if j =? 0 then
                    let* x := mat_get H W this i j in
                    mat_set H 1 (length (mats h) + 0)%nat i j x
                  else ret tt))
                (ext h [] [m1]) = Ret (tt, ext h [] [m2]) /\
              shaped H 1 m2 /\
              forall i j, 0 <= i < H -> 0 <= j < 1 ->
                          entry m2 (Z.to_nat i) (Z.to_nat j)
                          = Some (entry_or_0 a i j)).
  { intros m1 Hs1. apply mat_write_loops; [assumption | lia |].
    intros i j m row Hi Hj Hm Hrow.
    replace (j =? 0) with true by lia.
    eapply bind_eval.
    - apply (mat_get_entry H W this i j a); auto; lia.
    - now apply mat_set_sole. }
  destruct (mat_fill_sole H 1 s0 h
              (replicate (Z.to_nat H) (replicate (Z.to_nat 1) s0)))
    as (m1 & Hfill & Hs1); [apply shaped_replicate; lia | lia |].
  destruct (Hloops m1 Hs1) as (m2 & Hrun & Hs2 & Hm2).
  exists m2. split; [|split; [assumption|]].
  - rewrite <- (ext_nil h). unfold mat_column_matrix, mat_new.
    etransitivity.
    { eapply local_mat_ext. eapply bind_eval; [exact Hfill|].
      eapply bind_eval; [exact Hrun|]. now apply load_mat_local. }
    reflexivity.
  - intros i Hi.
    change (entry m2 (Z.to_nat i) (Z.to_nat 0) = entry a (Z.to_nat i) (Z.to_nat 0)).
    rewrite (Hm2 i 0 Hi) by lia. symmetry.
    apply (mat_get_entry H W this i 0 a h [] []); auto; lia.
Qed.

Lemma local_mat_abort {A} init (body : nat -> M A) (h : @heap T) lv lm :
  body (length (mats h) + length lm)%nat (ext h lv (lm ++ [init])) = Abort ->
  local_mat init body (ext h lv lm) = Abort.
Proof.
  intros Hb. unfold local_mat. simpl vecs. simpl mats.
  rewrite length_app, <- app_assoc.
  change (Heap (vecs h ++ lv) (mats h ++ lm ++ [init]))
    with (ext h lv (lm ++ [init])).
  now rewrite Hb.
Qed.

Lemma local_vec_abort {A} init (body : vref -> M A) (h : @heap T) lv lm :
  body (VObj (length (vecs h) + length lv)) (ext h (lv ++ [init]) lm) = Abort ->
  local_vec init body (ext h lv lm) = Abort.
Proof.
  intros Hb. unfold local_vec. simpl vecs. simpl mats.
  rewrite length_app, <- app_assoc.
  change (Heap (vecs h ++ lv ++ [init]) (mats h ++ lm))
    with (ext h (lv ++ [init]) lm).
  now rewrite Hb.
Qed.

Lemma vec_set_abort D r i x (h : @heap T) :
  ~ (0 <= i < D) -> vec_set D r i x h = Abort.
Proof.
  intros Hi. unfold vec_set, vec_index, bind, assert.
  destruct (is_index D i) eqn:E; [|reflexivity].
  apply is_index_true in E. lia.
Qed.

Lemma vec_get_abort D r i (h : @heap T) :
  ~ (0 <= i < D) -> vec_get D r i h = Abort.
Proof.
  intros Hi. unfold vec_get, vec_index, bind, assert.
  destruct (is_index D i) eqn:E; [|reflexivity].
  apply is_index_true in E. lia.
Qed.

Lemma mat_index_abort H this r (h : @heap T) :
  ~ (0 <= r < H) -> mat_index H this r h = Abort.
Proof.
  intros Hr. unfold mat_index, bind, assert.
  destruct (is_row H r) eqn:E; [|reflexivity].
  apply is_row_true in E. lia.
Qed.

Lemma column_matrix_aborts H W this c (a : list (list T)) h :
  mats h !! this = Some a -> shaped H W a -> 0 < H -> 1 <= c ->
  mat_column_matrix H W this c h = Abort.
Proof.
  intros Ha Hs HH Hc. rewrite <- (ext_nil h).
  unfold mat_column_matrix, mat_new.
  destruct (mat_fill_sole H 1 s0 h
              (replicate (Z.to_nat H) (replicate (Z.to_nat 1) s0)))
    as (m1 & Hfill & Hs1); [apply shaped_replicate; lia | lia |].
  apply local_mat_abort.
  eapply bind_eval; [exact Hfill|]. apply bind_abort.
  apply for_each_abort_at with (k := 0); [lia | intros; lia |].
  rewrite (for_each_last c (fun j =>
             let* x := mat_get H W this 0 j in
             mat_set H 1 (length (mats h) + 0)%nat 0 j x)) by lia.
  destruct (decide (c < W)) as [Hlt|Hge].
  - eapply bind_eval.
    + apply (mat_get_entry H W this 0 c a); auto; lia.
    + unfold mat_set. eapply bind_eval; [apply mat_index_eval, is_row_true; lia|].
      apply vec_set_abort. lia.
  - apply bind_abort. unfold mat_get.
    eapply bind_eval; [apply mat_index_eval, is_row_true; lia|].
    apply vec_get_abort. lia.
Qed.


Lemma for_each_noop lo hi (body : Z -> M unit) (h : @heap T) :
  (forall i, lo <= i < hi -> body i h = Ret (tt, h)) ->
  for_each lo hi body h = Ret (tt, h).
Proof.
  intros Hnop. unfold for_each, for_range.
  assert (Hgen : forall n i, lo <= i -> i + Z.of_nat n <= Z.max lo hi ->
            for_loop n i (fun i (_ : unit) => body i) tt h = Ret (tt, h)).
  { induction n as [|n IH]; intros i Hi Hn; [reflexivity|].
    simpl. eapply bind_eval; [apply Hnop; lia|]. apply IH; lia. }
  apply Hgen; lia.
Qed.

Lemma row_vector_negative H W this r (h : @heap T) :
  0 <= W -> r < 0 ->
  mat_row_vector H W this r h = Ret (replicate (Z.to_nat W) s0, h).
Proof.
  intros HW Hr. rewrite <- (ext_nil h). unfold mat_row_vector.
  eapply vec_new_sole; [assumption|].
  eapply bind_eval; [apply for_each_noop; intros; lia|].
  now apply load_local.
Qed.

Lemma row_vector_aborts H W this r (h : @heap T) :
  0 < W -> 0 <= H <= r ->
  mat_row_vector H W this r h = Abort.
Proof.
  intros HW Hr. rewrite <- (ext_nil h). unfold mat_row_vector, vec_new.
  apply local_vec_abort.
  eapply bind_eval.
  { apply vec_fill_sole. rewrite length_replicate. lia. }
  apply bind_abort.
  apply for_each_abort_at with (k := r); [lia | |].
  - intros i Hi. apply for_each_noop. intros j Hj.
    now replace (i =? r) with false by lia.
  - apply for_each_abort_at with (k := 0); [lia | intros; lia |].
    rewrite Z.eqb_refl. apply bind_abort. unfold mat_get. apply bind_abort.
    apply mat_index_abort. lia.
Qed.

(** ** cross on fewer than three elements *)

Lemma cross_below_3 D this rhs (u v : list T) (h : @heap T) :
  lookup_vec this h = Some u -> lookup_vec rhs h = Some v ->
  Z.of_nat (length u) = D -> Z.of_nat (length v) = D -> D < 3 ->
  vec_cross D this rhs h = Abort.
Proof.
  intros Hu Hv Lu Lv HD. rewrite <- (ext_nil h). unfold vec_cross, vec_copy.
  eapply bind_eval; [eapply load_base; exact Hu|].
  apply local_vec_abort.
  destruct (decide (D = 2)) as [->|Hne].
  - destruct (lookup_lt_is_Some_2 u 1) as [a1 Ha1]; [lia|].
    eapply bind_eval.
    + eapply vec_get_base; [reflexivity | eassumption | exact Ha1].
    + apply bind_abort. apply vec_get_abort. lia.
  - apply bind_abort. apply vec_get_abort. lia.
Qed.

End Loops.





(** ** almost_equal: consequences of the absolute margin *)

Section Margin.

Context {T : Type} {ST : Scalar T}.

Lemma close_refl (delta : double) (x : T) : (0 <= delta)%Q -> close delta x x.
Proof. intros Hd. unfold close. rewrite Qabs_Qle_condition. lra. Qed.

Lemma all_close_refl (delta : double) (u : list T) :
  (0 <= delta)%Q -> all_close delta u u.
Proof.
  intros Hd i x y Hx Hy. rewrite Hx in Hy. injection Hy as <-.
  now apply close_refl.
Qed.

Lemma all_close_perturbed (delta : double) (u : list T) k x y :
  (0 <= delta)%Q -> u !! k = Some x -> close delta x y ->
  all_close delta u (<[k := y]> u).
Proof.
  intros Hd Hk Hxy i a b Ha Hb. destruct (decide (i = k)) as [->|Hne].
  - rewrite list_lookup_insert_eq in Hb by (eapply lookup_lt_Some; eauto).
    rewrite Hk in Ha. injection Ha as <-. injection Hb as <-. exact Hxy.
  - rewrite list_lookup_insert_ne in Hb by congruence.
    rewrite Ha in Hb. injection Hb as <-. now apply close_refl.
Qed.

End Margin.

(** * The statements of the specification *)

(** ** [int]: determinants within the range of the type

    A product of three entries of absolute value at most 710 is at most
    357 911 000, and 6 * 357 911 000 < 2^31: every product and every partial
    sum of lines 798-819 then fits in [int], whatever the signs. *)

Definition small (x : Z) : Prop := Z.abs x <= 710.

Lemma small_product (x y : Z) a b :
  Z.abs x <= a -> Z.abs y <= b -> Z.abs (x * y) <= a * b.
Proof.
  intros Hx Hy. rewrite Z.abs_mul.
  apply Z.mul_le_mono_nonneg; auto using Z.abs_nonneg.
Qed.

Lemma small_det2 (a00 a01 a10 a11 : Z) :
  small a00 -> small a01 -> small a10 -> small a11 ->
  Z.abs (det2 a00 a01 a10 a11) <= 2 * 710 * 710.
Proof.
  unfold small, det2. simpl. intros H00 H01 H10 H11.
  pose proof (small_product _ _ _ _ H00 H11) as P1.
  pose proof (small_product _ _ _ _ H10 H01) as P2.
  apply Z.abs_le in P1, P2. apply Z.abs_le. lia.
Qed.

Lemma small_det3 (a00 a01 a02 a10 a11 a12 a20 a21 a22 : Z) :
  small a00 -> small a01 -> small a02 ->
  small a10 -> small a11 -> small a12 ->
  small a20 -> small a21 -> small a22 ->
  Z.abs (det3 a00 a01 a02 a10 a11 a12 a20 a21 a22) <= 6 * (710 * 710 * 710).
Proof.
  unfold small, det3. simpl. intros H00 H01 H02 H10 H11 H12 H20 H21 H22.
  pose proof (small_product _ _ _ _ (small_product _ _ _ _ H00 H11) H22) as P1.
  pose proof (small_product _ _ _ _ (small_product _ _ _ _ H01 H12) H20) as P2.
  pose proof (small_product _ _ _ _ (small_product _ _ _ _ H02 H10) H21) as P3.
  pose proof (small_product _ _ _ _ (small_product _ _ _ _ H02 H11) H20) as P4.
  pose proof (small_product _ _ _ _ (small_product _ _ _ _ H01 H10) H22) as P5.
  pose proof (small_product _ _ _ _ (small_product _ _ _ _ H00 H12) H21) as P6.
  apply Z.abs_le in P1, P2, P3, P4, P5, P6. apply Z.abs_le. lia.
Qed.

Lemma small_det_spec (A : list (list Z)) :
  Forall (Forall small) A -> Z.abs (det_spec A) <= INT_MAX.
Proof.
  intros HA. unfold det_spec.
  repeat match goal with
         | |- context [match ?l with [] => _ | _ :: _ => _ end] => destruct l
         end;
    try (simpl; unfold INT_MAX; lia);
    repeat match goal with
           | H : Forall _ (_ :: _) |- _ => inversion H; subst; clear H
           end.
  - etransitivity; [now apply small_det2 | unfold INT_MAX; lia].
  - etransitivity; [now apply small_det3 | unfold INT_MAX; lia].
Qed.

Lemma small_replace_column (A : list (list Z)) (c : nat) (b : list Z) :
  Forall (Forall small) A -> Forall small b ->
  Forall (Forall small) (replace_column A c b).
Proof.
  unfold replace_column. intros HA. revert b.
  induction HA as [|row A Hrow HA IH]; intros b Hb; [constructor|].
  destruct Hb as [|x b Hx Hb]; [constructor|]. simpl. constructor; [|now apply IH].
  apply Forall_forall. intros y Hy.
  apply list_elem_of_In, list_elem_of_lookup in Hy. destruct Hy as [k Hk].
  destruct (decide (k = c)) as [->|Hne].
  - assert (Hlt : (c < length row)%nat)
      by (apply lookup_lt_Some in Hk; now rewrite length_insert in Hk).
    rewrite list_lookup_insert_eq in Hk by exact Hlt. congruence.
  - rewrite list_lookup_insert_ne in Hk by congruence.
    rewrite Forall_forall in Hrow. apply Hrow.
    apply list_elem_of_In, list_elem_of_lookup. now exists k.
Qed.


(** The stores of the examples: the vectors and matrices of the regression
    cases, built by the initializer-list constructors. *)
Definition example_store : @heap Z :=
  Heap [vec_init 3 [-5; 4; -7]; vec_init 2 [11; 7];
        vec_init 4 [1; 0; 0; 5]; vec_init 4 [0; 1; 0; 7];
        vec_init 3 [3; -3; 1]; vec_init 3 [4; 9; 2]]
       [mat_init 3 3 [1; 2; 3; 3; 1; -3; -3; 4; 7];
        mat_init 2 2 [4; 6; 3; 8];
        mat_init 3 3 [6; 1; 1; 4; -2; 5; 2; 8; 7];
        mat_init 2 2 [4; -3; 6; 5];
        mat_init 3 3 [1; 2; 3; 4; 5; 6; 7; 8; 9];
        mat_init 1 1 [9]].



(** C2: for every 2x2 matrix [determinant()] returns a00*a11 - a10*a01, and
    for every 3x3 matrix it returns a00*a11*a22 + a01*a12*a20 + a02*a10*a21
    - a02*a11*a20 - a01*a10*a22 - a00*a12*a21, the store left as it was; the
    2x2 matrix {4,6, 3,8} has determinant 14 and the 3x3 matrix
    {6,1,1, 4,-2,5, 2,8,7} has determinant -306. *)
Theorem determinant_closed_form :
  (forall (T : Type) (ST : Scalar T) (SL : ScalarLaws T)
          (h : @heap T) (this : nat) (a00 a01 a10 a11 : T),
      mats h !! this = Some [[a00; a01]; [a10; a11]] ->
      mat_determinant 2 2 this h
      = Ret (ssub (smul a00 a11) (smul a10 a01), h)) /\
  (forall (T : Type) (ST : Scalar T) (SL : ScalarLaws T)
          (h : @heap T) (this : nat) (a00 a01 a02 a10 a11 a12 a20 a21 a22 : T),
      mats h !! this = Some [[a00; a01; a02]; [a10; a11; a12]; [a20; a21; a22]] ->
      mat_determinant 3 3 this h
      = Ret (ssub (ssub (ssub (sadd (sadd (smul (smul a00 a11) a22)
                                          (smul (smul a01 a12) a20))
                                    (smul (smul a02 a10) a21))
                              (smul (smul a02 a11) a20))
                        (smul (smul a01 a10) a22))
                  (smul (smul a00 a12) a21), h)) /\
  mat_determinant 2 2 1%nat example_store = Ret (14, example_store) /\
  mat_determinant 3 3 2%nat example_store = Ret (-306, example_store).
Proof.
  split; [|split; [|split]].
  - intros. now apply determinant_2x2.
  - intros. now apply determinant_3x3.
  - exact (determinant_2x2 (T:=Z) example_store 1%nat 4 6 3 8 eq_refl).
  - exact (determinant_3x3 (T:=Z) example_store 2%nat 6 1 1 4 (-2) 5 2 8 7
                           eq_refl).
Qed.

(** The matrix {4,-3, 6,5} of the solve rubric: 4*5 - 6*(-3). *)
Lemma determinant_closed_form_witness :
  mat_determinant 2 2 3%nat example_store = Ret (4 * 5 - 6 * -3, example_store).
Proof.
  exact (proj1 determinant_closed_form Z _ _ example_store 3%nat 4 (-3) 6 5
               eq_refl).
Defined.

(** C3: [column_vector(c)] returns the length-H vector whose element i is
    M[i][c], for every column c of every HxW matrix.  [column_matrix(c)]
    does not return the Hx1 matrix of column c: it writes entry [i][c] of
    its Hx1 result, not [i][0], so for every c >= 1 (and a matrix with at
    least one row) the assertion of [operator[]] fails; only c = 0 returns
    the column. *)
Theorem column_matrix_aborts_past_first_column (T : Type) (ST : Scalar T)
    (h : @heap T) (H W : Z) (this : nat) (a : list (list T)) :
  mats h !! this = Some a -> shaped H W a -> 0 < H -> 0 < W ->
  (forall c, 1 <= c -> mat_column_matrix H W this c h = Abort) /\
  (exists r, mat_column_matrix H W this 0 h = Ret (r, h) /\
             shaped H 1 r /\
             forall i, 0 <= i < H ->
                       entry r (Z.to_nat i) 0 = entry a (Z.to_nat i) 0) /\
  (forall c, 0 <= c < W ->
     exists r, mat_column_vector H W this c h = Ret (r, h) /\
               Z.of_nat (length r) = H /\
               forall i, 0 <= i < H ->
                         r !! Z.to_nat i = entry a (Z.to_nat i) (Z.to_nat c)).
Proof.
  intros Ha Hs HH HW. split; [|split].
  - intros c Hc. now apply column_matrix_aborts with a.
  - now apply column_matrix_first_column.
  - intros c Hc. now apply column_vector_returns.
Qed.

(** The 3x3 matrix {1..9}: [column_matrix(1)] fails its assertion, while
    [column_matrix(0)] and [column_vector(1)] return. *)
Lemma column_matrix_aborts_past_first_column_witness :
  mat_column_matrix 3 3 4%nat 1 example_store = Abort /\
  mat_column_matrix 3 3 4%nat 0 example_store
  = Ret ([[1]; [4]; [7]], example_store) /\
  mat_column_vector 3 3 4%nat 1 example_store = Ret ([2; 5; 8], example_store).
Proof.
  destruct (column_matrix_aborts_past_first_column Z _ example_store 3 3 4%nat
              [[1; 2; 3]; [4; 5; 6]; [7; 8; 9]]) as (Hab & _ & _).
  - reflexivity.
  - split; [reflexivity|]. intros [|[|[|i]]] row; simpl; intros [= <-]; reflexivity.
  - lia.
  - lia.
  - split; [apply Hab; lia|]. split; vm_compute; reflexivity.
Defined.

(** C4, as stated, fails where the sum [rhs[i] + delta] is not a double: for
    the [int] vectors <2> and <1> and the double delta = 1 - 2^-53 the sum
    1 + delta rounds to 2, the test of line 270 holds and [almost_equal]
    returns true, although |2 - 1| exceeds delta. *)
Lemma almost_equal_margin_counterexample :
  ~ (forall (h : @heap Z) (D : Z) (this rhs : vref) (u v : list Z)
            (delta : double),
        is_double delta ->
        lookup_vec this h = Some u -> lookup_vec rhs h = Some v ->
        Z.of_nat (length u) = D -> Z.of_nat (length v) = D ->
        exists r : bool,
          vec_almost_equal D this rhs delta h = Ret (r, h) /\
          (r = true <-> all_close delta u v)).
Proof.
  intros Hc.
  destruct (Hc (Heap [[2]; [1]] []) 1 (VObj 0) (VObj 1) [2] [1]
               (1 - 1 / 2 ^ 53)%Q)
    as (r & Hr & Hiff); try reflexivity.
  - split; vm_compute; [reflexivity | discriminate].
  - vm_compute in Hr. injection Hr as <-.
    pose proof (proj1 Hiff eq_refl 0%nat 2 1 eq_refl eq_refl) as Hclose.
    vm_compute in Hclose. now apply Hclose.
Qed.

(** C4, amended: for vectors u, v of the same dimension N and every delta,
    [u.almost_equal(v, delta)] returns true if and only if at every index i
    the element u[i] lies between v[i] - delta and v[i] + delta as the code
    computes them, each rounded to the nearest double.  When the elements of
    u convert to double as they are, |u[i] - v[i]| <= delta at every index
    is enough for true: for positive delta the test is reflexive and returns
    true when one element is perturbed by at most delta.  It returns false
    when at some index a double d has v[i] + delta <= d < u[i] or
    u[i] < d <= v[i] - delta.  The matrix [almost_equal] is the same test over
    all HxW entries. *)
Theorem almost_equal_rounded_margin :
  (forall (T : Type) (ST : Scalar T) (h : @heap T) (D : Z) (this rhs : vref)
          (u v : list T) (delta : double),
      lookup_vec this h = Some u -> lookup_vec rhs h = Some v ->
      Z.of_nat (length u) = D -> Z.of_nat (length v) = D ->
      exists r : bool,
        vec_almost_equal D this rhs delta h = Ret (r, h) /\
        (r = true <->
         forall i x y, u !! i = Some x -> v !! i = Some y ->
                       (round64 (to_double y - delta) <= to_double x)%Q /\
                       (to_double x <= round64 (to_double y + delta))%Q) /\
        (Forall representable u -> all_close delta u v -> r = true) /\
        (Forall representable u -> (0 < delta)%Q -> v = u -> r = true) /\
        (Forall representable u -> (0 < delta)%Q ->
         forall k x y, u !! k = Some x -> v = <[k := y]> u ->
                       close delta x y -> r = true) /\
        (forall k x y (d : double),
            u !! k = Some x -> v !! k = Some y -> (round64 d == d)%Q ->
            (to_double y + delta <= d /\ d < to_double x
             \/ to_double x < d /\ d <= to_double y - delta)%Q ->
            r = false)) /\
  (forall (T : Type) (ST : Scalar T) (h : @heap T) (H W : Z) (this rhs : nat)
          (a b : list (list T)) (delta : double),
      mats h !! this = Some a -> mats h !! rhs = Some b ->
      shaped H W a -> shaped H W b ->
      exists r : bool,
        mat_almost_equal H W this rhs delta h = Ret (r, h) /\
        (r = true <->
         forall i j u v x y, a !! i = Some u -> b !! i = Some v ->
                             u !! j = Some x -> v !! j = Some y ->
                             (round64 (to_double y - delta) <= to_double x)%Q /\
                             (to_double x <= round64 (to_double y + delta))%Q) /\
        (Forall (Forall representable) a -> all_close_mat delta a b ->
         r = true)).
Proof.
  split.
  - intros T ST h D this rhs u v delta Ht Hr Hu Hv.
    assert (Hiff : all_within delta u v = true <-> all_inside delta u v)
      by (apply all_within_inside; lia).
    exists (all_within delta u v). split; [|split; [|split; [|split; [|split]]]].
    + now apply vec_almost_equal_within.
    + exact Hiff.
    + intros Hrep Hc. now apply Hiff, all_close_inside.
    + intros Hrep Hd ->. apply Hiff, all_close_inside; [exact Hrep|].
      apply all_close_refl. lra.
    + intros Hrep Hd k x y Hk -> Hxy. apply Hiff, all_close_inside; [exact Hrep|].
      apply all_close_perturbed with x; auto. lra.
    + intros k x y d Hx Hy Hd Hout.
      destruct (all_within delta u v) eqn:E; [|reflexivity].
      exfalso. apply (outside_by_a_double delta x y d Hd Hout).
      exact (proj1 Hiff eq_refl k x y Hx Hy).
  - intros T ST h H W this rhs a b delta Ht Hr Ha Hb.
    assert (Hiff : all_within_mat delta a b = true <-> all_inside_mat delta a b)
      by (now apply (all_within_mat_inside delta H W)).
    exists (all_within_mat delta a b). split; [|split].
    + now apply mat_almost_equal_within.
    + rewrite Hiff. unfold all_inside_mat, all_inside, inside. split.
      * intros Hall i j u v x y Hu Hv Hx Hy. exact (Hall i u v Hu Hv j x y Hx Hy).
      * intros Hall i u v Hu Hv j x y Hx Hy. exact (Hall i j u v x y Hu Hv Hx Hy).
    + intros Hrep Hall. apply Hiff. intros i u v Hu Hv.
      apply all_close_inside; [exact (Forall_lookup_1 _ _ _ _ Hrep Hu)|].
      exact (Hall i u v Hu Hv).
Qed.

(** {3, -3, 1} against itself, and against {4, 9, 2}, with the default
    margin: 7/2 is a double between 3 and 4 - delta. *)
Lemma almost_equal_rounded_margin_witness :
  vec_almost_equal 3 (VObj 4) (VObj 4) DEFAULT_DELTA example_store
  = Ret (true, example_store) /\
  vec_almost_equal 3 (VObj 4) (VObj 5) DEFAULT_DELTA example_store
  = Ret (false, example_store).
Proof.
  split.
  - destruct (proj1 almost_equal_rounded_margin Z _ example_store 3
                (VObj 4) (VObj 4) [3; -3; 1] [3; -3; 1] DEFAULT_DELTA
                eq_refl eq_refl eq_refl eq_refl)
      as (r & Hr & _ & _ & Hrefl & _).
    rewrite Hr. rewrite Hrefl; [reflexivity | | reflexivity | reflexivity].
    repeat constructor; vm_compute; reflexivity.
  - destruct (proj1 almost_equal_rounded_margin Z _ example_store 3
                (VObj 4) (VObj 5) [3; -3; 1] [4; 9; 2] DEFAULT_DELTA
                eq_refl eq_refl eq_refl eq_refl)
      as (r & Hr & _ & _ & _ & _ & Hfar).
    rewrite Hr. rewrite (Hfar 0%nat 3 4 (7 # 2)%Q eq_refl eq_refl);
      [reflexivity | vm_compute; reflexivity |].
    right. split; vm_compute; [reflexivity | discriminate].
Defined.

(** C5: for every pair of 3-element vectors a and b, [a.cross(b)] is
    (a1*b2 - a2*b1, a2*b0 - a0*b2, a0*b1 - a1*b0); the cross product is
    anti-commutative: [a.cross(b) == -(b.cross(a))] is true, the negation of
    [b.cross(a)] being, element by element, [a.cross(b)]. *)
Theorem cross_product (T : Type) (ST : Scalar T) (SL : ScalarLaws T)
    (h : @heap T) (a b : vref) (a0 a1 a2 b0 b1 b2 : T) :
  lookup_vec a h = Some [a0; a1; a2] ->
  lookup_vec b h = Some [b0; b1; b2] ->
  vec_cross 3 a b h
  = Ret ([ssub (smul a1 b2) (smul a2 b1);
          ssub (smul a2 b0) (smul a0 b2);
          ssub (smul a0 b1) (smul a1 b0)], h) /\
  (exists ba,
      vec_cross 3 b a h = Ret (ba, h) /\
      vec_cross 3 a b h = Ret (map (ssub s0) ba, h)) /\
  cross_anticommutes a b h = Ret (true, h).
Proof.
  intros Ha Hb. split; [|split].
  - exact (cross_3_spec h a b _ _ Ha Hb eq_refl eq_refl).
  - exists (cross_spec [b0; b1; b2] [a0; a1; a2]).
    split; [exact (cross_3_spec h b a _ _ Hb Ha eq_refl eq_refl)|].
    rewrite (neg_cross_spec [a0; a1; a2] [b0; b1; b2] eq_refl eq_refl).
    exact (cross_3_spec h a b _ _ Ha Hb eq_refl eq_refl).
  - exact (cross_anticommutes_true h a b _ _ Ha Hb eq_refl eq_refl).
Qed.

(** {3, -3, 1} cross {4, 9, 2}, the first case of the cross-product rubric. *)
Lemma cross_product_witness :
  vec_cross 3 (VObj 4) (VObj 5) example_store = Ret ([-15; -2; 39], example_store)
  /\ cross_anticommutes (VObj 4) (VObj 5) example_store
     = Ret (true, example_store).
Proof.
  destruct (cross_product Z _ _ example_store (VObj 4) (VObj 5) 3 (-3) 1 4 9 2
                          eq_refl eq_refl) as (Hc & _ & Hanti).
  split; [exact Hc | exact Hanti].
Defined.

(** C6: matrix indexing and [row_matrix(r)] fail their assertion for every
    r outside [0, H).  [row_vector(r)] has no such assertion: for every
    negative r it returns the zero vector; for r >= H it fails inside its
    loop, at the assertion of [operator[]] (when the matrix has a column). *)
Theorem row_vector_returns_for_negative_row (T : Type) (ST : Scalar T)
    (h : @heap T) (H W : Z) (this : nat) :
  0 <= H -> 0 <= W ->
  (forall r, ~ (0 <= r < H) ->
             mat_index H this r h = Abort /\
             mat_row_matrix H W this r h = Abort) /\
  (forall r, r < 0 ->
             mat_row_vector H W this r h = Ret (replicate (Z.to_nat W) s0, h)) /\
  (forall r, H <= r -> 0 < W -> mat_row_vector H W this r h = Abort).
Proof.
  intros HH HW. split; [|split].
  - intros r Hr. split; [now apply mat_index_abort|].
    unfold mat_row_matrix. apply bind_abort. unfold assert.
    destruct (is_row H r) eqn:E; [|reflexivity]. apply is_row_true in E. lia.
  - intros r Hr. now apply row_vector_negative.
  - intros r Hr HW'. apply row_vector_aborts; lia.
Qed.

(** [row_vector(-1)] of the 3x3 matrix {1..9} is <0, 0, 0>. *)
Lemma row_vector_returns_for_negative_row_witness :
  mat_row_vector 3 3 4%nat (-1) example_store = Ret ([0; 0; 0], example_store) /\
  mat_row_matrix 3 3 4%nat (-1) example_store = Abort /\
  mat_row_vector 3 3 4%nat 3 example_store = Abort.
Proof.
  destruct (row_vector_returns_for_negative_row Z _ example_store 3 3 4%nat)
    as (Hidx & Hneg & Hge); [lia | lia |].
  split; [apply Hneg; lia|]. split; [apply Hidx; lia | apply Hge; lia].
Defined.

(** C7: [cross] has no static dimension check, so the expression
    [v.cross(rhs)] is well-formed for every DIMENSION.  For every
    DIMENSION >= 3 the call returns: the first three elements are the cross
    product of the operands' first three, the others are copies of the left
    operand's.  For a DIMENSION below 3 the call is made and fails at run
    time, at the assertion of [operator[]]. *)
Theorem cross_has_no_dimension_check (T : Type) (ST : Scalar T)
    (h : @heap T) (D : Z) (this rhs : vref) (u v : list T) :
  lookup_vec this h = Some u -> lookup_vec rhs h = Some v ->
  Z.of_nat (length u) = D -> Z.of_nat (length v) = D ->
  (3 <= D ->
   exists a0 a1 a2 ta b0 b1 b2 tb,
     u = a0 :: a1 :: a2 :: ta /\ v = b0 :: b1 :: b2 :: tb /\
     vec_cross D this rhs h
     = Ret (ssub (smul a1 b2) (smul a2 b1)
            :: ssub s0 (ssub (smul a0 b2) (smul a2 b0))
            :: ssub (smul a0 b1) (smul a1 b0)
            :: ta, h)) /\
  (D < 3 -> vec_cross D this rhs h = Abort).
Proof.
  intros Hu Hv Lu Lv. split.
  - intros HD.
    destruct u as [|a0 [|a1 [|a2 ta]]]; simpl in Lu; try lia.
    destruct v as [|b0 [|b1 [|b2 tb]]]; simpl in Lv; try lia.
    exists a0, a1, a2, ta, b0, b1, b2, tb.
    split; [reflexivity|]. split; [reflexivity|].
    exact (cross_from_3 h _ this rhs a0 a1 a2 ta b0 b1 b2 tb HD Hu Hv).
  - intros HD. now apply cross_below_3 with u v.
Qed.

(** <1, 0, 0, 5> cross <0, 1, 0, 7>, of dimension 4. *)
Lemma cross_has_no_dimension_check_witness :
  vec_cross 4 (VObj 2) (VObj 3) example_store
  = Ret ([0; 0; 1; 5], example_store).
Proof.
  destruct (cross_has_no_dimension_check Z _ example_store 4
              (VObj 2) (VObj 3) [1; 0; 0; 5] [0; 1; 0; 7]
              eq_refl eq_refl eq_refl eq_refl) as [Hret _].
  destruct (Hret ltac:(lia))
    as (a0 & a1 & a2 & ta & b0 & b1 & b2 & tb & Eu & Ev & Hrun).
  injection Eu as <- <- <- <-. injection Ev as <- <- <- <-. exact Hrun.
Defined.

(** C8, as stated, fails where the result has no row or no column:
    [shrink<0, 1>] of a 1x1 matrix is the empty matrix, while
    [submatrix<0, 1>] is refused by its static assertion. *)
Lemma shrink_submatrix_counterexample :
  ~ (forall (H W RH RW : Z) (this : nat) (h : @heap Z),
        0 <= RH <= H -> 0 <= RW <= W -> RH < H \/ RW < W ->
        mat_shrink H W RH RW this h = mat_submatrix H W RH RW this 0 0 h).
Proof.
  intros Hc.
  specialize (Hc 1 1 0 1 5%nat example_store ltac:(lia) ltac:(lia) ltac:(lia)).
  vm_compute in Hc. discriminate Hc.
Qed.

(** C8, amended: for every HxW matrix M and result dimensions
    0 < RH <= H, 0 < RW <= W with at least one strictly smaller,
    [M.shrink<RH, RW>()] and [M.submatrix<RH, RW>(0, 0)] have the same
    outcome on every store; on a matrix of the declared shape both return
    the same RHxRW matrix, whose entry [i][j] is M[i][j]. *)
Theorem shrink_is_submatrix_at_origin (T : Type) (ST : Scalar T)
    (H W RH RW : Z) (this : nat) (h : @heap T) :
  0 < RH <= H -> 0 < RW <= W -> RW < W \/ RH < H ->
  mat_shrink H W RH RW this h = mat_submatrix H W RH RW this 0 0 h /\
  (forall a, mats h !! this = Some a -> shaped H W a ->
     exists r, mat_shrink H W RH RW this h = Ret (r, h) /\
               mat_submatrix H W RH RW this 0 0 h = Ret (r, h) /\
               shaped RH RW r /\
               forall i j, 0 <= i < RH -> 0 <= j < RW ->
                           entry r (Z.to_nat i) (Z.to_nat j)
                           = entry a (Z.to_nat i) (Z.to_nat j)).
Proof.
  intros HH HW Hlt.
  assert (E : mat_shrink H W RH RW this h = mat_submatrix H W RH RW this 0 0 h)
    by now apply shrink_submatrix_eq.
  split; [exact E|]. intros a Ha Hs.
  destruct (submatrix_returns H W RH RW this 0 0 a h)
    as (r & Hrun & Hsr & Hr); try assumption; try lia.
  exists r. rewrite E. split; [assumption|]. split; [assumption|].
  split; [assumption|]. intros i j Hi Hj.
  rewrite (Hr i j Hi Hj). now rewrite !Z.add_0_r.
Qed.

(** The 3x3 matrix {1..9} shrunk to 2x2, as in the rubric. *)
Lemma shrink_is_submatrix_at_origin_witness :
  mat_shrink 3 3 2 2 4%nat example_store
  = Ret ([[1; 2]; [4; 5]], example_store) /\
  mat_submatrix 3 3 2 2 4%nat 0 0 example_store
  = Ret ([[1; 2]; [4; 5]], example_store).
Proof.
  destruct (shrink_is_submatrix_at_origin Z _ 3 3 2 2 4%nat example_store)
    as [E _]; [lia | lia | lia |].
  rewrite E. split; vm_compute; reflexivity.
Defined.

(** A member function that satisfies [frame] at every level leaves the
    store unchanged. *)
Ltac unchanged_by_frame :=
  intros; apply frame_unchanged; intros ? ?;
  lazymatch goal with
  | |- frame _ _ (vec_add _ _ _) => apply frame_vec_add
  | |- frame _ _ (vec_sub _ _ _) => apply frame_vec_sub
  | |- frame _ _ (vec_neg _ _) => apply frame_vec_neg
  | |- frame _ _ (vec_scale _ _ _) => apply frame_vec_scale
  | |- frame _ _ (vec_div _ _ _) => apply frame_vec_div
  | |- frame _ _ (vec_dot _ _ _) => apply frame_vec_dot
  | |- frame _ _ (vec_cross _ _ _) => apply frame_vec_cross
  | |- frame _ _ (vec_normalize _ _) => apply frame_vec_normalize
  | |- frame _ _ (vec_magnitude _ _) => apply frame_vec_magnitude
  | |- frame _ _ (vec_magnitude_squared _ _) => apply frame_vec_magnitude_squared
  | |- frame _ _ (vec_subvector _ _ _ _) => apply frame_vec_subvector
  | |- frame _ _ (vec_shrink _ _ _) => apply frame_vec_shrink
  | |- frame _ _ (vec_grow _ _ _ _) => apply frame_vec_grow
  | |- frame _ _ (vec_eq _ _ _) => apply frame_vec_eq
  | |- frame _ _ (vec_ne _ _ _) => apply frame_vec_ne
  | |- frame _ _ (vec_almost_equal _ _ _ _) => apply frame_vec_almost_equal
  | |- frame _ _ (vec_get _ _ _) => apply frame_vec_get
  | |- frame _ _ (mat_add _ _ _ _) => apply frame_mat_add
  | |- frame _ _ (mat_sub _ _ _ _) => apply frame_mat_sub
  | |- frame _ _ (mat_neg _ _ _) => apply frame_mat_neg
  | |- frame _ _ (mat_scale _ _ _ _) => apply frame_mat_scale
  | |- frame _ _ (mat_div _ _ _ _) => apply frame_mat_div
  | |- frame _ _ (mat_mul _ _ _ _ _) => apply frame_mat_mul
  | |- frame _ _ (mat_submatrix _ _ _ _ _ _ _) => apply frame_mat_submatrix
  | |- frame _ _ (mat_shrink _ _ _ _ _) => apply frame_mat_shrink
  | |- frame _ _ (mat_grow _ _ _ _ _ _) => apply frame_mat_grow
  | |- frame _ _ (mat_transpose _ _ _) => apply frame_mat_transpose
  | |- frame _ _ (mat_row_matrix _ _ _ _) => apply frame_mat_row_matrix
  | |- frame _ _ (mat_row_vector _ _ _ _) => apply frame_mat_row_vector
  | |- frame _ _ (mat_column_matrix _ _ _ _) => apply frame_mat_column_matrix
  | |- frame _ _ (mat_column_vector _ _ _ _) => apply frame_mat_column_vector
  | |- frame _ _ (mat_determinant _ _ _) => apply frame_mat_determinant
  | |- frame _ _ (mat_solve _ _ _ _) => apply frame_mat_solve
  | |- frame _ _ (mat_identity _ _) => apply frame_mat_identity
  | |- frame _ _ (mat_eq _ _ _ _) => apply frame_mat_eq
  | |- frame _ _ (mat_ne _ _ _ _) => apply frame_mat_ne
  | |- frame _ _ (mat_almost_equal _ _ _ _ _) => apply frame_mat_almost_equal
  | |- frame _ _ (mat_get _ _ _ _ _) => apply frame_mat_get
  | |- frame _ _ (vec_dimension _ _) => apply frame_ret
  | |- frame _ _ (mat_height _ _) => apply frame_ret
  | |- frame _ _ (mat_width _ _) => apply frame_ret
  end.

(** C9: every member function that returns a new vector, matrix or scalar
    (addition, subtraction, negation, scalar multiply and divide, dot
    product, cross, normalize, subvector and submatrix, shrink, grow,
    transpose, row and column extraction, determinant, solve, and with them
    the comparisons, the matrix product, identity and the const accessors)
    leaves the store it was given unchanged whenever it returns, whatever
    objects its operands name; the entry points that do change an existing
    object are assignment through [operator[]] (to an element, or to a row
    of a matrix), whole-value assignment, and [fill]. *)
Theorem operands_unchanged :
  (forall (T : Type) (ST : Scalar T),
      (forall D this rhs, unchanged (vec_add D this rhs)) /\
      (forall D this rhs, unchanged (vec_sub D this rhs)) /\
      (forall D this, unchanged (vec_neg D this)) /\
      (forall D this x, unchanged (vec_scale D this x)) /\
      (forall D this x, unchanged (vec_div D this x)) /\
      (forall D this rhs, unchanged (vec_dot (T:=T) D this rhs)) /\
      (forall D this rhs, unchanged (vec_cross D this rhs)) /\
      (forall D this, unchanged (vec_normalize D this)) /\
      (forall D this, unchanged (vec_magnitude (T:=T) D this)) /\
      (forall D this, unchanged (vec_magnitude_squared (T:=T) D this)) /\
      (forall D R this start, unchanged (vec_subvector D R this start)) /\
      (forall D R this, unchanged (vec_shrink D R this)) /\
      (forall D R this d, unchanged (vec_grow D R this d)) /\
      (forall D this rhs, unchanged (vec_eq D this rhs)) /\
      (forall D this rhs, unchanged (vec_ne D this rhs)) /\
      (forall D this rhs delta, unchanged (vec_almost_equal D this rhs delta)) /\
      (forall D this i, unchanged (vec_get (T:=T) D this i)) /\
      (forall D this, unchanged (vec_dimension (T:=T) D this)) /\
      (forall H W this rhs, unchanged (mat_add H W this rhs)) /\
      (forall H W this rhs, unchanged (mat_sub H W this rhs)) /\
      (forall H W this, unchanged (mat_neg H W this)) /\
      (forall H W this x, unchanged (mat_scale H W this x)) /\
      (forall H W this x, unchanged (mat_div H W this x)) /\
      (forall H W RW this rhs, unchanged (mat_mul H W RW this rhs)) /\
      (forall H W RH RW this top left,
          unchanged (mat_submatrix H W RH RW this top left)) /\
      (forall H W RH RW this, unchanged (mat_shrink H W RH RW this)) /\
      (forall H W RH RW this d, unchanged (mat_grow H W RH RW this d)) /\
      (forall H W this, unchanged (mat_transpose H W this)) /\
      (forall H W this r, unchanged (mat_row_matrix H W this r)) /\
      (forall H W this r, unchanged (mat_row_vector H W this r)) /\
      (forall H W this c, unchanged (mat_column_matrix H W this c)) /\
      (forall H W this c, unchanged (mat_column_vector H W this c)) /\
      (forall H W this, unchanged (mat_determinant (T:=T) H W this)) /\
      (forall H W this b, unchanged (mat_solve H W this b)) /\
      (forall H W, unchanged (mat_identity (T:=T) H W)) /\
      (forall H W this rhs, unchanged (mat_eq H W this rhs)) /\
      (forall H W this rhs, unchanged (mat_ne H W this rhs)) /\
      (forall H W this rhs delta, unchanged (mat_almost_equal H W this rhs delta)) /\
      (forall H W this i j, unchanged (mat_get (T:=T) H W this i j)) /\
      (forall H W, unchanged (mat_height (T:=T) H W)) /\
      (forall H W, unchanged (mat_width (T:=T) H W))) /\
  ~ unchanged (vec_set (T:=Z) 3 (VObj 0) 1 7) /\
  ~ unchanged (vec_assign (T:=Z) (VObj 4) (VObj 5)) /\
  ~ unchanged (vec_fill (T:=Z) 3 (VObj 0) (-1)) /\
  ~ unchanged (mat_set (T:=Z) 3 3 4%nat 1 1 0) /\
  ~ unchanged (let* row := mat_index (T:=Z) 3 4%nat 2 in vec_assign row (VObj 0)) /\
  ~ unchanged (mat_assign (T:=Z) 0%nat 4%nat) /\
  ~ unchanged (mat_fill (T:=Z) 3 3 4%nat 0).
Proof.
  split.
  - intros T ST.
    repeat match goal with |- _ /\ _ => split end; unchanged_by_frame.
  - repeat match goal with |- _ /\ _ => split end;
      intros Hu;
      match type of Hu with
      | unchanged ?m =>
          let r := eval vm_compute in (m example_store) in
          match r with
          | Ret (?a, ?h') =>
              assert (E : m example_store = Ret (a, h'))
                by (vm_compute; reflexivity);
              apply Hu in E; vm_compute in E; discriminate E
          end
      end.
Qed.

(** [solve] on the 3x3 system of the rubric returns, and the store after it
    is the store before. *)
Lemma operands_unchanged_witness :
  exists x h', mat_solve 3 3 0%nat (VObj 0) example_store = Ret (x, h')
               /\ h' = example_store.
Proof.
  destruct (mat_solve 3 3 0%nat (VObj 0) example_store) as [[x h']| | |] eqn:E;
    try (vm_compute in E; discriminate E).
  exists x, h'. split; [reflexivity|].
  assert (Hs : forall H W this b, unchanged (mat_solve (T:=Z) H W this b))
    by apply (proj1 operands_unchanged Z _).
  exact (Hs 3 3 0%nat (VObj 0) example_store x h' E).
Defined.

(** C10: for every vector v of any dimension N, the dot product of v with
    itself and [magnitude_squared()] return the same scalar, the sum of the
    squares of the elements accumulated from 0 in index order, whether the
    right operand is v itself or another vector of the same value. *)
Theorem dot_self_is_magnitude_squared (T : Type) (ST : Scalar T)
    (h : @heap T) (D : Z) (this rhs : vref) (v : list T) :
  lookup_vec this h = Some v -> lookup_vec rhs h = Some v ->
  Z.of_nat (length v) = D ->
  vec_dot D this this h = Ret (sum_of_squares v, h) /\
  vec_dot D this rhs h = Ret (sum_of_squares v, h) /\
  vec_magnitude_squared D this h = Ret (sum_of_squares v, h).
Proof.
  intros Ht Hr HD. split; [|split].
  - now apply dot_self.
  - now apply dot_self.
  - now apply magnitude_squared_sum.
Qed.

(** {-5, 4, -7}: 25 + 16 + 49. *)
Lemma dot_self_is_magnitude_squared_witness :
  vec_dot 3 (VObj 0) (VObj 0) example_store = Ret (90, example_store) /\
  vec_magnitude_squared 3 (VObj 0) example_store = Ret (90, example_store).
Proof.
  destruct (dot_self_is_magnitude_squared Z _ example_store 3 (VObj 0) (VObj 0)
              [-5; 4; -7] eq_refl eq_refl eq_refl) as (Hd & _ & Hm).
  split; [exact Hd | exact Hm].
Defined.

(** * Further properties of the header

    The members the statements above do not reach, each with what its loops
    compute: the constructors, [operator[]], the arithmetic and comparison
    operators, [fill], the parts ([subvector], [submatrix], [shrink], [grow]),
    the rows, [transpose], [identity], the matrix product, and the function
    template [gfx::almost_equal]. *)

(** ** The initializer-list constructors *)

Section Constructors.

Context {T : Type} {ST : Scalar T}.

Lemma init_elements_fst n (it : list T) :
  (init_elements n it).1 = take n it ++ replicate (n - length it) s0.
Proof.
  revert it. induction n as [|n IH]; intros it; [reflexivity|].
  simpl. destruct it as [|x it].
  - specialize (IH []). destruct (init_elements n []) as [v rest].
    simpl in *. rewrite IH. now rewrite take_nil, Nat.sub_0_r.
  - specialize (IH it). destruct (init_elements n it) as [v rest].
    simpl in *. now rewrite IH.
Qed.

Lemma init_elements_snd n (it : list T) :
  (init_elements n it).2 = drop n it.
Proof.
  revert it. induction n as [|n IH]; intros it; [reflexivity|].
  simpl. destruct it as [|x it].
  - specialize (IH []). destruct (init_elements n []) as [v rest].
    simpl in *. now rewrite IH, drop_nil.
  - specialize (IH it). destruct (init_elements n it) as [v rest].
    simpl in *. now rewrite IH.
Qed.

Lemma init_elements_lookup n (it : list T) i :
  (i < n)%nat -> (init_elements n it).1 !! i = Some (default s0 (it !! i)).
Proof.
  intros Hi. rewrite init_elements_fst.
  destruct (decide (i < length it)%nat) as [Hlt|Hge].
  - rewrite lookup_app_l by (rewrite length_take; lia).
    rewrite lookup_take_lt by lia.
    destruct (lookup_lt_is_Some_2 it i Hlt) as [x Hx]. now rewrite Hx.
  - rewrite lookup_app_r by (rewrite length_take; lia).
    rewrite length_take, (lookup_ge_None_2 it i) by lia. simpl.
    apply lookup_replicate_2. lia.
Qed.

Lemma init_elements_length n (it : list T) : length (init_elements n it).1 = n.
Proof.
  rewrite init_elements_fst, length_app, length_take, length_replicate. lia.
Qed.

Lemma init_rows_lookup n w (it : list T) i :
  (i < n)%nat ->
  init_rows n w it !! i = Some (init_elements w (drop (i * w) it)).1.
Proof.
  revert it i. induction n as [|n IH]; intros it i Hi; [lia|].
  simpl. pose proof (init_elements_snd w it) as Hs.
  destruct (init_elements w it) as [row rest] eqn:E. simpl in Hs. subst rest.
  destruct i as [|i]; simpl.
  - rewrite drop_0, E. reflexivity.
  - rewrite IH by lia. rewrite drop_drop. reflexivity.
Qed.

Lemma init_rows_length n w (it : list T) : length (init_rows n w it) = n.
Proof.
  revert it. induction n as [|n IH]; intros it; [reflexivity|].
  simpl. destruct (init_elements w it) as [row rest]. simpl. now rewrite IH.
Qed.

End Constructors.

(** ** Vectors: element access, arithmetic, comparison *)

Section VectorMembers.

Context {T : Type} {ST : Scalar T}.

Lemma list_eq_upto (l1 l2 : list T) D :
  Z.of_nat (length l1) = D -> Z.of_nat (length l2) = D ->
  (forall i, 0 <= i < D -> l1 !! Z.to_nat i = l2 !! Z.to_nat i) ->
  l1 = l2.
Proof.
  intros H1 H2 Hall. apply list_eq. intros k.
  destruct (decide (k < length l1)%nat) as [Hk|Hk].
  - specialize (Hall (Z.of_nat k)). rewrite Nat2Z.id in Hall. apply Hall. lia.
  - rewrite !lookup_ge_None_2 by lia. reflexivity.
Qed.

Lemma bind_undefined {A B} (m : M A) (k : A -> M B) (h : @heap T) :
  m h = Undefined -> bind m k h = Undefined.
Proof. intros Hm. unfold bind. now rewrite Hm. Qed.

Lemma lookup_update_vec r (v v' : list T) (h : @heap T) :
  lookup_vec r h = Some v -> lookup_vec r (update_vec r v' h) = Some v'.
Proof.
  destruct r as [l|m i]; unfold lookup_vec, update_vec; simpl.
  - intros Hl. apply list_lookup_insert_eq. eapply lookup_lt_Some; eauto.
  - destruct (mats h !! m) as [rows|] eqn:Hm; [|discriminate]. intros Hi. simpl.
    rewrite list_lookup_insert_eq by (eapply lookup_lt_Some; eauto).
    apply list_lookup_insert_eq. eapply lookup_lt_Some; eauto.
Qed.

Lemma update_update_vec r (v v1 v2 : list T) (h : @heap T) :
  lookup_vec r h = Some v ->
  update_vec r v2 (update_vec r v1 h) = update_vec r v2 h.
Proof.
  destruct r as [l|m i]; unfold lookup_vec, update_vec; simpl.
  - intros _. now rewrite list_insert_insert_eq.
  - destruct (mats h !! m) as [rows|] eqn:Hm; [|discriminate]. intros Hi. simpl.
    rewrite list_lookup_insert_eq by (eapply lookup_lt_Some; eauto).
    now rewrite !list_insert_insert_eq.
Qed.

(** [operator[]] on an object of the store. *)
Lemma vec_set_in_range D r i x (v : list T) (h : @heap T) :
  lookup_vec r h = Some v -> Z.of_nat (length v) = D -> 0 <= i < D ->
  vec_set D r i x h = Ret (tt, update_vec r (<[Z.to_nat i := x]> v) h).
Proof.
  intros Hv Hl Hi.
  destruct (lookup_lt_is_Some_2 v (Z.to_nat i)) as [y Hy]; [lia|].
  eapply vec_set_eval; eauto. apply is_index_true. lia.
Qed.

(** A loop that writes [g i] at every index of an object of the store. *)
Lemma vec_write_loop_ref D r (g : Z -> T) (body : Z -> M unit)
    (v0 : list T) (h : @heap T) :
  lookup_vec r h = Some v0 -> Z.of_nat (length v0) = D ->
  (forall i v, 0 <= i < D -> Z.of_nat (length v) = D ->
      body i (update_vec r v h)
      = Ret (tt, update_vec r (<[Z.to_nat i := g i]> v) h)) ->
  exists v',
    for_each 0 D body (update_vec r v0 h) = Ret (tt, update_vec r v' h) /\
    Z.of_nat (length v') = D /\
    forall i, 0 <= i < D -> v' !! Z.to_nat i = Some (g i).
Proof.
  intros Hr Hl Hbody.
  destruct (for_each_inv
              (fun i h1 => exists v, h1 = update_vec r v h /\
                                     Z.of_nat (length v) = D /\
                                     forall k, 0 <= k < i -> v !! Z.to_nat k = Some (g k))
              0 D body (update_vec r v0 h))
    as (h' & Hrun & v' & -> & Hl' & Hall); [lia | | |].
  - exists v0. split; [reflexivity|]. split; [assumption|]. intros; lia.
  - intros i h1 Hi (v & -> & Hlv & Hall).
    eexists. split; [now apply Hbody|].
    eexists. split; [reflexivity|]. split; [now rewrite length_insert|].
    intros k Hk. destruct (decide (k = i)) as [->|Hne].
    + rewrite list_lookup_insert_eq by lia. reflexivity.
    + rewrite list_lookup_insert_ne by lia. apply Hall. lia.
  - exists v'. split; [exact Hrun|]. split; [assumption|]. exact Hall.
Qed.

Lemma update_vec_same r (v : list T) (h : @heap T) :
  lookup_vec r h = Some v -> update_vec r v h = h.
Proof.
  destruct h as [vs ms].
  destruct r as [l|m i]; unfold lookup_vec, update_vec; simpl.
  - intros Hl. now rewrite list_insert_id.
  - destruct (ms !! m) as [rows|] eqn:Hm; [|discriminate]. intros Hi. simpl.
    now rewrite (list_insert_id rows), list_insert_id.
Qed.

Lemma vec_fill_ref D r value (v0 : list T) (h : @heap T) :
  lookup_vec r h = Some v0 -> Z.of_nat (length v0) = D ->
  vec_fill D r value h
  = Ret (tt, update_vec r (replicate (Z.to_nat D) value) h).
Proof.
  intros Hr Hl.
  destruct (vec_write_loop_ref D r (fun _ => value)
              (fun i => vec_set D r i value) v0 h Hr Hl)
    as (v' & Hrun & Hl' & Hall).
  - intros i v Hi Hv.
    erewrite vec_set_in_range; eauto using lookup_update_vec.
    now erewrite update_update_vec by eassumption.
  - rewrite update_vec_same in Hrun by assumption.
    unfold vec_fill. rewrite Hrun.
    assert (v' = replicate (Z.to_nat D) value) as ->; [|reflexivity].
    apply (list_eq_upto _ _ D); [assumption | rewrite length_replicate; lia |].
    intros i Hi. rewrite Hall by assumption.
    symmetry. apply lookup_replicate_2. lia.
Qed.

(** [same_type local = *this;], then [body]. *)
Lemma vec_copy_sole {A} this (body : vref -> M A) (u v2 : list T) a
    (h : @heap T) :
  lookup_vec this h = Some u ->
  body (VObj (length (vecs h) + 0)) (ext h [u] []) = Ret (a, ext h [v2] []) ->
  vec_copy this body (ext h [] []) = Ret (a, ext h [] []).
Proof.
  intros Hu Hbody. unfold vec_copy.
  eapply bind_eval; [eapply load_base; exact Hu|].
  etransitivity; [eapply local_vec_ext; exact Hbody | reflexivity].
Qed.

(** The members that copy [*this] and overwrite every element. *)
Lemma vec_pointwise D this (body : vref -> Z -> M unit) (g : Z -> T)
    (u : list T) (h : @heap T) :
  lookup_vec this h = Some u -> Z.of_nat (length u) = D ->
  (forall i v, 0 <= i < D -> Z.of_nat (length v) = D ->
      body (VObj (length (vecs h) + 0)) i (ext h [v] [])
      = Ret (tt, ext h [<[Z.to_nat i := g i]> v] [])) ->
  exists r,
    vec_copy this (fun loc => for_each 0 D (body loc);; load loc) h = Ret (r, h) /\
    Z.of_nat (length r) = D /\
    forall i, 0 <= i < D -> r !! Z.to_nat i = Some (g i).
Proof.
  intros Hu Hl Hbody.
  destruct (vec_write_loop h D g (body (VObj (length (vecs h) + 0))) u Hl Hbody)
    as (r & Hrun & Hlr & Hr).
  exists r. split; [|split; assumption].
  rewrite <- (ext_nil h). eapply vec_copy_sole; [exact Hu|].
  eapply bind_eval; [exact Hrun|]. now apply load_local.
Qed.

Lemma vec_add_zip D this rhs (u v : list T) (h : @heap T) :
  lookup_vec this h = Some u -> lookup_vec rhs h = Some v ->
  Z.of_nat (length u) = D -> Z.of_nat (length v) = D ->
  vec_add D this rhs h = Ret (zip_with sadd u v, h) /\
  vec_sub D this rhs h = Ret (zip_with ssub u v, h).
Proof.
  intros Hu Hv Lu Lv.
  assert (Hgen : forall op : T -> T -> T,
    vec_copy this (fun loc => for_each 0 D (fun i =>
        let* a := vec_get D this i in
        let* b := vec_get D rhs i in
        vec_set D loc i (op a b));; load loc) h
    = Ret (zip_with op u v, h)).
  { intros op.
    destruct (vec_pointwise D this
                (fun loc i => let* a := vec_get D this i in
                              let* b := vec_get D rhs i in
                              vec_set D loc i (op a b))
                (fun i => op (default s0 (u !! Z.to_nat i))
                             (default s0 (v !! Z.to_nat i))) u h Hu Lu)
      as (r & Hrun & Hlr & Hr).
    - intros i w Hi Hw.
      destruct (lookup_lt_is_Some_2 u (Z.to_nat i)) as [a Ha]; [lia|].
      destruct (lookup_lt_is_Some_2 v (Z.to_nat i)) as [b Hb]; [lia|].
      rewrite Ha, Hb. simpl.
      eapply bind_eval;
        [eapply vec_get_base; eauto; apply is_index_true; lia|].
      eapply bind_eval;
        [eapply vec_get_base; eauto; apply is_index_true; lia|].
      now apply vec_set_sole.
    - rewrite Hrun. assert (r = zip_with op u v) as ->; [|reflexivity].
      apply (list_eq_upto _ _ D); [assumption | rewrite length_zip_with; lia |].
      intros i Hi. rewrite (Hr i Hi), lookup_zip_with.
      destruct (lookup_lt_is_Some_2 u (Z.to_nat i)) as [a Ha]; [lia|].
      destruct (lookup_lt_is_Some_2 v (Z.to_nat i)) as [b Hb]; [lia|].
      now rewrite Ha, Hb. }
  split; apply Hgen.
Qed.

Lemma vec_map_copy D this (f : T -> T) (u : list T) (h : @heap T) :
  lookup_vec this h = Some u -> Z.of_nat (length u) = D ->
  vec_copy this (fun loc => for_each 0 D (fun i =>
      let* a := vec_get D this i in
      vec_set D loc i (f a));; load loc) h
  = Ret (map f u, h).
Proof.
  intros Hu Lu.
  destruct (vec_pointwise D this
              (fun loc i => let* a := vec_get D this i in vec_set D loc i (f a))
              (fun i => f (default s0 (u !! Z.to_nat i))) u h Hu Lu)
    as (r & Hrun & Hlr & Hr).
  - intros i w Hi Hw.
    destruct (lookup_lt_is_Some_2 u (Z.to_nat i)) as [a Ha]; [lia|].
    rewrite Ha. simpl.
    eapply bind_eval;
      [eapply vec_get_base; eauto; apply is_index_true; lia|].
    now apply vec_set_sole.
  - rewrite Hrun. assert (r = map f u) as ->; [|reflexivity].
    apply (list_eq_upto _ _ D); [assumption | rewrite length_map; lia |].
    intros i Hi. rewrite (Hr i Hi), list_lookup_fmap.
    destruct (lookup_lt_is_Some_2 u (Z.to_nat i)) as [a Ha]; [lia|].
    now rewrite Ha.
Qed.

Lemma vec_neg_map D this (u : list T) (h : @heap T) :
  lookup_vec this h = Some u -> Z.of_nat (length u) = D ->
  vec_neg D this h = Ret (map (ssub s0) u, h).
Proof. apply vec_map_copy. Qed.

Lemma vec_scale_map D this x (u : list T) (h : @heap T) :
  lookup_vec this h = Some u -> Z.of_nat (length u) = D ->
  vec_scale D this x h = Ret (map (smul x) u, h).
Proof. apply vec_map_copy. Qed.

End VectorMembers.

(** ** Loops that stop, loops that search *)

Section Control.

Context {T : Type} {ST : Scalar T}.

Lemma for_loop_split {X} n m i (body : Z -> X -> M X) s (h : @heap T) :
  for_loop (n + m) i body s h
  = bind (for_loop n i body s) (for_loop m (i + Z.of_nat n) body) h.
Proof.
  revert i s h. induction n as [|n IH]; intros i s h.
  - simpl. unfold bind, ret. now rewrite Z.add_0_r.
  - change (S n + m)%nat with (S (n + m)). simpl for_loop. unfold bind at 1 2 3.
    destruct (body i s h) as [[s' h']| | |]; try reflexivity.
    rewrite IH. unfold bind. now replace (i + 1 + Z.of_nat n) with (i + Z.of_nat (S n)) by lia.
Qed.

Lemma for_each_split lo k hi (body : Z -> M unit) (h : @heap T) :
  lo <= k <= hi ->
  for_each lo hi body h
  = bind (for_each lo k body) (fun _ => for_each k hi body) h.
Proof.
  intros Hk. unfold for_each, for_range.
  replace (Z.to_nat (hi - lo)) with (Z.to_nat (k - lo) + Z.to_nat (hi - k))%nat by lia.
  rewrite for_loop_split. apply bind_ext; [reflexivity|].
  intros [] h1. now replace (lo + Z.of_nat (Z.to_nat (k - lo))) with k by lia.
Qed.

(** The loop leaves the function where its body does. *)
Lemma for_each_fails_at lo k hi (body : Z -> M unit) (h h1 : @heap T) o :
  lo <= k < hi ->
  for_each lo k body h = Ret (tt, h1) ->
  body k h1 = o -> (forall x, o <> Ret x) ->
  for_each lo hi body h = o.
Proof.
  intros Hk Hpre Hbody Ho. rewrite (for_each_split lo k hi) by lia.
  eapply bind_eval; [exact Hpre|].
  unfold for_each, for_range.
  replace (Z.to_nat (hi - k)) with (S (Z.to_nat (hi - k - 1))) by lia.
  simpl. unfold bind. rewrite Hbody.
  destruct o as [x| | |]; [now destruct (Ho x eq_refl) | reflexivity ..].
Qed.

(** A loop whose body returns [r] where [t] holds and goes on otherwise. *)
Lemma for_return_scan {R} lo hi (body : Z -> M (option R)) (t : Z -> bool)
    (r : R) (h : @heap T) :
  (forall i, lo <= i < hi -> body i h = Ret (if t i then Some r else None, h)) ->
  exists b : bool, for_return lo hi body h = Ret (if b then Some r else None, h) /\
            (b = true <-> exists i, lo <= i < hi /\ t i = true).
Proof.
  intros Hbody. unfold for_return.
  assert (Hgen : forall n i, lo <= i -> i + Z.of_nat n <= Z.max lo hi ->
    exists b : bool, for_return_loop n i body h = Ret (if b then Some r else None, h) /\
              (b = true <-> exists k, i <= k < i + Z.of_nat n /\ t k = true)).
  { induction n as [|n IH]; intros i Hi Hn.
    - exists false. split; [reflexivity|]. split; [discriminate|].
      intros (k & Hk & _). lia.
    - simpl for_return_loop. destruct (t i) eqn:Et.
      + exists true. split.
        * eapply bind_eval; [apply Hbody; lia|]. now rewrite Et.
        * split; [|reflexivity]. intros _. exists i. split; [lia | assumption].
      + destruct (IH (i + 1)) as (b & Hrun & Hb); [lia | lia |].
        exists b. split.
        * eapply bind_eval; [apply Hbody; lia|]. now rewrite Et.
        * rewrite Hb. split; intros (k & Hk & Htk); exists k; (split; [|assumption]).
          -- lia.
          -- assert (k <> i) by (intros ->; congruence). lia. }
  destruct (Hgen (Z.to_nat (hi - lo)) lo) as (b & Hrun & Hb); [lia | lia |].
  exists b. split; [assumption|]. rewrite Hb.
  split; intros (k & Hk & Htk); exists k; (split; [lia | assumption]).
Qed.

Lemma local_vec_pure {A} init (body : vref -> M A) a (h : @heap T) :
  body (VObj (length (vecs h))) (Heap (vecs h ++ [init]) (mats h))
  = Ret (a, Heap (vecs h ++ [init]) (mats h)) ->
  local_vec init body h = Ret (a, h).
Proof.
  intros Hb. unfold local_vec. rewrite Hb. simpl.
  rewrite take_app_length. now destruct h.
Qed.

Lemma local_mat_pure {A} init (body : nat -> M A) a (h : @heap T) :
  body (length (mats h)) (Heap (vecs h) (mats h ++ [init]))
  = Ret (a, Heap (vecs h) (mats h ++ [init])) ->
  local_mat init body h = Ret (a, h).
Proof.
  intros Hb. unfold local_mat. rewrite Hb. simpl.
  rewrite take_app_length. now destruct h.
Qed.

End Control.

(** ** Vectors: comparison, products, parts *)

Section VectorResults.

Context {T : Type} {ST : Scalar T}.

(** The elements of [u] and [v] are pairwise [==]. *)
Definition same_elements (u v : list T) : Prop :=
  forall i x y, u !! i = Some x -> v !! i = Some y -> seqb y x = true.

Lemma vec_eq_ne_scan D this rhs (u v : list T) (r : bool) (h : @heap T) :
  lookup_vec this h = Some u -> lookup_vec rhs h = Some v ->
  Z.of_nat (length u) = D -> Z.of_nat (length v) = D ->
  exists b : bool,
    for_return 0 D (fun i =>
        let* a := vec_get D rhs i in
        let* b := vec_get D this i in
        if sneq a b then ret (Some r) else ret None) h
    = Ret (if b then Some r else None, h) /\
    (b = false <-> same_elements u v).
Proof.
  intros Hu Hv Lu Lv.
  destruct (for_return_scan 0 D
              (fun i => let* a := vec_get D rhs i in
                        let* b := vec_get D this i in
                        if sneq a b then ret (Some r) else ret None)
              (fun i => sneq (default s0 (v !! Z.to_nat i))
                             (default s0 (u !! Z.to_nat i))) r h)
    as (b & Hrun & Hb).
  - intros i Hi.
    destruct (lookup_lt_is_Some_2 u (Z.to_nat i)) as [x Hx]; [lia|].
    destruct (lookup_lt_is_Some_2 v (Z.to_nat i)) as [y Hy]; [lia|].
    rewrite Hx, Hy. simpl.
    eapply bind_eval; [eapply vec_get_eval; eauto; apply is_index_true; lia|].
    eapply bind_eval; [eapply vec_get_eval; eauto; apply is_index_true; lia|].
    now destruct (sneq y x).
  - exists b. split; [assumption|]. split.
    + intros -> i x y Hx Hy.
      destruct (seqb y x) eqn:E; [reflexivity|].
      assert (false = true) as [=]. apply Hb.
      exists (Z.of_nat i). rewrite Nat2Z.id, Hx, Hy. simpl.
      split; [|unfold sneq; now rewrite E].
      apply lookup_lt_Some in Hx. lia.
    + intros Hsame. destruct b; [|reflexivity].
      destruct (proj1 Hb eq_refl) as (i & Hi & Hne).
      destruct (lookup_lt_is_Some_2 u (Z.to_nat i)) as [x Hx]; [lia|].
      destruct (lookup_lt_is_Some_2 v (Z.to_nat i)) as [y Hy]; [lia|].
      rewrite Hx, Hy in Hne. simpl in Hne. unfold sneq in Hne.
      now rewrite (Hsame _ _ _ Hx Hy) in Hne.
Qed.

Lemma vec_eq_ne_result D this rhs (u v : list T) (h : @heap T) :
  lookup_vec this h = Some u -> lookup_vec rhs h = Some v ->
  Z.of_nat (length u) = D -> Z.of_nat (length v) = D ->
  exists e,
    vec_eq D this rhs h = Ret (e, h) /\
    vec_ne D this rhs h = Ret (negb e, h) /\
    (e = true <-> same_elements u v).
Proof.
  intros Hu Hv Lu Lv.
  destruct (vec_eq_ne_scan D this rhs u v false h Hu Hv Lu Lv) as (b1 & H1 & Hb1).
  destruct (vec_eq_ne_scan D this rhs u v true h Hu Hv Lu Lv) as (b2 & H2 & Hb2).
  assert (b2 = b1) as ->.
  { destruct b1, b2; try reflexivity.
    - symmetry. apply Hb1, Hb2. reflexivity.
    - apply Hb2, Hb1. reflexivity. }
  exists (negb b1). split; [|split].
  - unfold vec_eq, vec_dimension.
    do 2 (eapply bind_eval; [reflexivity|]). rewrite Z.eqb_refl. simpl.
    eapply bind_eval; [exact H1|]. now destruct b1.
  - unfold vec_ne, vec_dimension.
    do 2 (eapply bind_eval; [reflexivity|]). rewrite Z.eqb_refl. simpl.
    eapply bind_eval; [exact H2|]. now destruct b1.
  - rewrite <- Hb1. now destruct b1.
Qed.

(** The sum the dot-product loop accumulates. *)
Definition dot_sum (u v : list T) : T :=
  fold_left (fun acc p => sadd acc (smul p.1 p.2)) (zip u v) s0.

Lemma dot_loop h D this rhs (u v : list T) :
  lookup_vec this h = Some u -> lookup_vec rhs h = Some v ->
  Z.of_nat (length u) = D -> Z.of_nat (length v) = D ->
  forall n i acc, 0 <= i -> i + Z.of_nat n = D ->
    for_loop n i (fun i dot =>
                    let* a := vec_get D this i in
                    let* b := vec_get D rhs i in
                    ret (sadd dot (smul a b))) acc h
    = Ret (fold_left (fun acc p => sadd acc (smul p.1 p.2))
                     (zip (drop (Z.to_nat i) u) (drop (Z.to_nat i) v)) acc, h).
Proof.
  intros Ht Hr Lu Lv. induction n as [|n IH]; intros i acc Hi Hn.
  - rewrite (drop_ge u) by lia. reflexivity.
  - destruct (lookup_lt_is_Some_2 u (Z.to_nat i)) as [x Hx]; [lia|].
    destruct (lookup_lt_is_Some_2 v (Z.to_nat i)) as [y Hy]; [lia|].
    rewrite (drop_S _ _ _ Hx), (drop_S _ _ _ Hy). simpl.
    eapply bind_eval.
    + eapply bind_eval; [eapply vec_get_eval; eauto; apply is_index_true; lia|].
      eapply bind_eval; [eapply vec_get_eval; eauto; apply is_index_true; lia|].
      reflexivity.
    + rewrite IH by lia. now rewrite to_nat_succ.
Qed.

Lemma vec_dot_sum h D this rhs (u v : list T) :
  lookup_vec this h = Some u -> lookup_vec rhs h = Some v ->
  Z.of_nat (length u) = D -> Z.of_nat (length v) = D ->
  vec_dot D this rhs h = Ret (dot_sum u v, h).
Proof.
  intros Ht Hr Lu Lv. unfold vec_dot, for_range.
  rewrite (dot_loop h D this rhs u v Ht Hr Lu Lv) by lia. reflexivity.
Qed.

Lemma dot_sum_comm `{!ScalarLaws T} (u v : list T) : dot_sum u v = dot_sum v u.
Proof.
  unfold dot_sum. generalize (s0 : T) as acc. revert v.
  induction u as [|x u IH]; intros [|y v] acc; simpl; try reflexivity.
  rewrite (smul_comm x y). apply IH.
Qed.

(** A loop that writes [g i] at the indices below [n] of the one local. *)
Lemma vec_write_prefix h R n (g : Z -> T) (body : Z -> M unit) (v0 : list T) :
  Z.of_nat (length v0) = R -> 0 <= n <= R ->
  (forall i v, 0 <= i < n -> Z.of_nat (length v) = R ->
      body i (ext h [v] []) = Ret (tt, ext h [<[Z.to_nat i := g i]> v] [])) ->
  exists v',
    for_each 0 n body (ext h [v0] []) = Ret (tt, ext h [v'] []) /\
    Z.of_nat (length v') = R /\
    (forall i, 0 <= i < n -> v' !! Z.to_nat i = Some (g i)) /\
    (forall k, (Z.to_nat n <= k)%nat -> v' !! k = v0 !! k).
Proof.
  intros Hl Hn Hbody.
  destruct (for_each_inv
              (fun i h1 => exists v, h1 = ext h [v] [] /\ Z.of_nat (length v) = R /\
                 (forall k, 0 <= k < i -> v !! Z.to_nat k = Some (g k)) /\
                 (forall k, (Z.to_nat i <= k)%nat -> v !! k = v0 !! k))
              0 n body (ext h [v0] []))
    as (h' & Hrun & v' & -> & Hl' & Hlow & Hhigh); [lia | | |].
  - exists v0. split; [reflexivity|]. split; [assumption|].
    split; [intros; lia | reflexivity].
  - intros i h1 Hi (v & -> & Hlv & Hlow & Hhigh).
    eexists. split; [apply Hbody; [lia | assumption]|].
    eexists. split; [reflexivity|]. split; [now rewrite length_insert|]. split.
    + intros k Hk. destruct (decide (k = i)) as [->|Hne].
      * rewrite list_lookup_insert_eq by lia. reflexivity.
      * rewrite list_lookup_insert_ne by lia. apply Hlow. lia.
    + intros k Hk. rewrite list_lookup_insert_ne by lia. apply Hhigh. lia.
  - exists v'. repeat split; assumption.
Qed.

End VectorResults.

(** ** Vectors: parts, quotients *)

Section VectorParts.

Context {T : Type} {ST : Scalar T}.

(** The loop shared by [subvector] and [shrink], on a fresh local. *)
Lemma vec_slice_loop D R this start (u : list T) (h : @heap T) :
  lookup_vec this h = Some u -> Z.of_nat (length u) = D ->
  0 <= R -> 0 <= start -> start + R <= D ->
  vec_new R s0 (fun part =>
    for_each 0 R (fun i =>
      let* a := vec_get D this (start + i) in
      vec_set R part i a);;
    load part) h
  = Ret (take (Z.to_nat R) (drop (Z.to_nat start) u), h).
Proof.
  intros Hu Lu HR Hs Hfit.
  destruct (vec_write_loop h R (fun i => default s0 (u !! Z.to_nat (start + i)))
              (fun i => let* a := vec_get D this (start + i) in
                        vec_set R (VObj (length (vecs h) + 0)) i a)
              (replicate (Z.to_nat R) s0))
    as (r & Hrun & Lr & Hr).
  { rewrite length_replicate. lia. }
  { intros i v Hi Hv.
    destruct (lookup_lt_is_Some_2 u (Z.to_nat (start + i))) as [x Hx]; [lia|].
    rewrite Hx. simpl.
    eapply bind_eval;
      [eapply vec_get_base; eauto; apply is_index_true; lia|].
    now apply vec_set_sole. }
  assert (r = take (Z.to_nat R) (drop (Z.to_nat start) u)) as <-.
  { apply (list_eq_upto _ _ R); [assumption | |].
    - rewrite length_take, length_drop. lia.
    - intros i Hi. rewrite (Hr i Hi).
      rewrite lookup_take_lt by lia. rewrite lookup_drop.
      replace (Z.to_nat start + Z.to_nat i)%nat with (Z.to_nat (start + i)) by lia.
      destruct (lookup_lt_is_Some_2 u (Z.to_nat (start + i))) as [x Hx]; [lia|].
      now rewrite Hx. }
  rewrite <- (ext_nil h). eapply vec_new_sole; [assumption|].
  eapply bind_eval; [exact Hrun|]. now apply load_local.
Qed.

Lemma vec_subvector_slice D R this start (u : list T) (h : @heap T) :
  lookup_vec this h = Some u -> Z.of_nat (length u) = D ->
  0 <= R <= D -> 0 <= start -> 0 <= start + R - 1 < D ->
  vec_subvector D R this start h
  = Ret (take (Z.to_nat R) (drop (Z.to_nat start) u), h).
Proof.
  intros Hu Lu HR Hs Hfit. unfold vec_subvector.
  replace (0 <=? R) with true by lia. replace (R <=? D) with true by lia.
  do 2 (eapply bind_eval; [reflexivity|]).
  eapply bind_eval; [apply assert_eval, is_index_true; lia|].
  apply vec_slice_loop; auto; lia.
Qed.

Lemma vec_subvector_aborts D R this start (h : @heap T) :
  0 <= R <= D -> ~ (0 <= start /\ 0 <= start + R - 1 < D) ->
  vec_subvector D R this start h = Abort.
Proof.
  intros HR Hfit. unfold vec_subvector.
  replace (0 <=? R) with true by lia. replace (R <=? D) with true by lia.
  do 2 (eapply bind_eval; [reflexivity|]).
  destruct (is_index D (start + R - 1)) eqn:E; [|reflexivity].
  apply is_index_true in E.
  eapply bind_eval; [reflexivity|].
  rewrite <- (ext_nil h). unfold vec_new. apply local_vec_abort.
  eapply bind_eval.
  { apply vec_fill_sole. rewrite length_replicate. lia. }
  apply bind_abort.
  apply for_each_abort_at with (k := 0); [lia | intros; lia |].
  apply bind_abort. apply vec_get_abort. lia.
Qed.

Lemma vec_shrink_take D R this (u : list T) (h : @heap T) :
  lookup_vec this h = Some u -> Z.of_nat (length u) = D ->
  0 <= R < D ->
  vec_shrink D R this h = Ret (take (Z.to_nat R) u, h).
Proof.
  intros Hu Lu HR. unfold vec_shrink.
  replace (0 <=? R) with true by lia. replace (R <? D) with true by lia.
  do 2 (eapply bind_eval; [reflexivity|]).
  exact (vec_slice_loop D R this 0 u h Hu Lu ltac:(lia) ltac:(lia) ltac:(lia)).
Qed.

Lemma vec_grow_app D R this d (u : list T) (h : @heap T) :
  lookup_vec this h = Some u -> Z.of_nat (length u) = D ->
  D < R ->
  vec_grow D R this d h = Ret (u ++ replicate (Z.to_nat (R - D)) d, h).
Proof.
  intros Hu Lu HR. unfold vec_grow.
  replace (R >? D) with true by lia.
  eapply bind_eval; [reflexivity|].
  destruct (vec_write_prefix h R D (fun i => default s0 (u !! Z.to_nat i))
              (fun i => let* a := vec_get D this i in
                        vec_set R (VObj (length (vecs h) + 0)) i a)
              (replicate (Z.to_nat R) d))
    as (r & Hrun & Lr & Hlow & Hhigh).
  { rewrite length_replicate. lia. }
  { lia. }
  { intros i v Hi Hv.
    destruct (lookup_lt_is_Some_2 u (Z.to_nat i)) as [x Hx]; [lia|].
    rewrite Hx. simpl.
    eapply bind_eval;
      [eapply vec_get_base; eauto; apply is_index_true; lia|].
    apply vec_set_sole; lia. }
  assert (r = u ++ replicate (Z.to_nat (R - D)) d) as <-.
  { apply list_eq. intros k.
    destruct (decide (k < length u)%nat) as [Hk|Hk].
    - rewrite lookup_app_l by assumption.
      specialize (Hlow (Z.of_nat k)). rewrite Nat2Z.id in Hlow.
      rewrite Hlow by lia.
      destruct (lookup_lt_is_Some_2 u k) as [x Hx]; [lia|]. now rewrite Hx.
    - rewrite lookup_app_r by lia. rewrite Hhigh by lia.
      destruct (decide (k < Z.to_nat R)%nat) as [Hk2|Hk2].
      + transitivity (Some d);
          [apply lookup_replicate_2 | symmetry; apply lookup_replicate_2]; lia.
      + transitivity (@None T);
          [apply lookup_replicate_None | symmetry; apply lookup_replicate_None];
          lia. }
  rewrite <- (ext_nil h). eapply vec_new_sole; [lia|].
  unfold vec_dimension. eapply bind_eval; [reflexivity|].
  eapply bind_eval; [exact Hrun|]. now apply load_local.
Qed.

(** [v.grow<R>(d).shrink<D>()]: the grown vector is a temporary. *)
Definition grow_then_shrink (DIMENSION RESULT_DIMENSION : Z) (this : vref)
    (default_value : T) : M (list T) :=
  let* higher := vec_grow DIMENSION RESULT_DIMENSION this default_value in
  local_vec higher (fun tmp => vec_shrink RESULT_DIMENSION DIMENSION tmp).

Lemma lookup_vec_top (v : list T) (h : @heap T) :
  lookup_vec (VObj (length (vecs h))) (Heap (vecs h ++ [v]) (mats h)) = Some v.
Proof. simpl. now rewrite lookup_app_r, Nat.sub_diag by lia. Qed.

Lemma local_vec_undefined {A} init (body : vref -> M A) (h : @heap T) lv lm :
  body (VObj (length (vecs h) + length lv)) (ext h (lv ++ [init]) lm) = Undefined ->
  local_vec init body (ext h lv lm) = Undefined.
Proof.
  intros Hb. unfold local_vec. simpl vecs. simpl mats.
  rewrite length_app, <- app_assoc.
  change (Heap (vecs h ++ lv ++ [init]) (mats h ++ lm))
    with (ext h (lv ++ [init]) lm).
  now rewrite Hb.
Qed.

(** The loop shared by [operator/] and [normalize]: it stops at the first
    quotient the scalar type does not define. *)
Lemma quotient_loop D this rhs (u : list T) (h : @heap T) :
  lookup_vec this h = Some u -> Z.of_nat (length u) = D ->
  forall n i w, 0 <= i -> i + Z.of_nat n = D -> Z.of_nat (length w) = D ->
    for_loop n i (fun i (_ : unit) =>
        let* a := vec_get D this i in
        let* q := divide a rhs in
        vec_set D (VObj (length (vecs h) + 0)) i q) tt (ext h [w] [])
    = match mapM (fun a => sdiv a rhs) (drop (Z.to_nat i) u) with
      | Some qs => Ret (tt, ext h [take (Z.to_nat i) w ++ qs] [])
      | None => Undefined
      end.
Proof.
  intros Hu Lu. induction n as [|n IH]; intros i w Hi Hn Hw.
  - rewrite drop_ge by lia. simpl. rewrite take_ge by lia.
    now rewrite app_nil_r.
  - destruct (lookup_lt_is_Some_2 u (Z.to_nat i)) as [x Hx]; [lia|].
    rewrite (drop_S _ _ _ Hx). simpl for_loop. simpl mapM.
    destruct (sdiv x rhs) as [q|] eqn:Eq.
    + eapply bind_eval.
      { eapply bind_eval;
          [eapply vec_get_base; eauto; apply is_index_true; lia|].
        eapply bind_eval; [apply divide_eval; exact Eq|].
        apply vec_set_sole; [assumption | lia]. }
      rewrite IH by (rewrite ?length_insert; lia).
      rewrite to_nat_succ by lia. simpl.
      destruct (mapM (fun a => sdiv a rhs) (drop (S (Z.to_nat i)) u)) as [qs|];
        [|reflexivity].
      simpl. do 3 f_equal.
      destruct (lookup_lt_is_Some_2 w (Z.to_nat i)) as [y Hy]; [lia|].
      rewrite (take_S_r _ _ q) by (rewrite list_lookup_insert_eq by lia; reflexivity).
      rewrite take_insert_ge by lia. now rewrite <- app_assoc.
    + apply bind_undefined. eapply bind_eval;
        [eapply vec_get_base; eauto; apply is_index_true; lia|].
      apply bind_undefined. unfold divide. now rewrite Eq.
Qed.

Lemma vec_div_outcome D this rhs (u : list T) (h : @heap T) :
  lookup_vec this h = Some u -> Z.of_nat (length u) = D ->
  vec_div D this rhs h
  = match mapM (fun a => sdiv a rhs) u with
    | Some qs => Ret (qs, h)
    | None => Undefined
    end.
Proof.
  intros Hu Lu. rewrite <- (ext_nil h) at 1. unfold vec_div, vec_copy.
  eapply bind_eval; [eapply load_base; exact Hu|].
  pose proof (quotient_loop D this rhs u h Hu Lu (Z.to_nat D) 0 u) as Hloop.
  change (Z.to_nat 0) with O in Hloop. rewrite drop_0, take_0 in Hloop.
  destruct (mapM (fun a => sdiv a rhs) u) as [qs|].
  - rewrite <- (ext_nil h) at 2.
    etransitivity; [|reflexivity].
    eapply local_vec_ext with (lv := []) (lv2 := [qs]).
    eapply bind_eval.
    + unfold for_each, for_range. rewrite Z.sub_0_r. apply Hloop; lia.
    + now apply load_local.
  - apply local_vec_undefined. apply bind_undefined.
    unfold for_each, for_range. rewrite Z.sub_0_r. apply Hloop; lia.
Qed.

Lemma vec_magnitude_sqrt D this (u : list T) (h : @heap T) :
  lookup_vec this h = Some u -> Z.of_nat (length u) = D ->
  vec_magnitude D this h = Ret (ssqrt (sum_of_squares u), h).
Proof.
  intros Hu Lu. unfold vec_magnitude, for_range.
  eapply bind_eval; [eapply (square_loop h D this this u); eauto; lia|].
  reflexivity.
Qed.

Lemma vec_normalize_outcome D this (u : list T) (h : @heap T) :
  lookup_vec this h = Some u -> Z.of_nat (length u) = D ->
  vec_normalize D this h
  = match mapM (fun a => sdiv a (ssqrt (sum_of_squares u))) u with
    | Some qs => Ret (qs, h)
    | None => Undefined
    end.
Proof.
  intros Hu Lu. rewrite <- (ext_nil h) at 1. unfold vec_normalize, vec_copy.
  eapply bind_eval; [eapply load_base; exact Hu|].
  pose proof (quotient_loop D this (ssqrt (sum_of_squares u)) u h Hu Lu
                (Z.to_nat D) 0 u) as Hloop.
  change (Z.to_nat 0) with O in Hloop. rewrite drop_0, take_0 in Hloop.
  assert (Hmag : for_range 0 D (fun i mag =>
                   let* a := vec_get D this i in
                   let* b := vec_get D this i in
                   ret (sadd mag (smul a b))) s0 (ext h [u] [])
                 = Ret (sum_of_squares u, ext h [u] [])).
  { unfold for_range.
    erewrite (square_loop (ext h [u] []) D this this u);
      eauto using lookup_vec_base; lia. }
  destruct (mapM (fun a => sdiv a (ssqrt (sum_of_squares u))) u) as [qs|].
  - rewrite <- (ext_nil h) at 2.
    etransitivity; [|reflexivity].
    eapply local_vec_ext with (lv := []) (lv2 := [qs]).
    eapply bind_eval; [exact Hmag|].
    eapply bind_eval.
    + unfold for_each, for_range. rewrite Z.sub_0_r. apply Hloop; lia.
    + now apply load_local.
  - apply local_vec_undefined.
    eapply bind_eval; [exact Hmag|]. apply bind_undefined.
    unfold for_each, for_range. rewrite Z.sub_0_r. apply Hloop; lia.
Qed.

End VectorParts.

#[export] Instance vref_eq_dec : EqDecision vref.
Proof. solve_decision. Defined.

Section References.

Context {T : Type} {ST : Scalar T}.

Lemma lookup_update_vec_ne r r' (v : list T) (h : @heap T) :
  r <> r' -> lookup_vec r (update_vec r' v h) = lookup_vec r h.
Proof.
  intros Hne. destruct r as [l|m i], r' as [l'|m' i']; simpl.
  - apply list_lookup_insert_ne. congruence.
  - now destruct (mats h !! m').
  - reflexivity.
  - destruct (mats h !! m') as [rows|] eqn:Hm'; [|reflexivity]. simpl.
    destruct (decide (m = m')) as [->|Hm].
    + rewrite list_lookup_insert_eq by (eapply lookup_lt_Some; eauto).
      rewrite Hm'. apply list_lookup_insert_ne. congruence.
    + now rewrite list_lookup_insert_ne by congruence.
Qed.

Lemma same_elements_refl `{!ScalarLaws T} (v : list T) : same_elements v v.
Proof. intros i x y Hx Hy. rewrite Hx in Hy. injection Hy as <-. apply seqb_refl. Qed.

End References.

Lemma same_elements_int (u v : list Z) :
  length u = length v -> same_elements u v <-> u = v.
Proof.
  intros Hl. split; [|intros ->; apply same_elements_refl].
  intros Hs. apply list_eq. intros i.
  destruct (u !! i) as [x|] eqn:Hx.
  - destruct (lookup_lt_is_Some_2 v i) as [y Hy].
    { apply lookup_lt_Some in Hx. lia. }
    rewrite Hy. f_equal. specialize (Hs i x y Hx Hy). simpl in Hs. lia.
  - symmetry. apply lookup_ge_None. apply lookup_ge_None in Hx. lia.
Qed.

Lemma sum_of_squares_int (u : list Z) :
  0 <= sum_of_squares u /\ (sum_of_squares u = 0 <-> Forall (fun x => x = 0) u).
Proof.
  change (sum_of_squares u) with (fold_left (fun a x : Z => a + x * x) u 0).
  assert (Hgen : forall acc, 0 <= acc ->
    acc <= fold_left (fun a x : Z => a + x * x) u acc /\
    (fold_left (fun a x : Z => a + x * x) u acc = 0
     <-> acc = 0 /\ Forall (fun x => x = 0) u)).
  { induction u as [|x u IH]; intros acc Hacc; simpl.
    - split; [lia|]. split; [intros ->; split; [reflexivity | constructor] | tauto].
    - destruct (IH (acc + x * x)) as [Hle Hiff]; [nia|].
      split; [nia|]. rewrite Hiff. split.
      + intros [E Hall]. split; [nia|]. constructor; [nia | assumption].
      + intros (-> & Hall). inversion Hall; subst. split; [reflexivity | assumption]. }
  destruct (Hgen 0 ltac:(lia)) as [Hle Hiff]. split; [assumption|].
  rewrite Hiff. tauto.
Qed.

(** The values of the type [int]. *)
Definition is_int (z : Z) : Prop := INT_MIN <= z <= INT_MAX.

Lemma sdiv_int (a d : Z) :
  d <> 0 -> (d = -1 -> a <> INT_MIN) -> sdiv a d = Some (Z.quot a d).
Proof.
  intros Hd Hmin. cbn [sdiv int_scalar].
  destruct (Z.eqb_spec d 0) as [|_]; [contradiction|].
  destruct (Z.eqb_spec a INT_MIN) as [Ea|_]; [|reflexivity].
  destruct (Z.eqb_spec d (-1)) as [Ed|_]; [|reflexivity].
  now destruct (Hmin Ed).
Qed.

Lemma sdiv_int_min : sdiv INT_MIN (-1) = None.
Proof. reflexivity. Qed.

Lemma mapM_quot_int (rhs : Z) (u : list Z) :
  rhs <> 0 -> (rhs = -1 -> Forall (fun a => a <> INT_MIN) u) ->
  mapM (fun a => sdiv a rhs) u = Some (map (fun a => Z.quot a rhs) u).
Proof.
  intros Hr Hmin. apply mapM_Some. apply Forall2_fmap_r, Forall_Forall2_diag.
  apply Forall_forall. intros x Hx. apply sdiv_int; [assumption|].
  intros E. specialize (Hmin E). rewrite Forall_forall in Hmin. now apply Hmin.
Qed.

Lemma mapM_quot_0 (u : list Z) :
  u <> [] -> mapM (fun a => sdiv a 0) u = None.
Proof. destruct u as [|x u]; [congruence | reflexivity]. Qed.

Lemma vec_div_undefined {T} {ST : Scalar T} D this (rhs : T) (u : list T)
    (h : @heap T) :
  lookup_vec this h = Some u -> Z.of_nat (length u) = D ->
  Exists (fun a => sdiv a rhs = None) u -> vec_div D this rhs h = Undefined.
Proof.
  intros Hu Lu Hex. rewrite (vec_div_outcome D this rhs u h Hu Lu).
  destruct (mapM (fun a => sdiv a rhs) u) as [qs|] eqn:E; [|reflexivity].
  apply mapM_Some in E. apply Exists_exists in Hex as (a & Ha & Hnone).
  apply list_elem_of_In, list_elem_of_lookup in Ha as [i Hi].
  destruct (Forall2_lookup_l _ _ _ _ _ E Hi) as (q & _ & Hq). congruence.
Qed.


(** X1: the initializer-list constructor of [vector] takes the first
    DIMENSION values of the list in order, ignores the rest, and sets the
    elements the list does not reach to 0: element i is il[i] if the list has
    one, 0 otherwise, and the vector has DIMENSION elements. *)
Theorem vec_init_pads_and_truncates (T : Type) (ST : Scalar T) (D : Z)
    (il : list T) :
  vec_init D il
  = take (Z.to_nat D) il ++ replicate (Z.to_nat D - length il) s0 /\
  length (vec_init D il) = Z.to_nat D /\
  (forall i, (i < Z.to_nat D)%nat ->
             vec_init D il !! i = Some (default s0 (il !! i))).
Proof.
  unfold vec_init. split; [apply init_elements_fst|].
  split; [apply init_elements_length|].
  intros i Hi. now apply init_elements_lookup.
Qed.

(** X2: [operator[]] of [vector] asserts 0 <= i < DIMENSION (outside it both
    the read and the write abort) and otherwise names element i of the object
    itself: after [v[i] = x] a read of [v[j]] gives x for j = i and the old
    element for every other index, and every other object of the store is as
    it was. *)
Theorem vec_index_write_then_read (T : Type) (ST : Scalar T) (h : @heap T)
    (D : Z) (r : vref) (i j : Z) (x : T) (v : list T) :
  lookup_vec r h = Some v -> Z.of_nat (length v) = D ->
  0 <= i < D -> 0 <= j < D ->
  (vec_set D r i x;; vec_get D r j) h
  = Ret (if i =? j then x else default s0 (v !! Z.to_nat j),
         update_vec r (<[Z.to_nat i := x]> v) h) /\
  (forall r', r' <> r ->
     lookup_vec r' (update_vec r (<[Z.to_nat i := x]> v) h) = lookup_vec r' h) /\
  (forall k, ~ 0 <= k < D ->
     vec_get D r k h = Abort /\ vec_set D r k x h = Abort).
Proof.
  intros Hv Lv Hi Hj. split; [|split].
  - eapply bind_eval; [eapply vec_set_in_range; eauto|].
    destruct (lookup_lt_is_Some_2 v (Z.to_nat j)) as [y Hy]; [lia|].
    eapply vec_get_eval.
    + apply is_index_true. lia.
    + eapply lookup_update_vec; eauto.
    + rewrite Hy. simpl. destruct (Z.eqb_spec i j) as [->|Hne].
      * apply list_lookup_insert_eq. lia.
      * rewrite list_lookup_insert_ne by lia. assumption.
  - intros r' Hne. now apply lookup_update_vec_ne.
  - intros k Hk. split; [now apply vec_get_abort | now apply vec_set_abort].
Qed.

Lemma vec_index_write_then_read_witness :
  (vec_set 3 (VObj 0) 1 9;; vec_get 3 (VObj 0) 2) example_store
  = Ret (-7, update_vec (VObj 0) [-5; 9; -7] example_store) /\
  vec_get 3 (VObj 0) 3 example_store = Abort.
Proof.
  destruct (vec_index_write_then_read Z _ example_store 3 (VObj 0) 1 2 9
              [-5; 4; -7] eq_refl eq_refl ltac:(lia) ltac:(lia))
    as (Hrw & _ & Hout).
  split; [exact Hrw | apply (Hout 3); lia].
Defined.

(** X3: [operator==] of [vector] returns true exactly when every pair of
    elements at the same index compares equal with the scalar ==, and
    [operator!=], which has a loop of its own, returns the negation of that on
    every pair of operands; for [int] elements == is true exactly on equal
    vectors. *)
Theorem vec_eq_ne_complementary (T : Type) (ST : Scalar T) (h : @heap T)
    (D : Z) (this rhs : vref) (u v : list T) :
  lookup_vec this h = Some u -> lookup_vec rhs h = Some v ->
  Z.of_nat (length u) = D -> Z.of_nat (length v) = D ->
  (exists e : bool,
     vec_eq D this rhs h = Ret (e, h) /\
     vec_ne D this rhs h = Ret (negb e, h) /\
     (e = true <-> forall i x y, u !! i = Some x -> v !! i = Some y ->
                                 seqb y x = true)) /\
  (forall a b : list Z,
      length a = length b ->
      (forall i x y, a !! i = Some x -> b !! i = Some y -> seqb y x = true)
      <-> a = b).
Proof.
  intros Hu Hv Lu Lv. split.
  - now apply vec_eq_ne_result.
  - intros a b Hl. now apply same_elements_int.
Qed.

Lemma vec_eq_ne_complementary_witness :
  vec_eq 3 (VObj 4) (VObj 5) example_store = Ret (false, example_store) /\
  vec_ne 3 (VObj 4) (VObj 5) example_store = Ret (true, example_store).
Proof.
  destruct (vec_eq_ne_complementary Z _ example_store 3 (VObj 4) (VObj 5)
              [3; -3; 1] [4; 9; 2] eq_refl eq_refl eq_refl eq_refl)
    as ((e & He & Hn & Hiff) & _).
  destruct e.
  - specialize (proj1 Hiff eq_refl 0%nat 3 4 eq_refl eq_refl). discriminate.
  - split; [exact He | exact Hn].
Defined.

(** X4: [operator+] and [operator-] of [vector] work element by element:
    element i of the result is this[i] + rhs[i], respectively
    this[i] - rhs[i], for operands at any references (also the same
    object), and the store is left as it was. *)
Theorem vec_add_sub_elementwise (T : Type) (ST : Scalar T) (h : @heap T)
    (D : Z) (this rhs : vref) (u v : list T) :
  lookup_vec this h = Some u -> lookup_vec rhs h = Some v ->
  Z.of_nat (length u) = D -> Z.of_nat (length v) = D ->
  vec_add D this rhs h = Ret (zip_with sadd u v, h) /\
  vec_sub D this rhs h = Ret (zip_with ssub u v, h).
Proof. apply vec_add_zip. Qed.

Lemma vec_add_sub_elementwise_witness :
  vec_add 3 (VObj 4) (VObj 5) example_store = Ret ([7; 6; 3], example_store) /\
  vec_sub 3 (VObj 4) (VObj 5) example_store = Ret ([-1; -12; -1], example_store).
Proof.
  exact (vec_add_sub_elementwise Z _ example_store 3 (VObj 4) (VObj 5)
           [3; -3; 1] [4; 9; 2] eq_refl eq_refl eq_refl eq_refl).
Defined.

(** X5: unary [operator-] of [vector] returns 0 - this[i] at every index and
    [operator*(scalar)] returns rhs * this[i], the scalar on the left; for
    [int], negation is multiplication by -1. *)
Theorem vec_neg_scale_elementwise (T : Type) (ST : Scalar T) (h : @heap T)
    (D : Z) (this : vref) (x : T) (u : list T) :
  lookup_vec this h = Some u -> Z.of_nat (length u) = D ->
  vec_neg D this h = Ret (map (ssub s0) u, h) /\
  vec_scale D this x h = Ret (map (smul x) u, h) /\
  (forall (h' : @heap Z) (w : list Z),
      lookup_vec this h' = Some w -> Z.of_nat (length w) = D ->
      vec_neg D this h' = vec_scale D this (-1) h').
Proof.
  intros Hu Lu. split; [now apply vec_neg_map|]. split; [now apply vec_scale_map|].
  intros h' w Hw Lw.
  rewrite (vec_neg_map D this w h' Hw Lw), (vec_scale_map D this (-1) w h' Hw Lw).
  do 2 f_equal; apply map_ext; intros a; simpl; lia.
Qed.

Lemma vec_neg_scale_elementwise_witness :
  vec_neg 3 (VObj 0) example_store = Ret ([5; -4; 7], example_store) /\
  vec_scale 3 (VObj 0) 2 example_store = Ret ([-10; 8; -14], example_store).
Proof.
  destruct (vec_neg_scale_elementwise Z _ example_store 3 (VObj 0) 2
              [-5; 4; -7] eq_refl eq_refl) as (Hn & Hs & _).
  split; [exact Hn | exact Hs].
Defined.

(** X6: [operator/(scalar)] of [vector] returns the element-wise quotients
    when the scalar type defines every one of them and is undefined behaviour
    as soon as one is not; for [int] it returns the truncated quotients for
    every divisor other than 0, the divisor -1 being allowed when no element
    is INT_MIN; dividing a vector of at least one element by 0, or a vector
    with an element INT_MIN by -1, is undefined behaviour. *)
Theorem vec_div_elementwise_or_undefined (T : Type) (ST : Scalar T)
    (h : @heap T) (D : Z) (this : vref) (rhs : T) (u : list T) :
  lookup_vec this h = Some u -> Z.of_nat (length u) = D ->
  (forall qs, Forall2 (fun a q => sdiv a rhs = Some q) u qs ->
              vec_div D this rhs h = Ret (qs, h)) /\
  (Exists (fun a => sdiv a rhs = None) u -> vec_div D this rhs h = Undefined) /\
  (forall (h' : @heap Z) (w : list Z) (d : Z),
      lookup_vec this h' = Some w -> Z.of_nat (length w) = D ->
      (d <> 0 -> (d = -1 -> Forall (fun a => a <> INT_MIN) w) ->
       vec_div D this d h' = Ret (map (fun a => Z.quot a d) w, h')) /\
      (0 < D -> vec_div D this 0 h' = Undefined) /\
      (Exists (fun a => a = INT_MIN) w -> vec_div D this (-1) h' = Undefined)).
Proof.
  intros Hu Lu. split; [|split].
  - intros qs Hqs. rewrite (vec_div_outcome D this rhs u h Hu Lu).
    apply mapM_Some in Hqs. now rewrite Hqs.
  - intros Hex. now apply (vec_div_undefined D this rhs u h).
  - intros h' w d Hw Lw. split; [|split].
    + intros Hd Hmin. rewrite (vec_div_outcome D this d w h' Hw Lw).
      now rewrite mapM_quot_int.
    + intros HD. rewrite (vec_div_outcome D this 0 w h' Hw Lw).
      rewrite mapM_quot_0; [reflexivity|].
      intros ->. simpl in Lw. lia.
    + intros Hex. apply (vec_div_undefined D this (-1) w h' Hw Lw).
      revert Hex. apply Exists_impl. intros a ->. apply sdiv_int_min.
Qed.

Lemma vec_div_elementwise_or_undefined_witness :
  vec_div 3 (VObj 0) 2 example_store = Ret ([-2; 2; -3], example_store) /\
  vec_div 3 (VObj 0) 0 example_store = Undefined.
Proof.
  destruct (vec_div_elementwise_or_undefined Z _ example_store 3 (VObj 0) 2
              [-5; 4; -7] eq_refl eq_refl) as (_ & _ & Hint).
  destruct (Hint example_store [-5; 4; -7] 2 eq_refl eq_refl) as (Hq & Hz & _).
  split; [apply Hq; discriminate | apply Hz; lia].
Defined.

(** X7: the dot product [operator*(vector)] returns the sum of the products
    this[i] * rhs[i], accumulated from 0 in index order, and when the scalar
    multiplication is commutative the two operand orders return the same
    scalar. *)
Theorem vec_dot_commutes (T : Type) (ST : Scalar T) (SL : ScalarLaws T)
    (h : @heap T) (D : Z) (this rhs : vref) (u v : list T) :
  lookup_vec this h = Some u -> lookup_vec rhs h = Some v ->
  Z.of_nat (length u) = D -> Z.of_nat (length v) = D ->
  vec_dot D this rhs h
  = Ret (fold_left (fun acc p => sadd acc (smul p.1 p.2)) (zip u v) s0, h) /\
  vec_dot D rhs this h = vec_dot D this rhs h.
Proof.
  intros Hu Hv Lu Lv.
  rewrite (vec_dot_sum h D this rhs u v), (vec_dot_sum h D rhs this v u)
    by assumption.
  split; [reflexivity|]. now rewrite dot_sum_comm.
Qed.

Lemma vec_dot_commutes_witness :
  vec_dot 3 (VObj 4) (VObj 5) example_store = Ret (-13, example_store) /\
  vec_dot 3 (VObj 5) (VObj 4) example_store
  = vec_dot 3 (VObj 4) (VObj 5) example_store.
Proof.
  exact (vec_dot_commutes Z _ _ example_store 3 (VObj 4) (VObj 5)
           [3; -3; 1] [4; 9; 2] eq_refl eq_refl eq_refl eq_refl).
Defined.

(** X8: [fill] overwrites every element of the object it is called on, be
    it a vector or, through [operator[]] of a matrix, one of its rows: the
    object then holds DIMENSION copies of the value and every other object of
    the store is as it was.  The constructor from a default value, which is
    a call of [fill], makes a vector of DIMENSION copies of the value. *)
Theorem vec_fill_overwrites_every_element (T : Type) (ST : Scalar T)
    (h : @heap T) (D : Z) (r : vref) (x : T) (v : list T) :
  lookup_vec r h = Some v -> Z.of_nat (length v) = D ->
  exists h',
    vec_fill D r x h = Ret (tt, h') /\
    lookup_vec r h' = Some (replicate (Z.to_nat D) x) /\
    (forall r', r' <> r -> lookup_vec r' h' = lookup_vec r' h) /\
    vec_new D x (fun fresh => load fresh) h
    = Ret (replicate (Z.to_nat D) x, h).
Proof.
  intros Hv Lv. exists (update_vec r (replicate (Z.to_nat D) x) h).
  split; [|split; [|split]].
  - eapply vec_fill_ref; eauto.
  - eapply lookup_update_vec; eauto.
  - intros r' Hne. now apply lookup_update_vec_ne.
  - rewrite <- (ext_nil h). eapply vec_new_sole; [lia|].
    now apply load_local.
Qed.

Lemma vec_fill_overwrites_every_element_witness :
  exists h',
    vec_fill 3 (VRow 4 1) 0 example_store = Ret (tt, h') /\
    lookup_vec (VRow 4 1) h' = Some [0; 0; 0] /\
    lookup_vec (VRow 4 2) h' = Some [7; 8; 9].
Proof.
  destruct (vec_fill_overwrites_every_element Z _ example_store 3 (VRow 4 1) 0
              [4; 5; 6] eq_refl eq_refl) as (h' & Hrun & Hrow & Hrest & _).
  exists h'. split; [exact Hrun|]. split; [exact Hrow|].
  rewrite (Hrest (VRow 4 2)); [reflexivity | discriminate].
Defined.

(** X9: [magnitude] returns the square root of the sum of the squares, and
    [normalize] has the outcome of dividing the vector by its magnitude with
    [operator/]; for [int] elements, where the root is the integer square
    root, normalizing a zero vector of at least one element is undefined
    behaviour (a division by 0) and every other vector whose sum of squares
    is at most INT_MAX, so that no square and no partial sum leaves [int],
    is divided by a positive root. *)
Theorem normalize_divides_by_magnitude (T : Type) (ST : Scalar T)
    (h : @heap T) (D : Z) (this : vref) (u : list T) :
  lookup_vec this h = Some u -> Z.of_nat (length u) = D ->
  vec_magnitude D this h = Ret (ssqrt (sum_of_squares u), h) /\
  vec_normalize D this h
  = (let* mag := vec_magnitude D this in vec_div D this mag) h /\
  (forall (h' : @heap Z) (w : list Z),
      lookup_vec this h' = Some w -> Z.of_nat (length w) = D ->
      (0 < D -> Forall (fun a => a = 0) w -> vec_normalize D this h' = Undefined) /\
      (sum_of_squares w <= INT_MAX -> ~ Forall (fun a => a = 0) w ->
       0 < Z.sqrt (sum_of_squares w) /\
       vec_normalize D this h'
       = Ret (map (fun a => Z.quot a (Z.sqrt (sum_of_squares w))) w, h'))).
Proof.
  intros Hu Lu. split; [now apply vec_magnitude_sqrt|]. split.
  - rewrite (vec_normalize_outcome D this u h Hu Lu).
    symmetry. eapply bind_eval; [exact (vec_magnitude_sqrt D this u h Hu Lu)|].
    now apply vec_div_outcome.
  - intros h' w Hw Lw. rewrite (vec_normalize_outcome D this w h' Hw Lw).
    destruct (sum_of_squares_int w) as [Hpos Hzero]. split.
    + intros HD Hall. apply Hzero in Hall. rewrite Hall.
      change (ssqrt (0 : Z)) with 0.
      rewrite mapM_quot_0; [reflexivity|]. intros ->. simpl in Lw. lia.
    + intros _ Hsome.
      assert (0 < Z.sqrt (sum_of_squares w)) as Hs.
      { apply Z.sqrt_pos. destruct (decide (sum_of_squares w = 0)) as [E|E]; [|lia].
        now apply Hzero in E. }
      split; [assumption|].
      change (ssqrt (sum_of_squares w)) with (Z.sqrt (sum_of_squares w)).
      rewrite mapM_quot_int by lia. reflexivity.
Qed.

Lemma normalize_divides_by_magnitude_witness :
  vec_magnitude 3 (VObj 5) example_store = Ret (10, example_store) /\
  vec_normalize 3 (VObj 5) example_store
  = (let* mag := vec_magnitude 3 (VObj 5) in vec_div 3 (VObj 5) mag) example_store.
Proof.
  destruct (normalize_divides_by_magnitude Z _ example_store 3 (VObj 5)
              [4; 9; 2] eq_refl eq_refl) as (Hm & Hn & _).
  split; [exact Hm | exact Hn].
Defined.

(** X10: [subvector<R>(start)] (R <= DIMENSION, no smaller than 0) returns
    the R elements from [start] on when 0 <= start and start + R - 1 is an
    index of the vector, and aborts otherwise: by its assertion, or, for a
    negative start that the assertion lets through, on the first element it
    reads.  The assertion is on start + R - 1, so the empty subvector at
    start 0 aborts, while [shrink<0>] returns the empty vector. *)
Theorem subvector_slice_or_abort (T : Type) (ST : Scalar T) (h : @heap T)
    (D R : Z) (this : vref) (start : Z) (u : list T) :
  lookup_vec this h = Some u -> Z.of_nat (length u) = D ->
  0 <= R <= D ->
  (0 <= start /\ 0 <= start + R - 1 < D ->
   vec_subvector D R this start h
   = Ret (take (Z.to_nat R) (drop (Z.to_nat start) u), h)) /\
  (~ (0 <= start /\ 0 <= start + R - 1 < D) ->
   vec_subvector D R this start h = Abort) /\
  vec_subvector D 0 this 0 h = Abort /\
  (0 < D -> vec_shrink D 0 this h = Ret ([], h)).
Proof.
  intros Hu Lu HR. split; [|split; [|split]].
  - intros [Hs Hfit]. now apply vec_subvector_slice.
  - intros Hfit. now apply vec_subvector_aborts.
  - apply vec_subvector_aborts; lia.
  - intros HD. apply (vec_shrink_take D 0 this u h Hu Lu). lia.
Qed.

Lemma subvector_slice_or_abort_witness :
  vec_subvector 4 2 (VObj 2) 2 example_store = Ret ([0; 5], example_store) /\
  vec_subvector 4 2 (VObj 2) 3 example_store = Abort /\
  vec_subvector 4 2 (VObj 2) (-1) example_store = Abort.
Proof.
  destruct (subvector_slice_or_abort Z _ example_store 4 2 (VObj 2) 2
              [1; 0; 0; 5] eq_refl eq_refl ltac:(lia)) as (Hin & _).
  destruct (subvector_slice_or_abort Z _ example_store 4 2 (VObj 2) 3
              [1; 0; 0; 5] eq_refl eq_refl ltac:(lia)) as (_ & Hhigh & _).
  destruct (subvector_slice_or_abort Z _ example_store 4 2 (VObj 2) (-1)
              [1; 0; 0; 5] eq_refl eq_refl ltac:(lia)) as (_ & Hlow & _).
  split; [exact (Hin ltac:(lia)) | split; [apply Hhigh | apply Hlow]; lia].
Defined.

(** X11: [grow<R>(d)] returns the elements of the vector followed by R -
    DIMENSION copies of d, [shrink<R>()] returns its first R elements, and
    shrinking the grown vector back to DIMENSION gives the vector again. *)
Theorem grow_then_shrink_round_trip (T : Type) (ST : Scalar T) (h : @heap T)
    (D R : Z) (this : vref) (d : T) (u : list T) :
  lookup_vec this h = Some u -> Z.of_nat (length u) = D -> D < R ->
  vec_grow D R this d h = Ret (u ++ replicate (Z.to_nat (R - D)) d, h) /\
  (forall R', 0 <= R' < D ->
     vec_shrink D R' this h = Ret (take (Z.to_nat R') u, h)) /\
  grow_then_shrink D R this d h = Ret (u, h).
Proof.
  intros Hu Lu HR. split; [exact (vec_grow_app D R this d u h Hu Lu HR)|]. split.
  - intros R' HR'. now apply vec_shrink_take.
  - unfold grow_then_shrink.
    eapply bind_eval; [exact (vec_grow_app D R this d u h Hu Lu HR)|].
    apply local_vec_pure.
    rewrite (vec_shrink_take R D _ (u ++ replicate (Z.to_nat (R - D)) d)).
    + do 2 f_equal. apply take_app_length'. lia.
    + apply lookup_vec_top.
    + rewrite length_app, length_replicate. lia.
    + lia.
Qed.

Lemma grow_then_shrink_round_trip_witness :
  vec_grow 2 4 (VObj 1) 1 example_store = Ret ([11; 7; 1; 1], example_store) /\
  grow_then_shrink 2 4 (VObj 1) 1 example_store = Ret ([11; 7], example_store).
Proof.
  destruct (grow_then_shrink_round_trip Z _ example_store 2 4 (VObj 1) 1
              [11; 7] eq_refl eq_refl ltac:(lia)) as (Hg & _ & Hrt).
  split; [exact Hg | exact Hrt].
Defined.

(** X12: [operator=] of [vector] copies the elements: right after
    [a = b] the comparison [a == b] is true (the scalar == being reflexive),
    and a later write to an element of b, a different object, does not show
    in a. *)
Theorem vec_assign_copies (T : Type) (ST : Scalar T) (SL : ScalarLaws T)
    (h : @heap T) (D : Z) (this rhs : vref) (u v : list T) (i : Z) (x : T) :
  lookup_vec this h = Some u -> lookup_vec rhs h = Some v ->
  Z.of_nat (length u) = D -> Z.of_nat (length v) = D ->
  (vec_assign this rhs;; vec_eq D this rhs) h
  = Ret (true, update_vec this v h) /\
  (this <> rhs -> 0 <= i < D ->
   (vec_assign this rhs;; vec_set D rhs i x;; load this) h
   = Ret (v, update_vec rhs (<[Z.to_nat i := x]> v) (update_vec this v h))).
Proof.
  intros Hu Hv Lu Lv.
  assert (Hassign : vec_assign this rhs h = Ret (tt, update_vec this v h)).
  { unfold vec_assign. eapply bind_eval; [apply load_eval; exact Hv|].
    unfold store. now rewrite Hu. }
  assert (Hthis : lookup_vec this (update_vec this v h) = Some v)
    by (eapply lookup_update_vec; eauto).
  assert (Hrhs : lookup_vec rhs (update_vec this v h) = Some v).
  { destruct (decide (rhs = this)) as [->|Hne]; [assumption|].
    now rewrite lookup_update_vec_ne. }
  split.
  - eapply bind_eval; [exact Hassign|].
    destruct (vec_eq_ne_result D this rhs v v (update_vec this v h))
      as (e & He & _ & Hiff); try assumption.
    rewrite He. f_equal. f_equal. apply Hiff, same_elements_refl.
  - intros Hne Hi.
    eapply bind_eval; [exact Hassign|].
    eapply bind_eval; [eapply vec_set_in_range; eauto|].
    apply load_eval. rewrite lookup_update_vec_ne by assumption. assumption.
Qed.

Lemma vec_assign_copies_witness :
  (vec_assign (VObj 4) (VObj 5);; vec_eq 3 (VObj 4) (VObj 5)) example_store
  = Ret (true, update_vec (VObj 4) [4; 9; 2] example_store) /\
  (vec_assign (VObj 4) (VObj 5);; vec_set 3 (VObj 5) 0 1;; load (VObj 4))
    example_store
  = Ret ([4; 9; 2],
         update_vec (VObj 5) [1; 9; 2]
                    (update_vec (VObj 4) [4; 9; 2] example_store)).
Proof.
  destruct (vec_assign_copies Z _ _ example_store 3 (VObj 4) (VObj 5)
              [3; -3; 1] [4; 9; 2] 0 1 eq_refl eq_refl eq_refl eq_refl)
    as (He & Hw).
  split; [exact He | apply Hw; [discriminate | lia]].
Defined.

(** ** Matrices: nested loops that write some entries of one matrix *)

Section MatrixLoops.

Context {T : Type} {ST : Scalar T}.

Lemma mat_ext H W (a b : list (list T)) :
  shaped H W a -> shaped H W b ->
  (forall i j, 0 <= i < H -> 0 <= j < W ->
     entry a (Z.to_nat i) (Z.to_nat j) = entry b (Z.to_nat i) (Z.to_nat j)) ->
  a = b.
Proof.
  intros Ha Hb Hall.
  apply (list_eq_upto (T:=list T) _ _ H); [apply Ha | apply Hb |].
  intros i Hi.
  destruct (shaped_row H W a i Ha Hi) as (ra & Hra & La).
  destruct (shaped_row H W b i Hb Hi) as (rb & Hrb & Lb).
  rewrite Hra, Hrb. f_equal.
  apply (list_eq_upto _ _ W); [assumption | assumption |].
  intros j Hj. specialize (Hall i j Hi Hj). unfold entry in Hall.
  now rewrite Hra, Hrb in Hall.
Qed.

(** [before i' j' i j]: iteration (i', j') of two nested loops comes before
    iteration (i, j). *)
Definition before (i' j' i j : Z) : Prop := i' < i \/ (i' = i /\ j' < j).

(** The matrix [m] being written, when the loops are about to run iteration
    (i, j): the iterations before it that write have written, and no other
    entry has changed since [m0]. *)
Definition progress (NA NB RH RW : Z) (w : Z -> Z -> bool) (p : Z -> Z -> Z * Z)
    (g : Z -> Z -> T) (m0 : list (list T)) (i j : Z) (m : list (list T)) : Prop :=
  shaped RH RW m /\
  (forall i' j', 0 <= i' < NA -> 0 <= j' < NB -> before i' j' i j ->
     w i' j' = true ->
     entry m (Z.to_nat (p i' j').1) (Z.to_nat (p i' j').2) = Some (g i' j')) /\
  (forall a b : nat,
     (forall i' j', 0 <= i' < NA -> 0 <= j' < NB -> before i' j' i j ->
        w i' j' = true ->
        (Z.to_nat (p i' j').1, Z.to_nat (p i' j').2) <> (a, b)) ->
     entry m a b = entry m0 a b).

Lemma mat_loops_gen (st : list (list T) -> @heap T) NA NB RH RW
    (w : Z -> Z -> bool) (p : Z -> Z -> Z * Z) (g : Z -> Z -> T)
    (body : Z -> Z -> M unit) m0 :
  shaped RH RW m0 -> 0 <= NA -> 0 <= NB ->
  (forall i j, 0 <= i < NA -> 0 <= j < NB -> w i j = true ->
     0 <= (p i j).1 < RH /\ 0 <= (p i j).2 < RW) ->
  (forall i j i' j', 0 <= i < NA -> 0 <= j < NB -> 0 <= i' < NA -> 0 <= j' < NB ->
     w i j = true -> w i' j' = true -> p i j = p i' j' -> i = i' /\ j = j') ->
  (forall i j m row, 0 <= i < NA -> 0 <= j < NB -> w i j = true ->
     shaped RH RW m -> m !! Z.to_nat (p i j).1 = Some row ->
     body i j (st m)
     = Ret (tt, st (<[Z.to_nat (p i j).1 :=
                      <[Z.to_nat (p i j).2 := g i j]> row]> m))) ->
  (forall i j m, 0 <= i < NA -> 0 <= j < NB -> w i j = false ->
     shaped RH RW m -> body i j (st m) = Ret (tt, st m)) ->
  exists m',
    for_each 0 NA (fun i => for_each 0 NB (fun j => body i j)) (st m0)
    = Ret (tt, st m') /\
    shaped RH RW m' /\
    (forall i j, 0 <= i < NA -> 0 <= j < NB -> w i j = true ->
       entry m' (Z.to_nat (p i j).1) (Z.to_nat (p i j).2) = Some (g i j)) /\
    (forall a b : nat,
       (forall i j, 0 <= i < NA -> 0 <= j < NB -> w i j = true ->
          (Z.to_nat (p i j).1, Z.to_nat (p i j).2) <> (a, b)) ->
       entry m' a b = entry m0 a b).
Proof.
  intros Hs HNA HNB Hin Hinj Hwrite Hskip.
  destruct (for_each_inv
              (fun i h1 => exists m, h1 = st m /\
                                     progress NA NB RH RW w p g m0 i 0 m)
              0 NA (fun i => for_each 0 NB (fun j => body i j)) (st m0))
    as (h' & Hrun & m' & -> & Hs' & Hdone & Hrest); [assumption | | |].
  - exists m0. split; [reflexivity|]. split; [assumption|]. split.
    + intros i' j' Hi' Hj' [Hlt|[_ Hlt]]; lia.
    + reflexivity.
  - intros i h1 Hi (m & -> & Hprog).
    destruct (for_each_inv
                (fun j h1 => exists m, h1 = st m /\
                                       progress NA NB RH RW w p g m0 i j m)
                0 NB (fun j => body i j) (st m))
      as (h2 & Hrun & m2 & -> & Hs2 & Hdone2 & Hrest2); [assumption | | |].
    + exists m. split; [reflexivity | exact Hprog].
    + intros j h2 Hj (m1 & -> & Hs1 & Hdone1 & Hrest1).
      destruct (w i j) eqn:Ew.
      * destruct (Hin i j Hi Hj Ew) as [Hr Hc].
        destruct (shaped_row RH RW m1 _ Hs1 Hr) as (row & Hrow & Hlen).
        eexists. split; [apply (Hwrite i j m1 row); assumption|].
        eexists. split; [reflexivity|]. split; [|split].
        -- eapply shaped_insert; eauto. now rewrite length_insert.
        -- intros i' j' Hi' Hj' Hb Ew'.
           rewrite entry_insert by (assumption || lia).
           destruct (decide _) as [[E1 E2]|Hne].
           ++ assert (p i' j' = p i j) as Hp.
              { destruct (Hin i' j' Hi' Hj' Ew') as [Hr' Hc'].
                destruct (p i' j') as [a' b'], (p i j) as [a0 b0].
                simpl in *. f_equal; lia. }
              destruct (Hinj i' j' i j Hi' Hj' Hi Hj Ew' Ew Hp) as [-> ->].
              reflexivity.
           ++ apply Hdone1; try assumption.
              destruct Hb as [Hlt|[-> Hlt]]; [now left | right].
              split; [reflexivity|].
              assert (j' <> j) by (intros ->; apply Hne; split; reflexivity). lia.
        -- intros a b Hfree.
           rewrite entry_insert by (assumption || lia).
           destruct (decide _) as [[E1 E2]|Hne].
           ++ exfalso. apply (Hfree i j Hi Hj); [right; lia | assumption |].
              now rewrite E1, E2.
           ++ apply Hrest1. intros i' j' Hi' Hj' Hb Ew'.
              apply Hfree; try assumption.
              destruct Hb as [Hlt|[-> Hlt]]; [now left | right; lia].
      * eexists. split; [apply (Hskip i j m1); assumption|].
        exists m1. split; [reflexivity|]. split; [assumption|]. split.
        -- intros i' j' Hi' Hj' Hb Ew'. apply Hdone1; try assumption.
           destruct Hb as [Hlt|[-> Hlt]]; [now left | right].
           split; [reflexivity|].
           assert (j' <> j) by (intros ->; congruence). lia.
        -- intros a b Hfree. apply Hrest1. intros i' j' Hi' Hj' Hb Ew'.
           apply Hfree; try assumption.
           destruct Hb as [Hlt|[-> Hlt]]; [now left | right; lia].
    + eexists. split; [exact Hrun|]. exists m2. split; [reflexivity|].
      split; [assumption|]. split.
      * intros i' j' Hi' Hj' Hb Ew'. apply Hdone2; try assumption.
        destruct Hb as [Hlt|[-> Hlt]]; [|lia].
        destruct (decide (i' = i)) as [->|Hne]; [right; lia | left; lia].
      * intros a b Hfree. apply Hrest2. intros i' j' Hi' Hj' Hb Ew'.
        apply Hfree; try assumption.
        destruct Hb as [Hlt|[-> Hlt]]; [left; lia | left; lia].
  - exists m'. split; [exact Hrun|]. split; [assumption|]. split.
    + intros i j Hi Hj Ew. apply Hdone; try assumption. left. lia.
    + intros a b Hfree. apply Hrest. intros i j Hi Hj _ Ew. now apply Hfree.
Qed.

(** The loops on the one local matrix of the running function. *)
Lemma mat_loops_sole h NA NB RH RW
    (w : Z -> Z -> bool) (p : Z -> Z -> Z * Z) (g : Z -> Z -> T)
    (body : Z -> Z -> M unit) m0 :
  shaped RH RW m0 -> 0 <= NA -> 0 <= NB ->
  (forall i j, 0 <= i < NA -> 0 <= j < NB -> w i j = true ->
     0 <= (p i j).1 < RH /\ 0 <= (p i j).2 < RW) ->
  (forall i j i' j', 0 <= i < NA -> 0 <= j < NB -> 0 <= i' < NA -> 0 <= j' < NB ->
     w i j = true -> w i' j' = true -> p i j = p i' j' -> i = i' /\ j = j') ->
  (forall i j m, 0 <= i < NA -> 0 <= j < NB -> shaped RH RW m ->
     body i j (ext h [] [m])
     = if w i j
       then mat_set RH RW (length (mats h) + 0)%nat (p i j).1 (p i j).2 (g i j)
                    (ext h [] [m])
       else Ret (tt, ext h [] [m])) ->
  exists m',
    for_each 0 NA (fun i => for_each 0 NB (fun j => body i j)) (ext h [] [m0])
    = Ret (tt, ext h [] [m']) /\
    shaped RH RW m' /\
    (forall i j, 0 <= i < NA -> 0 <= j < NB -> w i j = true ->
       entry m' (Z.to_nat (p i j).1) (Z.to_nat (p i j).2) = Some (g i j)) /\
    (forall a b : nat,
       (forall i j, 0 <= i < NA -> 0 <= j < NB -> w i j = true ->
          (Z.to_nat (p i j).1, Z.to_nat (p i j).2) <> (a, b)) ->
       entry m' a b = entry m0 a b).
Proof.
  intros Hs HNA HNB Hin Hinj Hbody.
  apply (mat_loops_gen (fun m => ext h [] [m])); try assumption.
  - intros i j m row Hi Hj Ew Hm Hrow. rewrite (Hbody i j m Hi Hj Hm), Ew.
    destruct (Hin i j Hi Hj Ew) as [Hr Hc]. now apply mat_set_sole.
  - intros i j m Hi Hj Ew Hm. now rewrite (Hbody i j m Hi Hj Hm), Ew.
Qed.

End MatrixLoops.

(** ** Matrices: the members that build a new matrix *)

Section MatrixResults.

Context {T : Type} {ST : Scalar T}.

Lemma entry_replicate H W (x : T) i j :
  0 <= i < H -> 0 <= j < W ->
  entry (replicate (Z.to_nat H) (replicate (Z.to_nat W) x))
        (Z.to_nat i) (Z.to_nat j) = Some x.
Proof.
  intros Hi Hj. unfold entry.
  rewrite lookup_replicate_2 by lia. apply lookup_replicate_2. lia.
Qed.

Lemma entry_some (a : list (list T)) i j x :
  entry a (Z.to_nat i) (Z.to_nat j) = Some x -> entry_or_0 a i j = x.
Proof. intros E. unfold entry_or_0. now rewrite E. Qed.

Lemma shaped_nonneg H W (a : list (list T)) : shaped H W a -> 0 <= H.
Proof. intros [Hl _]. lia. Qed.

Lemma mat_fill_replicate H W value h (m0 : list (list T)) :
  shaped H W m0 -> 0 <= W ->
  mat_fill H W (length (mats h) + 0)%nat value (ext h [] [m0])
  = Ret (tt, ext h [] [replicate (Z.to_nat H) (replicate (Z.to_nat W) value)]).
Proof.
  intros Hs HW. pose proof (shaped_nonneg _ _ _ Hs) as HH.
  destruct (mat_write_loops h H W (fun _ _ => value)
              (fun i j => mat_set H W (length (mats h) + 0)%nat i j value) m0)
    as (m' & Hrun & Hs' & Hall); [assumption | assumption | |].
  - intros i j m row Hi Hj Hm Hrow. now apply mat_set_sole.
  - unfold mat_fill. rewrite Hrun. do 4 f_equal.
    apply (mat_ext H W); [assumption | now apply shaped_replicate |].
    intros i j Hi Hj. rewrite Hall by assumption.
    symmetry. now apply entry_replicate.
Qed.

Lemma mat_new_sole {A} H W value (body : nat -> M A) h a m2 :
  0 <= H -> 0 <= W ->
  body (length (mats h) + 0)%nat
       (ext h [] [replicate (Z.to_nat H) (replicate (Z.to_nat W) value)])
    = Ret (a, ext h [] [m2]) ->
  mat_new H W value body (ext h [] []) = Ret (a, ext h [] []).
Proof.
  intros HH HW Hbody. unfold mat_new. etransitivity.
  { eapply local_mat_ext. eapply bind_eval; [|exact Hbody].
    apply mat_fill_replicate; [now apply shaped_replicate | assumption]. }
  reflexivity.
Qed.

Lemma mat_copy_sole {A} this (body : nat -> M A) (a m2 : list (list T)) r
    (h : @heap T) :
  mats h !! this = Some a ->
  body (length (mats h) + 0)%nat (ext h [] [a]) = Ret (r, ext h [] [m2]) ->
  mat_copy this body (ext h [] []) = Ret (r, ext h [] []).
Proof.
  intros Ha Hbody. unfold mat_copy.
  eapply bind_eval; [eapply load_mat_base; exact Ha|].
  etransitivity; [eapply local_mat_ext; exact Hbody | reflexivity].
Qed.

(** The members that copy [*this] and overwrite every entry. *)
Lemma mat_pointwise H W this (body : nat -> Z -> Z -> M unit) (g : Z -> Z -> T)
    (a : list (list T)) (h : @heap T) :
  mats h !! this = Some a -> shaped H W a -> 0 <= W ->
  (forall i j m row, 0 <= i < H -> 0 <= j < W -> shaped H W m ->
      m !! Z.to_nat i = Some row ->
      body (length (mats h) + 0)%nat i j (ext h [] [m])
      = Ret (tt, ext h [] [<[Z.to_nat i := <[Z.to_nat j := g i j]> row]> m])) ->
  exists r,
    mat_copy this (fun loc =>
      for_each 0 H (fun i => for_each 0 W (fun j => body loc i j));;
      load_mat loc) h = Ret (r, h) /\
    shaped H W r /\
    forall i j, 0 <= i < H -> 0 <= j < W ->
                entry r (Z.to_nat i) (Z.to_nat j) = Some (g i j).
Proof.
  intros Ha Hs HW Hbody.
  destruct (mat_write_loops h H W g (body (length (mats h) + 0)%nat) a Hs HW Hbody)
    as (r & Hrun & Hsr & Hr).
  exists r. split; [|split; assumption].
  rewrite <- (ext_nil h). eapply mat_copy_sole; [exact Ha|].
  eapply bind_eval; [exact Hrun|]. now apply load_mat_local.
Qed.

Lemma mat_zip_copy H W this rhs (op : T -> T -> T) (a b : list (list T))
    (h : @heap T) :
  mats h !! this = Some a -> mats h !! rhs = Some b ->
  shaped H W a -> shaped H W b -> 0 <= W ->
  exists r,
    mat_copy this (fun loc =>
      for_each 0 H (fun i => for_each 0 W (fun j =>
        let* x := mat_get H W this i j in
        let* y := mat_get H W rhs i j in
        mat_set H W loc i j (op x y)));;
      load_mat loc) h = Ret (r, h) /\
    shaped H W r /\
    forall i j, 0 <= i < H -> 0 <= j < W ->
                entry r (Z.to_nat i) (Z.to_nat j)
                = Some (op (entry_or_0 a i j) (entry_or_0 b i j)).
Proof.
  intros Ha Hb Hsa Hsb HW.
  apply (mat_pointwise H W this
           (fun loc i j => let* x := mat_get H W this i j in
                           let* y := mat_get H W rhs i j in
                           mat_set H W loc i j (op x y))
           (fun i j => op (entry_or_0 a i j) (entry_or_0 b i j)) a h Ha Hsa HW).
  intros i j m row Hi Hj Hm Hrow.
  eapply bind_eval; [apply (mat_get_entry H W this i j a); assumption|].
  eapply bind_eval; [apply (mat_get_entry H W rhs i j b); assumption|].
  now apply mat_set_sole.
Qed.

Lemma mat_map_copy H W this (f : T -> T) (a : list (list T)) (h : @heap T) :
  mats h !! this = Some a -> shaped H W a -> 0 <= W ->
  exists r,
    mat_copy this (fun loc =>
      for_each 0 H (fun i => for_each 0 W (fun j =>
        let* x := mat_get H W this i j in
        mat_set H W loc i j (f x)));;
      load_mat loc) h = Ret (r, h) /\
    shaped H W r /\
    forall i j, 0 <= i < H -> 0 <= j < W ->
                entry r (Z.to_nat i) (Z.to_nat j) = Some (f (entry_or_0 a i j)).
Proof.
  intros Ha Hsa HW.
  apply (mat_pointwise H W this
           (fun loc i j => let* x := mat_get H W this i j in
                           mat_set H W loc i j (f x))
           (fun i j => f (entry_or_0 a i j)) a h Ha Hsa HW).
  intros i j m row Hi Hj Hm Hrow.
  eapply bind_eval; [apply (mat_get_entry H W this i j a); assumption|].
  now apply mat_set_sole.
Qed.

Lemma mat_div_defined H W this rhs (q : T -> T) (a : list (list T)) (h : @heap T) :
  mats h !! this = Some a -> shaped H W a -> 0 <= W ->
  (forall i j, 0 <= i < H -> 0 <= j < W ->
     sdiv (entry_or_0 a i j) rhs = Some (q (entry_or_0 a i j))) ->
  exists r,
    mat_div H W this rhs h = Ret (r, h) /\
    shaped H W r /\
    forall i j, 0 <= i < H -> 0 <= j < W ->
                entry r (Z.to_nat i) (Z.to_nat j) = Some (q (entry_or_0 a i j)).
Proof.
  intros Ha Hsa HW Hq.
  apply (mat_pointwise H W this
           (fun loc i j => let* x := mat_get H W this i j in
                           let* y := divide x rhs in
                           mat_set H W loc i j y)
           (fun i j => q (entry_or_0 a i j)) a h Ha Hsa HW).
  intros i j m row Hi Hj Hm Hrow.
  eapply bind_eval; [apply (mat_get_entry H W this i j a); assumption|].
  eapply bind_eval; [apply divide_eval, Hq; assumption|].
  now apply mat_set_sole.
Qed.

Lemma local_mat_undefined {A} init (body : nat -> M A) (h : @heap T) lv lm :
  body (length (mats h) + length lm)%nat (ext h lv (lm ++ [init])) = Undefined ->
  local_mat init body (ext h lv lm) = Undefined.
Proof.
  intros Hb. unfold local_mat. simpl vecs. simpl mats.
  rewrite length_app, <- app_assoc.
  change (Heap (vecs h ++ lv) (mats h ++ lm ++ [init]))
    with (ext h lv (lm ++ [init])).
  now rewrite Hb.
Qed.

Lemma mat_div_undefined H W this rhs (a : list (list T)) (h : @heap T) :
  mats h !! this = Some a -> shaped H W a -> 0 < H -> 0 < W ->
  sdiv (entry_or_0 a 0 0) rhs = None ->
  mat_div H W this rhs h = Undefined.
Proof.
  intros Ha Hsa HH HW Hq. rewrite <- (ext_nil h). unfold mat_div, mat_copy.
  eapply bind_eval; [eapply load_mat_base; exact Ha|].
  apply local_mat_undefined. apply bind_undefined.
  apply (for_each_fails_at 0 0 H _ _ (ext h [] [a])); [lia | reflexivity | | discriminate].
  apply (for_each_fails_at 0 0 W _ _ (ext h [] [a])); [lia | reflexivity | | discriminate].
  eapply bind_eval; [apply (mat_get_entry H W this 0 0 a); auto; lia|].
  apply bind_undefined. unfold divide. now rewrite Hq.
Qed.

(** A loop whose steps return or are undefined behaviour does one or the
    other, and is undefined behaviour when it reaches a step that is. *)
Lemma for_each_ret_or_undefined (Inv : @heap T -> Prop) lo hi
    (body : Z -> M unit) (h : @heap T) :
  Inv h ->
  (forall i s, lo <= i < hi -> Inv s ->
     body i s = Undefined \/ exists s', body i s = Ret (tt, s') /\ Inv s') ->
  for_each lo hi body h = Undefined \/
  exists s', for_each lo hi body h = Ret (tt, s') /\ Inv s'.
Proof.
  intros Hinv Hstep. unfold for_each, for_range.
  assert (Hgen : forall n i s, lo <= i -> i + Z.of_nat n <= Z.max lo hi -> Inv s ->
    for_loop n i (fun i _ => body i) tt s = Undefined \/
    exists s', for_loop n i (fun i _ => body i) tt s = Ret (tt, s') /\ Inv s').
  { induction n as [|n IH]; intros i s Hi Hn Hs.
    - right. exists s. split; [reflexivity | assumption].
    - simpl. unfold bind.
      destruct (Hstep i s ltac:(lia) Hs) as [E|(s' & E & Hs')]; rewrite E.
      + now left.
      + apply IH; [lia | lia | assumption]. }
  apply Hgen; [lia | lia | assumption].
Qed.

Lemma for_each_undefined_at (Inv : @heap T -> Prop) lo k hi
    (body : Z -> M unit) (h : @heap T) :
  lo <= k < hi -> Inv h ->
  (forall i s, lo <= i < k -> Inv s ->
     body i s = Undefined \/ exists s', body i s = Ret (tt, s') /\ Inv s') ->
  (forall s, Inv s -> body k s = Undefined) ->
  for_each lo hi body h = Undefined.
Proof.
  intros Hk Hinv Hstep Hfail. rewrite (for_each_split lo k hi) by lia.
  destruct (for_each_ret_or_undefined Inv lo k body h Hinv Hstep)
    as [E|(s' & E & Hs')].
  - now apply bind_undefined.
  - eapply bind_eval; [exact E|].
    apply (for_each_fails_at k k hi body s' s'); [lia | | now apply Hfail | discriminate].
    unfold for_each, for_range. now rewrite Z.sub_diag.
Qed.

(** [operator/] is undefined behaviour as soon as one entry has no
    quotient. *)
Lemma mat_div_some_undefined H W this rhs (a : list (list T)) (h : @heap T) i j :
  mats h !! this = Some a -> shaped H W a -> 0 <= i < H -> 0 <= j < W ->
  sdiv (entry_or_0 a i j) rhs = None ->
  mat_div H W this rhs h = Undefined.
Proof.
  intros Ha Hsa Hi Hj Hq. rewrite <- (ext_nil h). unfold mat_div, mat_copy.
  eapply bind_eval; [eapply load_mat_base; exact Ha|].
  apply local_mat_undefined. apply bind_undefined.
  set (Inv := fun s : @heap T => exists m, s = ext h [] [m] /\ shaped H W m).
  assert (Hget : forall i' j' m, 0 <= i' < H -> 0 <= j' < W ->
            mat_get H W this i' j' (ext h [] [m])
            = Ret (entry_or_0 a i' j', ext h [] [m])).
  { intros i' j' m Hi' Hj'.
    now destruct (mat_get_entry H W this i' j' a h [] [m] Ha Hsa Hi' Hj'). }
  assert (Hstep : forall i' j' s, 0 <= i' < H -> 0 <= j' < W -> Inv s ->
    (let* x := mat_get H W this i' j' in
     let* y := divide x rhs in
     mat_set H W (length (mats h) + 0)%nat i' j' y) s = Undefined \/
    exists s',
      (let* x := mat_get H W this i' j' in
       let* y := divide x rhs in
       mat_set H W (length (mats h) + 0)%nat i' j' y) s = Ret (tt, s') /\ Inv s').
  { intros i' j' s Hi' Hj' (m & -> & Hm).
    destruct (sdiv (entry_or_0 a i' j') rhs) as [y|] eqn:E.
    - right. destruct (shaped_row H W m i' Hm Hi') as (row & Hrow & Hlen).
      exists (ext h [] [<[Z.to_nat i' := <[Z.to_nat j' := y]> row]> m]). split.
      + eapply bind_eval; [now apply Hget|].
        eapply bind_eval; [apply divide_eval; exact E|].
        apply mat_set_sole; assumption.
      + eexists. split; [reflexivity|].
        apply shaped_insert with row; [assumption | assumption|].
        now rewrite length_insert.
    - left. eapply bind_eval; [now apply Hget|].
      apply bind_undefined. unfold divide. now rewrite E. }
  assert (Ha0 : Inv (ext h [] [a])) by (exists a; now split).
  apply (for_each_undefined_at Inv 0 i H); [lia | exact Ha0 | |].
  - intros i' s Hi' Hs. apply for_each_ret_or_undefined; [exact Hs|].
    intros j' s' Hj' Hs'. apply Hstep; [lia | lia | exact Hs'].
  - intros s Hs. apply (for_each_undefined_at Inv 0 j W); [lia | exact Hs | |].
    + intros j' s' Hj' Hs'. apply Hstep; [lia | lia | exact Hs'].
    + intros s' (m & -> & Hm). eapply bind_eval; [now apply Hget|].
      apply bind_undefined. unfold divide. now rewrite Hq.
Qed.

(** [transpose]. *)
Lemma mat_transpose_entries H W this (a : list (list T)) (h : @heap T) :
  mats h !! this = Some a -> shaped H W a -> 0 <= W ->
  exists r,
    mat_transpose H W this h = Ret (r, h) /\
    shaped W H r /\
    forall i j, 0 <= i < H -> 0 <= j < W ->
                entry r (Z.to_nat j) (Z.to_nat i)
                = entry a (Z.to_nat i) (Z.to_nat j).
Proof.
  intros Ha Hsa HW. pose proof (shaped_nonneg _ _ _ Hsa) as HH.
  destruct (mat_loops_sole h H W W H (fun _ _ => true) (fun i j => (j, i))
              (fun i j => entry_or_0 a i j)
              (fun i j => let* x := mat_get H W this i j in
                          mat_set W H (length (mats h) + 0)%nat j i x)
              (replicate (Z.to_nat W) (replicate (Z.to_nat H) s0)))
    as (r & Hrun & Hsr & Hr & _); try assumption.
  - now apply shaped_replicate.
  - intros i j Hi Hj _. simpl. lia.
  - intros i j i' j' _ _ _ _ _ _ [= -> ->]. split; reflexivity.
  - intros i j m Hi Hj Hm.
    eapply bind_eval; [apply (mat_get_entry H W this i j a); assumption|].
    reflexivity.
  - exists r. split; [|split; [assumption|]].
    + rewrite <- (ext_nil h). unfold mat_transpose.
      eapply mat_new_sole; [assumption | assumption |].
      eapply bind_eval; [exact Hrun|]. now apply load_mat_local.
    + intros i j Hi Hj. pose proof (Hr i j Hi Hj eq_refl) as E. simpl in E.
      rewrite E. symmetry.
      apply (mat_get_entry H W this i j a h [] []); assumption.
Qed.

(** [identity]. *)
Lemma mat_identity_entries H (h : @heap T) :
  0 <= H ->
  exists r,
    mat_identity H H h = Ret (r, h) /\
    shaped H H r /\
    forall i j, 0 <= i < H -> 0 <= j < H ->
                entry r (Z.to_nat i) (Z.to_nat j)
                = Some (if i =? j then s1 else s0).
Proof.
  intros HH.
  destruct (mat_loops_sole h H H H H (fun i j => i =? j) (fun i j => (i, j))
              (fun _ _ => s1)
              (fun i j => if i =? j
                          then mat_set H H (length (mats h) + 0)%nat i j s1
                          else ret tt)
              (replicate (Z.to_nat H) (replicate (Z.to_nat H) s0)))
    as (r & Hrun & Hsr & Hr & Hrest); try assumption.
  - now apply shaped_replicate.
  - intros i j Hi Hj _. simpl. lia.
  - intros i j i' j' _ _ _ _ _ _ [= -> ->]. split; reflexivity.
  - intros i j m Hi Hj Hm. now destruct (i =? j).
  - exists r. split; [|split; [assumption|]].
    + rewrite <- (ext_nil h). unfold mat_identity, is_square.
      rewrite Z.eqb_refl. eapply bind_eval; [reflexivity|].
      eapply mat_new_sole; [assumption | assumption |].
      eapply bind_eval; [exact Hrun|]. now apply load_mat_local.
    + intros i j Hi Hj. destruct (Z.eqb_spec i j) as [->|Hne].
      * apply (Hr j j Hi Hj). apply Z.eqb_refl.
      * rewrite Hrest; [now apply entry_replicate|].
        intros i' j' Hi' Hj' Ew. apply Z.eqb_eq in Ew. subst j'. simpl.
        intros [= E1 E2]. lia.
Qed.

(** [grow]. *)
Lemma mat_grow_entries H W RH RW this d (a : list (list T)) (h : @heap T) :
  mats h !! this = Some a -> shaped H W a -> 0 <= W ->
  H <= RH -> W <= RW -> H < RH \/ W < RW ->
  exists r,
    mat_grow H W RH RW this d h = Ret (r, h) /\
    shaped RH RW r /\
    forall i j, 0 <= i < RH -> 0 <= j < RW ->
                entry r (Z.to_nat i) (Z.to_nat j)
                = if (i <? H) && (j <? W)
                  then entry a (Z.to_nat i) (Z.to_nat j) else Some d.
Proof.
  intros Ha Hsa HW HRH HRW Hlt. pose proof (shaped_nonneg _ _ _ Hsa) as HH.
  destruct (mat_loops_sole h H W RH RW (fun _ _ => true) (fun i j => (i, j))
              (fun i j => entry_or_0 a i j)
              (fun i j => let* x := mat_get H W this i j in
                          mat_set RH RW (length (mats h) + 0)%nat i j x)
              (replicate (Z.to_nat RH) (replicate (Z.to_nat RW) d)))
    as (r & Hrun & Hsr & Hr & Hrest); try assumption.
  - apply shaped_replicate; lia.
  - intros i j Hi Hj _. simpl. lia.
  - intros i j i' j' _ _ _ _ _ _ [= -> ->]. split; reflexivity.
  - intros i j m Hi Hj Hm.
    eapply bind_eval; [apply (mat_get_entry H W this i j a); assumption|].
    reflexivity.
  - exists r. split; [|split; [assumption|]].
    + rewrite <- (ext_nil h). unfold mat_grow.
      replace (RH >=? H) with true by lia. replace (RW >=? W) with true by lia.
      replace ((RH >? H) || (RW >? W)) with true by lia.
      do 3 (eapply bind_eval; [reflexivity|]).
      eapply mat_new_sole; [lia | lia |].
      eapply bind_eval; [exact Hrun|]. now apply load_mat_local.
    + intros i j Hi Hj.
      destruct (Z.ltb_spec i H) as [HiH|HiH];
        [destruct (Z.ltb_spec j W) as [HjW|HjW]|]; simpl.
      * pose proof (Hr i j ltac:(lia) ltac:(lia) eq_refl) as E. simpl in E.
        rewrite E. symmetry.
        apply (mat_get_entry H W this i j a h [] []); auto; lia.
      * rewrite Hrest; [apply entry_replicate; lia|].
        intros i' j' Hi' Hj' _. simpl. intros [= E1 E2]. lia.
      * rewrite Hrest; [apply entry_replicate; lia|].
        intros i' j' Hi' Hj' _. simpl. intros [= E1 E2]. lia.
Qed.

(** [row_matrix], for a row of the matrix. *)
Lemma mat_row_matrix_entries H W this row (a : list (list T)) (h : @heap T) :
  mats h !! this = Some a -> shaped H W a -> 0 <= W -> 0 <= row < H ->
  exists r,
    mat_row_matrix H W this row h = Ret (r, h) /\
    shaped 1 W r /\
    forall j, 0 <= j < W ->
              entry r 0 (Z.to_nat j) = entry a (Z.to_nat row) (Z.to_nat j).
Proof.
  intros Ha Hsa HW Hrow.
  destruct (mat_loops_sole h (row + 1) W 1 W (fun i _ => i =? row)
              (fun _ j => (0, j)) (fun i j => entry_or_0 a row j)
              (fun i j => if i =? row
                          then let* x := mat_get H W this i j in
                               mat_set 1 W (length (mats h) + 0)%nat 0 j x
                          else ret tt)
              (replicate (Z.to_nat 1) (replicate (Z.to_nat W) s0)))
    as (r & Hrun & Hsr & Hr & _); try assumption.
  - apply shaped_replicate; lia.
  - lia.
  - intros i j Hi Hj _. simpl. lia.
  - intros i j i' j' _ _ _ _ E E' [= ->].
    apply Z.eqb_eq in E, E'. split; [lia | reflexivity].
  - intros i j m Hi Hj Hm. destruct (Z.eqb_spec i row) as [->|Hne]; [|reflexivity].
    eapply bind_eval; [apply (mat_get_entry H W this row j a); assumption|].
    reflexivity.
  - exists r. split; [|split; [assumption|]].
    + rewrite <- (ext_nil h). unfold mat_row_matrix.
      eapply bind_eval; [apply assert_eval, is_row_true; assumption|].
      eapply mat_new_sole; [lia | assumption |].
      eapply bind_eval; [exact Hrun|]. now apply load_mat_local.
    + intros j Hj.
      change (entry r (Z.to_nat 0) (Z.to_nat j) = entry a (Z.to_nat row) (Z.to_nat j)).
      pose proof (Hr row j ltac:(lia) Hj (Z.eqb_refl row)) as E. simpl in E.
      rewrite E. symmetry.
      apply (mat_get_entry H W this row j a h [] []); assumption.
Qed.

(** Of the iterations of [for (i = 0; i <= c; i++)] only the last one has an
    effect. *)
Lemma for_each_only_last c (G : Z -> M unit) (h : @heap T) :
  0 <= c -> (forall i, 0 <= i < c -> G i h = Ret (tt, h)) ->
  for_each 0 (c + 1) G h = G c h.
Proof.
  intros Hc Hnop. rewrite (for_each_split 0 c (c + 1)) by lia.
  eapply bind_eval; [now apply for_each_noop|].
  unfold for_each, for_range. replace (Z.to_nat (c + 1 - c)) with 1%nat by lia.
  simpl. apply bind_ret_r.
Qed.

(** [row_vector], for a row of the matrix. *)
Lemma mat_row_vector_row H W this row (a : list (list T)) (v : list T)
    (h : @heap T) :
  mats h !! this = Some a -> shaped H W a -> 0 <= row < H ->
  a !! Z.to_nat row = Some v ->
  mat_row_vector H W this row h = Ret (v, h).
Proof.
  intros Ha Hsa Hrow Hv.
  assert (Lv : Z.of_nat (length v) = W) by (destruct Hsa as [_ Hr]; eauto).
  destruct (vec_write_loop h W (fun j => entry_or_0 a row j)
              (fun j => let* x := mat_get H W this row j in
                        vec_set W (VObj (length (vecs h) + 0)) j x)
              (replicate (Z.to_nat W) s0))
    as (r & Hrun & Lr & Hr).
  { rewrite length_replicate. lia. }
  { intros j w Hj Hw.
    eapply bind_eval; [apply (mat_get_entry H W this row j a); assumption|].
    now apply vec_set_sole. }
  assert (r = v) as ->.
  { apply (list_eq_upto _ _ W); [assumption | assumption |].
    intros j Hj. rewrite (Hr j Hj).
    destruct (mat_get_entry H W this row j a h [] [] Ha Hsa Hrow Hj) as [_ E].
    unfold entry in E. rewrite Hv in E. now rewrite E. }
  rewrite <- (ext_nil h). unfold mat_row_vector.
  eapply vec_new_sole; [lia|].
  eapply bind_eval; [|now apply load_local].
  rewrite for_each_only_last; [| lia |].
  - rewrite <- Hrun. apply for_each_ext. intros j h1. now rewrite Z.eqb_refl.
  - intros i Hi. apply for_each_noop. intros j Hj.
    now replace (i =? row) with false by lia.
Qed.

End MatrixResults.

(** ** The matrix product *)

Section MatrixProduct.

Context {T : Type} {ST : Scalar T}.

(** Entry [i][j] of the product of [a] (width [W]) and [b]: the products
    a[i][k] * b[k][j] added up from 0, k ascending. *)
Definition product_entry (W : Z) (a b : list (list T)) (i j : Z) : T :=
  fold_left (fun acc k => sadd acc (smul (entry_or_0 a i k) (entry_or_0 b k j)))
            (seqZ 0 W) s0.

Lemma for_loop_forget {X} (body : Z -> X -> M X) (ubody : Z -> M unit) :
  (forall i s (h : @heap T), bind (body i s) (fun _ => ret tt) h = ubody i h) ->
  forall n i s (h : @heap T),
    bind (for_loop n i body s) (fun _ => ret tt) h
    = for_loop n i (fun i _ => ubody i) tt h.
Proof.
  intros Hb. induction n as [|n IH]; intros i s h; [reflexivity|].
  simpl. specialize (Hb i s h). unfold bind in Hb |- *.
  destruct (body i s h) as [[s' h']| | |]; rewrite <- Hb; try reflexivity.
  apply IH.
Qed.

Lemma bind_forget {X A} (m : M X) (k : M A) (h h' : @heap T) :
  bind m (fun _ => ret tt) h = Ret (tt, h') -> bind m (fun _ => k) h = k h'.
Proof.
  unfold bind, ret. destruct (m h) as [[x h1]| | |]; try discriminate.
  now intros [= ->].
Qed.

Lemma bind_set_forget {X} (K : M X) (f : X -> M unit) (h : @heap T) :
  bind (bind K (fun cv => bind (f cv) (fun _ => ret cv))) (fun _ => ret tt) h
  = bind K f h.
Proof.
  unfold bind, ret. destruct (K h) as [[cv h1]| | |]; try reflexivity.
  destruct (f cv h1) as [[[] h2]| | |]; reflexivity.
Qed.

Lemma product_loop H W RW this rhs (a b : list (list T)) i j h lv lm :
  mats h !! this = Some a -> mats h !! rhs = Some b ->
  shaped H W a -> shaped W RW b -> 0 <= i < H -> 0 <= j < RW ->
  forall n k acc, 0 <= k -> k + Z.of_nat n = W ->
    for_loop n k (fun k crossval =>
        let* x := mat_get H W this i k in
        let* y := mat_get W RW rhs k j in
        ret (sadd crossval (smul x y))) acc (ext h lv lm)
    = Ret (fold_left (fun acc k =>
                        sadd acc (smul (entry_or_0 a i k) (entry_or_0 b k j)))
                     (seqZ k (Z.of_nat n)) acc, ext h lv lm).
Proof.
  intros Ha Hb Hsa Hsb Hi Hj. induction n as [|n IH]; intros k acc Hk Hn.
  - reflexivity.
  - rewrite seqZ_cons by lia. simpl fold_left. simpl for_loop.
    eapply bind_eval.
    + eapply bind_eval; [apply (mat_get_entry H W this i k a); auto; lia|].
      eapply bind_eval; [apply (mat_get_entry W RW rhs k j b); auto; lia|].
      reflexivity.
    + rewrite IH by lia.
      now replace (Z.pred (Z.of_nat (S n))) with (Z.of_nat n) by lia.
Qed.

Lemma mat_mul_entries H W RW this rhs (a b : list (list T)) (h : @heap T) :
  mats h !! this = Some a -> mats h !! rhs = Some b ->
  shaped H W a -> shaped W RW b -> 0 <= W -> 0 <= RW ->
  exists r,
    mat_mul H W RW this rhs h = Ret (r, h) /\
    shaped H RW r /\
    forall i j, 0 <= i < H -> 0 <= j < RW ->
                entry r (Z.to_nat i) (Z.to_nat j) = Some (product_entry W a b i j).
Proof.
  intros Ha Hb Hsa Hsb HW HRW. pose proof (shaped_nonneg _ _ _ Hsa) as HH.
  pose (crossed := (length (mats h) + 0)%nat).
  pose (inner := fun i j : Z =>
          let* crossval := for_range 0 W (fun k crossval =>
                             let* x := mat_get H W this i k in
                             let* y := mat_get W RW rhs k j in
                             ret (sadd crossval (smul x y))) s0 in
          mat_set H RW crossed i j crossval).
  destruct (mat_write_loops h H RW (product_entry W a b) inner
              (replicate (Z.to_nat H) (replicate (Z.to_nat RW) s0)))
    as (r & Hrun & Hsr & Hr); [now apply shaped_replicate | assumption | |].
  { intros i j m row Hi Hj Hm Hrow. unfold inner.
    eapply bind_eval.
    - unfold for_range.
      rewrite (product_loop H W RW this rhs a b i j h [] [m]) by (assumption || lia).
      rewrite Z.sub_0_r, Z2Nat.id by lia. reflexivity.
    - now apply mat_set_sole. }
  exists r. split; [|split; assumption].
  rewrite <- (ext_nil h). unfold mat_mul.
  eapply mat_new_sole; [assumption | assumption |].
  rewrite bind_forget with (h' := ext h [] [r]); [now apply load_mat_local|].
  unfold for_range. rewrite for_loop_forget with
    (ubody := fun i => for_each 0 RW (fun j => inner i j)); [exact Hrun|].
  intros i s h1. unfold for_each, for_range.
  apply for_loop_forget. intros j s' h2. apply bind_set_forget.
Qed.

End MatrixProduct.

(** ** Comparison of matrices; blocks that do not fit *)

Section MatrixScan.

Context {T : Type} {ST : Scalar T}.

Lemma for_return_scan_prop {R} lo hi (body : Z -> M (option R))
    (P : Z -> Prop) (r : R) (h : @heap T) :
  (forall i, lo <= i < hi ->
     exists b : bool, body i h = Ret (if b then Some r else None, h) /\
                      (b = true <-> P i)) ->
  exists b : bool, for_return lo hi body h = Ret (if b then Some r else None, h) /\
                   (b = true <-> exists i, lo <= i < hi /\ P i).
Proof.
  intros Hbody. unfold for_return.
  assert (Hgen : forall n i, lo <= i -> i + Z.of_nat n <= Z.max lo hi ->
    exists b : bool,
      for_return_loop n i body h = Ret (if b then Some r else None, h) /\
      (b = true <-> exists k, i <= k < i + Z.of_nat n /\ P k)).
  { induction n as [|n IH]; intros i Hi Hn.
    - exists false. split; [reflexivity|]. split; [discriminate|].
      intros (k & Hk & _). lia.
    - simpl for_return_loop.
      destruct (Hbody i) as (bi & Hrun & Hbi); [lia|]. destruct bi.
      + exists true. split.
        * eapply bind_eval; [exact Hrun|]. reflexivity.
        * split; [|reflexivity]. intros _. exists i. split; [lia | now apply Hbi].
      + destruct (IH (i + 1)) as (b & Hrest & Hb); [lia | lia |].
        exists b. split.
        * eapply bind_eval; [exact Hrun|]. exact Hrest.
        * rewrite Hb. split; intros (k & Hk & Htk); exists k; (split; [|assumption]).
          -- lia.
          -- assert (k <> i) by (intros ->; apply Hbi in Htk; discriminate). lia. }
  destruct (Hgen (Z.to_nat (hi - lo)) lo) as (b & Hrun & Hb); [lia | lia |].
  exists b. split; [assumption|]. rewrite Hb.
  split; intros (k & Hk & Htk); exists k; (split; [lia | assumption]).
Qed.

Lemma mat_eq_result H W this rhs (a b : list (list T)) (h : @heap T) :
  mats h !! this = Some a -> mats h !! rhs = Some b ->
  shaped H W a -> shaped H W b ->
  exists e : bool,
    mat_eq H W this rhs h = Ret (e, h) /\
    mat_ne H W this rhs h = Ret (negb e, h) /\
    (e = true <-> forall i j, 0 <= i < H -> 0 <= j < W ->
                              seqb (entry_or_0 a i j) (entry_or_0 b i j) = true).
Proof.
  intros Ha Hb Hsa Hsb.
  destruct (for_return_scan_prop 0 H
              (fun i => for_return 0 W (fun j =>
                 let* x := mat_get H W this i j in
                 let* y := mat_get H W rhs i j in
                 if sneq x y then ret (Some false) else ret None))
              (fun i => exists j, 0 <= j < W /\
                 sneq (entry_or_0 a i j) (entry_or_0 b i j) = true)
              false h) as (d & Hrun & Hd).
  { intros i Hi.
    apply (for_return_scan 0 W _
             (fun j => sneq (entry_or_0 a i j) (entry_or_0 b i j)) false h).
    intros j Hj. rewrite <- (ext_nil h).
    eapply bind_eval; [apply (mat_get_entry H W this i j a); assumption|].
    eapply bind_eval; [apply (mat_get_entry H W rhs i j b); assumption|].
    now destruct (sneq _ _). }
  assert (He : mat_eq H W this rhs h = Ret (negb d, h)).
  { unfold mat_eq. eapply bind_eval; [exact Hrun|]. now destruct d. }
  exists (negb d). split; [exact He|]. split.
  - unfold mat_ne. eapply bind_eval; [exact He|]. reflexivity.
  - split.
    + intros E i j Hi Hj.
      destruct (seqb (entry_or_0 a i j) (entry_or_0 b i j)) eqn:Es; [reflexivity|].
      assert (d = true) as ->; [|discriminate].
      apply Hd. exists i. split; [assumption|]. exists j. split; [assumption|].
      unfold sneq. now rewrite Es.
    + intros Hall. destruct d; [|reflexivity].
      destruct (proj1 Hd eq_refl) as (i & Hi & j & Hj & Hne).
      unfold sneq in Hne. now rewrite (Hall i j Hi Hj) in Hne.
Qed.

(** [submatrix] on a block that does not lie within the matrix. *)
Lemma submatrix_aborts H W RH RW this top left (a : list (list T)) (h : @heap T) :
  mats h !! this = Some a -> shaped H W a ->
  0 < RH <= H -> 0 < RW <= W ->
  ~ (0 <= top /\ top + RH <= H /\ 0 <= left /\ left + RW <= W) ->
  mat_submatrix H W RH RW this top left h = Abort.
Proof.
  intros Ha Hsa HRH HRW Hfit. rewrite <- (ext_nil h). unfold mat_submatrix.
  replace (RH >? 0) with true by lia. replace (RW >? 0) with true by lia.
  replace (RH <=? H) with true by lia. replace (RW <=? W) with true by lia.
  do 4 (eapply bind_eval; [reflexivity|]).
  unfold mat_new. apply local_mat_abort.
  eapply bind_eval.
  { apply mat_fill_replicate; [apply shaped_replicate; lia | lia]. }
  apply bind_abort.
  set (sub := (length (mats h) + 0)%nat).
  set (body := fun i j : Z =>
         let* x := mat_get (T:=T) H W this (i + top) (j + left) in
         mat_set RH RW sub i j x).
  set (zero := replicate (Z.to_nat RH) (replicate (Z.to_nat RW) (s0 : T))).
  assert (Hzero : shaped RH RW zero) by (apply shaped_replicate; lia).
  assert (Hrow_out : forall i j m, ~ 0 <= i + top < H ->
            body i j (ext h [] [m]) = Abort).
  { intros i j m Hi. apply bind_abort. unfold mat_get. apply bind_abort.
    now apply mat_index_abort. }
  assert (Hcol_out : forall i j m, 0 <= i + top < H -> ~ 0 <= j + left < W ->
            body i j (ext h [] [m]) = Abort).
  { intros i j m Hi Hj. apply bind_abort. unfold mat_get.
    eapply bind_eval; [apply mat_index_eval, is_row_true; assumption|].
    now apply vec_get_abort. }
  assert (Hstep : forall i j m, 0 <= i < RH -> 0 <= j < RW ->
            0 <= i + top < H -> 0 <= j + left < W -> shaped RH RW m ->
            body i j (ext h [] [m])
            = mat_set RH RW sub i j (entry_or_0 a (i + top) (j + left))
                      (ext h [] [m])).
  { intros i j m Hi Hj Hit Hjl Hm.
    eapply bind_eval;
      [apply (mat_get_entry H W this (i + top) (j + left) a); assumption|].
    reflexivity. }
  assert (Hdiscr : forall x : unit * @heap T, Abort <> Ret x) by discriminate.
  destruct (decide (0 <= top < H)) as [Htop|Htop].
  2:{ apply (for_each_fails_at 0 0 RH _ _ (ext h [] [zero]));
        [lia | reflexivity | | exact Hdiscr].
      apply (for_each_fails_at 0 0 RW _ _ (ext h [] [zero]));
        [lia | reflexivity | | exact Hdiscr].
      apply Hrow_out. lia. }
  destruct (decide (0 <= left < W)) as [Hleft|Hleft].
  2:{ apply (for_each_fails_at 0 0 RH _ _ (ext h [] [zero]));
        [lia | reflexivity | | exact Hdiscr].
      apply (for_each_fails_at 0 0 RW _ _ (ext h [] [zero]));
        [lia | reflexivity | | exact Hdiscr].
      apply Hcol_out; lia. }
  destruct (decide (left + RW <= W)) as [Hwide|Hwide].
  - (* the rows run out *)
    assert (Hrows : H - top < RH) by lia.
    destruct (mat_loops_sole h (H - top) RW RH RW (fun _ _ => true)
                (fun i j => (i, j))
                (fun i j => entry_or_0 a (i + top) (j + left)) body zero)
      as (m1 & Hrun & Hs1 & _); try assumption; try lia.
    + intros i j Hi Hj _. simpl. lia.
    + intros i j i' j' _ _ _ _ _ _ [= -> ->]. split; reflexivity.
    + intros i j m Hi Hj Hm. apply Hstep; (assumption || lia).
    + apply (for_each_fails_at 0 (H - top) RH _ _ (ext h [] [m1]));
        [lia | exact Hrun | | exact Hdiscr].
      apply (for_each_fails_at 0 0 RW _ _ (ext h [] [m1]));
        [lia | reflexivity | | exact Hdiscr].
      apply Hrow_out. lia.
  - (* the columns run out, in the first row *)
    destruct (mat_loops_sole h 1 (W - left) RH RW (fun _ _ => true)
                (fun i j => (i, j))
                (fun i j => entry_or_0 a (i + top) (j + left)) body zero)
      as (m1 & Hrun & Hs1 & _); try assumption; try lia.
    + intros i j Hi Hj _. simpl. lia.
    + intros i j i' j' _ _ _ _ _ _ [= -> ->]. split; reflexivity.
    + intros i j m Hi Hj Hm. apply Hstep; (assumption || lia).
    + change 1 with (0 + 1) in Hrun.
      rewrite for_each_only_last in Hrun by (lia || (intros; lia)).
      apply (for_each_fails_at 0 0 RH _ _ (ext h [] [zero]));
        [lia | reflexivity | | exact Hdiscr].
      apply (for_each_fails_at 0 (W - left) RW _ _ (ext h [] [m1]));
        [lia | exact Hrun | | exact Hdiscr].
      apply Hcol_out; lia.
Qed.

End MatrixScan.

(** ** Matrices as objects of the store *)

Section MatrixObjects.

Context {T : Type} {ST : Scalar T}.

(** The store with matrix [m] holding [a]. *)
Definition update_mat (m : nat) (a : list (list T)) (h : @heap T) : @heap T :=
  Heap (vecs h) (<[m := a]> (mats h)).

Lemma mats_update_mat m (a a' : list (list T)) (h : @heap T) :
  mats h !! m = Some a -> mats (update_mat m a' h) !! m = Some a'.
Proof.
  intros Ha. simpl. apply list_lookup_insert_eq. eapply lookup_lt_Some; eauto.
Qed.

Lemma update_mat_twice m (a1 a2 : list (list T)) (h : @heap T) :
  update_mat m a2 (update_mat m a1 h) = update_mat m a2 h.
Proof. unfold update_mat. simpl. now rewrite list_insert_insert_eq. Qed.

Lemma update_mat_same m (a : list (list T)) (h : @heap T) :
  mats h !! m = Some a -> update_mat m a h = h.
Proof.
  intros Ha. unfold update_mat. rewrite list_insert_id by assumption.
  now destruct h.
Qed.

Lemma mat_set_object H W m i j x (a0 a : list (list T)) row (h : @heap T) :
  mats h !! m = Some a0 -> shaped H W a -> 0 <= i < H -> 0 <= j < W ->
  a !! Z.to_nat i = Some row ->
  mat_set H W m i j x (update_mat m a h)
  = Ret (tt, update_mat m (<[Z.to_nat i := <[Z.to_nat j := x]> row]> a) h).
Proof.
  intros Ha0 Hs Hi Hj Hrow.
  destruct (lookup_lt_is_Some_2 row (Z.to_nat j)) as [y Hy].
  { destruct Hs as [_ Hr]. specialize (Hr _ _ Hrow). lia. }
  erewrite mat_set_eval; [ | apply is_row_true; eassumption
                           | apply is_index_true; eassumption
                           | eapply mats_update_mat; eassumption
                           | exact Hrow | exact Hy].
  change (Heap (vecs (update_mat m a h)) ?ms)
    with (update_mat m (<[Z.to_nat i := <[Z.to_nat j := x]> row]> a)
                     (update_mat m a h)).
  now rewrite update_mat_twice.
Qed.

Lemma mat_fill_object H W m value (a : list (list T)) (h : @heap T) :
  mats h !! m = Some a -> shaped H W a -> 0 <= W ->
  mat_fill H W m value h
  = Ret (tt, update_mat m (replicate (Z.to_nat H) (replicate (Z.to_nat W) value)) h).
Proof.
  intros Ha Hs HW. pose proof (shaped_nonneg _ _ _ Hs) as HH.
  destruct (mat_loops_gen (fun a' => update_mat m a' h) H W H W
              (fun _ _ => true) (fun i j => (i, j)) (fun _ _ => value)
              (fun i j => mat_set H W m i j value) a)
    as (r & Hrun & Hsr & Hr & _); try assumption.
  - intros i j Hi Hj _. simpl. lia.
  - intros i j i' j' _ _ _ _ _ _ [= -> ->]. split; reflexivity.
  - intros i j a' row Hi Hj _ Hs' Hrow. simpl in *.
    now apply (mat_set_object H W m i j value a a' row h).
  - discriminate.
  - rewrite (update_mat_same m a h Ha) in Hrun. unfold mat_fill. rewrite Hrun.
    do 3 f_equal.
    apply (mat_ext H W); [assumption | now apply shaped_replicate |].
    intros i j Hi Hj. pose proof (Hr i j Hi Hj eq_refl) as E. simpl in E.
    rewrite E. symmetry. now apply entry_replicate.
Qed.

Lemma mat_get_object H W m i j (a : list (list T)) (h : @heap T) :
  mats h !! m = Some a -> shaped H W a -> 0 <= i < H -> 0 <= j < W ->
  mat_get H W m i j h = Ret (entry_or_0 a i j, h).
Proof.
  intros Ha Hs Hi Hj. rewrite <- (ext_nil h).
  now apply (mat_get_entry H W m i j a).
Qed.

Lemma entry_or_0_insert H W (a : list (list T)) i j i' j' row x :
  shaped H W a -> 0 <= i < H -> 0 <= j < W -> 0 <= i' -> 0 <= j' ->
  a !! Z.to_nat i = Some row ->
  entry_or_0 (<[Z.to_nat i := <[Z.to_nat j := x]> row]> a) i' j'
  = if (i =? i') && (j =? j') then x else entry_or_0 a i' j'.
Proof.
  intros Hs Hi Hj Hi' Hj' Hrow. unfold entry_or_0.
  rewrite entry_insert; [|assumption|].
  - destruct (decide _) as [[E1 E2]|Hne].
    + replace (i =? i') with true by lia. now replace (j =? j') with true by lia.
    + destruct (Z.eqb_spec i i') as [->|]; [|reflexivity].
      destruct (Z.eqb_spec j j') as [->|]; [|reflexivity].
      exfalso. apply Hne. split; reflexivity.
  - destruct Hs as [_ Hr]. specialize (Hr _ _ Hrow). lia.
Qed.

Lemma mat_init_entries H W (il : list T) :
  0 <= H -> 0 <= W ->
  shaped H W (mat_init H W il) /\
  forall i j, 0 <= i < H -> 0 <= j < W ->
    entry (mat_init H W il) (Z.to_nat i) (Z.to_nat j)
    = Some (default s0 (il !! Z.to_nat (i * W + j))).
Proof.
  intros HH HW. unfold mat_init. split; [split|].
  - rewrite init_rows_length. lia.
  - intros i row Hrow.
    assert (i < Z.to_nat H)%nat as Hi.
    { apply lookup_lt_Some in Hrow. now rewrite init_rows_length in Hrow. }
    rewrite init_rows_lookup in Hrow by assumption. injection Hrow as <-.
    rewrite init_elements_length. lia.
  - intros i j Hi Hj. unfold entry.
    rewrite init_rows_lookup by lia.
    rewrite init_elements_lookup by lia. rewrite lookup_drop.
    do 3 f_equal. nia.
Qed.

End MatrixObjects.

(** ** Expressions with a temporary *)

Section Temporaries.

Context {T : Type} {ST : Scalar T}.

(** [m.transpose().transpose()]. *)
Definition transpose_twice (HEIGHT WIDTH : Z) (this : nat) : M (list (list T)) :=
  let* t := mat_transpose HEIGHT WIDTH this in
  local_mat t (fun tmp => mat_transpose WIDTH HEIGHT tmp).

(** [m.transpose().determinant()]. *)
Definition transpose_determinant (HEIGHT WIDTH : Z) (this : nat) : M T :=
  let* t := mat_transpose HEIGHT WIDTH this in
  local_mat t (fun tmp => mat_determinant WIDTH HEIGHT tmp).

(** [m * gfx::matrix<scalar_type, WIDTH, WIDTH>::identity()]. *)
Definition times_identity (HEIGHT WIDTH : Z) (this : nat) : M (list (list T)) :=
  let* ident := mat_identity WIDTH WIDTH in
  local_mat ident (fun tmp => mat_mul HEIGHT WIDTH WIDTH this tmp).

Lemma mats_top (t : list (list T)) (h : @heap T) :
  mats (Heap (vecs h) (mats h ++ [t])) !! length (mats h) = Some t.
Proof. simpl. now rewrite lookup_app_r, Nat.sub_diag by lia. Qed.

Lemma mats_below m (a t : list (list T)) (h : @heap T) :
  mats h !! m = Some a -> mats (Heap (vecs h) (mats h ++ [t])) !! m = Some a.
Proof. intros Ha. simpl. now apply lookup_app_l_Some. Qed.

Lemma transpose_twice_same H W this (a : list (list T)) (h : @heap T) :
  mats h !! this = Some a -> shaped H W a -> 0 <= W ->
  transpose_twice H W this h = Ret (a, h).
Proof.
  intros Ha Hs HW. pose proof (shaped_nonneg _ _ _ Hs) as HH.
  destruct (mat_transpose_entries H W this a h Ha Hs HW) as (t & Ht & Hst & Het).
  unfold transpose_twice. eapply bind_eval; [exact Ht|].
  apply local_mat_pure.
  destruct (mat_transpose_entries W H (length (mats h)) t
              (Heap (vecs h) (mats h ++ [t])) (mats_top t h) Hst HH)
    as (r & Hr & Hsr & Her).
  rewrite Hr. do 2 f_equal.
  apply (mat_ext H W); [assumption | assumption |].
  intros i j Hi Hj. rewrite (Her j i Hj Hi). now apply Het.
Qed.

End Temporaries.

(** ** [int] matrices: identity, transpose and determinant, solve *)

Lemma sum_single (f : Z -> Z) (j : Z) n :
  forall lo acc,
    (forall k, lo <= k < lo + Z.of_nat n -> k <> j -> f k = 0) ->
    fold_left (fun acc k => acc + f k) (seqZ lo (Z.of_nat n)) acc
    = acc + (if decide (lo <= j < lo + Z.of_nat n) then f j else 0).
Proof.
  induction n as [|n IH]; intros lo acc Hf.
  - change (seqZ lo (Z.of_nat 0)) with (@nil Z). simpl.
    destruct (decide _); lia.
  - rewrite seqZ_cons by lia. simpl fold_left.
    replace (Z.pred (Z.of_nat (S n))) with (Z.of_nat n) by lia.
    rewrite IH by (intros k Hk Hne; apply Hf; lia).
    destruct (Z.eq_dec lo j) as [->|Hne].
    + repeat destruct (decide _); lia.
    + rewrite (Hf lo) by lia. repeat destruct (decide _); lia.
Qed.

Lemma times_identity_same H W this (a : list (list Z)) (h : @heap Z) :
  mats h !! this = Some a -> shaped H W a -> 0 <= W ->
  times_identity H W this h = Ret (a, h).
Proof.
  intros Ha Hs HW.
  destruct (mat_identity_entries (T:=Z) W h HW) as (ident & Hid & Hsi & Hei).
  unfold times_identity. eapply bind_eval; [exact Hid|].
  apply local_mat_pure.
  destruct (mat_mul_entries H W W this (length (mats h)) a ident
              (Heap (vecs h) (mats h ++ [ident]))
              (mats_below this a ident h Ha) (mats_top ident h) Hs Hsi HW HW)
    as (r & Hr & Hsr & Her).
  rewrite Hr. do 2 f_equal.
  apply (mat_ext H W); [assumption | assumption |].
  intros i j Hi Hj. rewrite (Her i j Hi Hj).
  destruct (mat_get_entry H W this i j a h [] [] Ha Hs Hi Hj) as [_ ->].
  f_equal. unfold product_entry.
  change (fold_left (fun acc k => acc + entry_or_0 a i k * entry_or_0 ident k j)
                    (seqZ 0 W) 0 = entry_or_0 a i j).
  rewrite <- (Z2Nat.id W) at 1 by assumption.
  rewrite (sum_single (fun k => entry_or_0 a i k * entry_or_0 ident k j) j).
  - rewrite decide_True by lia.
    rewrite (entry_some ident j j 1).
    + lia.
    + rewrite (Hei j j Hj Hj). now rewrite Z.eqb_refl.
  - intros k Hk Hne. rewrite (entry_some ident k j 0); [lia|].
    rewrite (Hei k j) by lia. now replace (k =? j) with false by lia.
Qed.

Ltac below_2 i :=
  let E := fresh in
  assert (E : i = 0 \/ i = 1) by lia; destruct E as [-> | ->].

Ltac below_3 i :=
  let E := fresh in
  assert (E : i = 0 \/ i = 1 \/ i = 2) by lia; destruct E as [-> | [-> | ->]].

Lemma shaped_2x2 {T} (a b c d : T) : shaped 2 2 [[a; b]; [c; d]].
Proof.
  split; [reflexivity|]. intros [|[|i]] row; simpl; intros [= <-]; reflexivity.
Qed.

Lemma shaped_3x3 {T} (a b c d e f g k l : T) :
  shaped 3 3 [[a; b; c]; [d; e; f]; [g; k; l]].
Proof.
  split; [reflexivity|]. intros [|[|[|i]]] row; simpl; intros [= <-]; reflexivity.
Qed.

Lemma transpose_2x2 {T} {ST : Scalar T} this (a00 a01 a10 a11 : T) (h : @heap T) :
  mats h !! this = Some [[a00; a01]; [a10; a11]] ->
  mat_transpose 2 2 this h = Ret ([[a00; a10]; [a01; a11]], h).
Proof.
  intros Ha.
  destruct (mat_transpose_entries 2 2 this _ h Ha (shaped_2x2 _ _ _ _))
    as (t & Ht & Hst & Het); [lia|].
  rewrite Ht. do 2 f_equal.
  apply (mat_ext 2 2); [assumption | apply shaped_2x2 |].
  intros i j Hi Hj. rewrite (Het j i Hj Hi).
  below_2 i; below_2 j; reflexivity.
Qed.

Lemma transpose_3x3 {T} {ST : Scalar T} this
    (a00 a01 a02 a10 a11 a12 a20 a21 a22 : T) (h : @heap T) :
  mats h !! this = Some [[a00; a01; a02]; [a10; a11; a12]; [a20; a21; a22]] ->
  mat_transpose 3 3 this h
  = Ret ([[a00; a10; a20]; [a01; a11; a21]; [a02; a12; a22]], h).
Proof.
  intros Ha.
  destruct (mat_transpose_entries 3 3 this _ h Ha
              (shaped_3x3 _ _ _ _ _ _ _ _ _))
    as (t & Ht & Hst & Het); [lia|].
  rewrite Ht. do 2 f_equal.
  apply (mat_ext 3 3); [assumption | apply shaped_3x3 |].
  intros i j Hi Hj. rewrite (Het j i Hj Hi).
  below_3 i; below_3 j; reflexivity.
Qed.

Lemma transpose_determinant_2x2 this (a00 a01 a10 a11 : Z) (h : @heap Z) :
  mats h !! this = Some [[a00; a01]; [a10; a11]] ->
  transpose_determinant 2 2 this h = mat_determinant 2 2 this h.
Proof.
  intros Ha. rewrite (determinant_2x2 h this a00 a01 a10 a11 Ha).
  unfold transpose_determinant.
  eapply bind_eval; [apply transpose_2x2; exact Ha|].
  apply local_mat_pure.
  rewrite (determinant_2x2 _ (length (mats h)) a00 a10 a01 a11 (mats_top _ h)).
  do 2 f_equal. unfold det2. simpl. lia.
Qed.

Lemma transpose_determinant_3x3 this
    (a00 a01 a02 a10 a11 a12 a20 a21 a22 : Z) (h : @heap Z) :
  mats h !! this = Some [[a00; a01; a02]; [a10; a11; a12]; [a20; a21; a22]] ->
  transpose_determinant 3 3 this h = mat_determinant 3 3 this h.
Proof.
  intros Ha.
  rewrite (determinant_3x3 h this a00 a01 a02 a10 a11 a12 a20 a21 a22 Ha).
  unfold transpose_determinant.
  eapply bind_eval; [apply transpose_3x3; exact Ha|].
  apply local_mat_pure.
  rewrite (determinant_3x3 _ (length (mats h)) a00 a10 a20 a01 a11 a21 a02 a12 a22
             (mats_top _ h)).
  do 2 f_equal. unfold det3. simpl. ring.
Qed.

Lemma quot_exact (y d : Z) :
  d <> 0 -> Z.abs (y * d) <= INT_MAX -> sdiv (y * d) d = Some y.
Proof.
  intros Hd Hy. rewrite sdiv_int; [now rewrite Z.quot_mul | assumption|].
  intros _. unfold INT_MIN, INT_MAX in *. lia.
Qed.

(** A determinant of small entries that is [y * d] has the quotient [y]. *)
Lemma quot_exact_small (n y d : Z) (A : list (list Z)) :
  Forall (Forall small) A -> det_spec A = n -> n = y * d -> d <> 0 ->
  sdiv n d = Some y.
Proof.
  intros HA Hn -> Hd. apply quot_exact; [assumption|].
  rewrite <- Hn. now apply small_det_spec.
Qed.

Lemma solve_2x2_solution this b (a00 a01 a10 a11 y0 y1 : Z) (h : @heap Z) :
  mats h !! this = Some [[a00; a01]; [a10; a11]] ->
  lookup_vec b h = Some [a00 * y0 + a01 * y1; a10 * y0 + a11 * y1] ->
  Forall small [a00; a01; a10; a11] ->
  Forall small [a00 * y0 + a01 * y1; a10 * y0 + a11 * y1] ->
  a00 * a11 - a10 * a01 <> 0 ->
  mat_solve 2 2 this b h = Ret ([y0; y1], h).
Proof.
  intros Ha Hb HsA Hsb Hd.
  assert (HA : Forall (Forall small) [[a00; a01]; [a10; a11]]).
  { inversion HsA as [|? ? H00 H1]; subst. inversion H1 as [|? ? H01 H2]; subst.
    inversion H2 as [|? ? H10 H3]; subst. inversion H3 as [|? ? H11 _]; subst.
    now repeat constructor. }
  apply (solve_2x2 h this b a00 a01 a10 a11 _ _ y0 y1 Ha Hb).
  - unfold cramer_component.
    apply (quot_exact_small _ _ _ _ (small_replace_column _ 0 _ HA Hsb) eq_refl);
      [|exact Hd].
    cbn [replace_column zip_with det_spec det2 list_insert insert]. simpl. ring.
  - unfold cramer_component.
    apply (quot_exact_small _ _ _ _ (small_replace_column _ 1 _ HA Hsb) eq_refl);
      [|exact Hd].
    cbn [replace_column zip_with det_spec det2 list_insert insert]. simpl. ring.
Qed.

Lemma solve_3x3_solution this b
    (a00 a01 a02 a10 a11 a12 a20 a21 a22 y0 y1 y2 : Z) (h : @heap Z) :
  mats h !! this = Some [[a00; a01; a02]; [a10; a11; a12]; [a20; a21; a22]] ->
  lookup_vec b h = Some [a00 * y0 + a01 * y1 + a02 * y2;
                         a10 * y0 + a11 * y1 + a12 * y2;
                         a20 * y0 + a21 * y1 + a22 * y2] ->
  Forall small [a00; a01; a02; a10; a11; a12; a20; a21; a22] ->
  Forall small [a00 * y0 + a01 * y1 + a02 * y2;
                a10 * y0 + a11 * y1 + a12 * y2;
                a20 * y0 + a21 * y1 + a22 * y2] ->
  det3 a00 a01 a02 a10 a11 a12 a20 a21 a22 <> 0 ->
  mat_solve 3 3 this b h = Ret ([y0; y1; y2], h).
Proof.
  intros Ha Hb HsA Hsb Hd.
  assert (HA : Forall (Forall small)
                 [[a00; a01; a02]; [a10; a11; a12]; [a20; a21; a22]]).
  { repeat match goal with
           | H : Forall small (_ :: _) |- _ =>
               apply Forall_cons_1 in H; destruct H
           end.
    now repeat constructor. }
  apply (solve_3x3 h this b a00 a01 a02 a10 a11 a12 a20 a21 a22 _ _ _ y0 y1 y2
           Ha Hb).
  - unfold cramer_component.
    apply (quot_exact_small _ _ _ _ (small_replace_column _ 0 _ HA Hsb) eq_refl);
      [|exact Hd].
    unfold det3. simpl. ring.
  - unfold cramer_component.
    apply (quot_exact_small _ _ _ _ (small_replace_column _ 1 _ HA Hsb) eq_refl);
      [|exact Hd].
    unfold det3. simpl. ring.
  - unfold cramer_component.
    apply (quot_exact_small _ _ _ _ (small_replace_column _ 2 _ HA Hsb) eq_refl);
      [|exact Hd].
    unfold det3. simpl. ring.
Qed.

(** ** gfx::almost_equal, the function template

    [delta] is the largest error that counts as equal, as a fraction of
    [rhs].  The difference and the quotient are doubles: each is rounded.
    Where [lhs] and [rhs] differ, two cases give an infinite quotient, which
    is not <= [delta], and the function returns false: [rhs] = 0, and a
    difference past the largest double. *)

Section AlmostEqual.

Context {T : Type} {ST : Scalar T}.

Definition almost_equal (lhs rhs : T) (delta : double) : comp (@heap T) bool :=
  assert (negb (Qle_bool delta 0));;
  if seqb lhs rhs then ret true
  else
    let difference := round64 (to_double lhs - to_double rhs) in
    if Qeq_bool (to_double rhs) 0 then ret false
    else if negb (Qle_bool (Qabs difference) DBL_MAX) then ret false
    else
      let positive_ratio := Qabs (round64 (difference / to_double rhs)) in
      ret (Qle_bool positive_ratio delta).

Lemma Qabs_positive (r : Q) : ~ (r == 0)%Q -> (0 < Qabs r)%Q.
Proof.
  intros Hr. destruct (Qlt_le_dec 0 (Qabs r)) as [Hlt|Hle]; [assumption|].
  exfalso. apply Hr. apply Qabs_Qle_condition in Hle. lra.
Qed.

Lemma Qabs_ratio (x r : Q) :
  ~ (r == 0)%Q -> (Qabs (x / r) == Qabs x / Qabs r)%Q.
Proof. intros Hr. unfold Qdiv. now rewrite Qabs_Qmult, Qabs_Qinv. Qed.

Lemma ratio_within (x r d : Q) :
  ~ (r == 0)%Q -> (Qabs (x / r) <= d <-> Qabs x <= d * Qabs r)%Q.
Proof.
  intros Hr. pose proof (Qabs_positive r Hr) as Hpos.
  rewrite (Qabs_ratio x r Hr). split.
  - intros Hle.
    assert (E2 : (Qabs x == Qabs x / Qabs r * Qabs r)%Q) by (field; lra).
    rewrite E2. apply Qmult_le_compat_r; [assumption | lra].
  - intros Hle. now apply Qle_shift_div_r.
Qed.

Lemma ratio_beyond (x r d : Q) :
  ~ (r == 0)%Q -> (d * Qabs r <= Qabs x)%Q -> (d <= Qabs (x / r))%Q.
Proof.
  intros Hr Hle. pose proof (Qabs_positive r Hr) as Hpos.
  rewrite (Qabs_ratio x r Hr). now apply Qle_shift_div_l.
Qed.

Lemma almost_equal_rejects (lhs rhs : T) (delta : double) (h : @heap T) :
  (delta <= 0)%Q -> almost_equal lhs rhs delta h = Abort.
Proof.
  intros Hd. unfold almost_equal. apply bind_abort.
  apply Qle_bool_iff in Hd. unfold assert. now rewrite Hd.
Qed.

Lemma Qle_bool_false (x y : Q) : (y < x)%Q -> Qle_bool x y = false.
Proof.
  intros Hlt. destruct (Qle_bool x y) eqn:E; [|reflexivity].
  apply Qle_bool_iff in E. lra.
Qed.

(** With a positive [delta] the function returns: true on equal arguments,
    false on a zero [rhs] that [lhs] differs from; otherwise true when the
    computed difference is at most [delta] times |rhs|, and false when it
    is at least d times |rhs| for a double d above [delta]. *)
Lemma almost_equal_relative (lhs rhs : T) (delta : double) (h : @heap T) :
  (0 < delta)%Q ->
  exists e : bool,
    almost_equal lhs rhs delta h = Ret (e, h) /\
    (seqb lhs rhs = true -> e = true) /\
    (seqb lhs rhs = false -> (to_double rhs == 0)%Q -> e = false) /\
    (seqb lhs rhs = false -> ~ (to_double rhs == 0)%Q ->
     (round64 delta == delta)%Q ->
     (Qabs (round64 (to_double lhs - to_double rhs)) <= DBL_MAX)%Q ->
     (Qabs (round64 (to_double lhs - to_double rhs))
      <= delta * Qabs (to_double rhs))%Q ->
     e = true) /\
    (forall d : double,
        seqb lhs rhs = false -> ~ (to_double rhs == 0)%Q ->
        (round64 d == d)%Q -> (delta < d)%Q ->
        (d * Qabs (to_double rhs)
         <= Qabs (round64 (to_double lhs - to_double rhs)))%Q ->
        e = false).
Proof.
  intros Hd. unfold almost_equal.
  rewrite (Qle_bool_false delta 0 Hd). simpl negb.
  destruct (seqb lhs rhs) eqn:Eeq.
  { exists true. split; [reflexivity|]. repeat split; congruence. }
  destruct (Qeq_bool (to_double rhs) 0) eqn:Ez.
  { exists false. split; [reflexivity|]. apply Qeq_bool_iff in Ez.
    repeat split; try congruence; intros; try reflexivity; contradiction. }
  apply Qeq_bool_neq in Ez.
  set (difference := round64 (to_double lhs - to_double rhs)).
  destruct (Qle_bool (Qabs difference) DBL_MAX) eqn:Emax; simpl negb; cbv iota.
  - eexists. split; [reflexivity|]. split; [discriminate|].
    split; [intros _ E; contradiction|]. split.
    + intros _ _ Hdelta _ Hle. apply Qle_bool_iff.
      rewrite round64_abs, <- Hdelta. apply round64_mono.
      now apply ratio_within.
    + intros d _ _ Hdd Hlt Hle. apply Qle_bool_false.
      apply Qlt_le_trans with d; [exact Hlt|].
      rewrite round64_abs, <- Hdd. apply round64_mono.
      now apply ratio_beyond.
  - exists false. split; [reflexivity|]. split; [discriminate|].
    split; [reflexivity|]. split; [|reflexivity].
    intros _ _ _ Hmax _. apply Qle_bool_iff in Hmax. congruence.
Qed.

End AlmostEqual.

(** For [int] arguments the difference is exact, and a common factor leaves
    the quotient, so its rounding, as it is. *)
Lemma difference_int (a b : Z) :
  is_int a -> is_int b ->
  (round64 (inject_Z a - inject_Z b) == inject_Z (a - b))%Q /\
  Qle_bool (Qabs (round64 (inject_Z a - inject_Z b))) DBL_MAX = true.
Proof.
  unfold is_int, INT_MIN, INT_MAX. intros Ha Hb.
  assert (Hlt : Z.abs (a - b) < 2 ^ 53) by lia.
  assert (E : (round64 (inject_Z a - inject_Z b) == inject_Z (a - b))%Q).
  { rewrite <- (round64_int (a - b) Hlt). apply round64_wd.
    unfold Zminus. rewrite inject_Z_plus, inject_Z_opp. reflexivity. }
  split; [exact E|]. apply Qle_bool_iff. rewrite E.
  now destruct (is_double_int (a - b) Hlt).
Qed.

Lemma almost_equal_scales (k a b : Z) (delta : double) (h : @heap Z) :
  k <> 0 -> is_int a -> is_int b -> is_int (k * a) -> is_int (k * b) ->
  almost_equal (k * a) (k * b) delta h = almost_equal a b delta h.
Proof.
  intros Hk Ia Ib Ika Ikb. unfold almost_equal.
  destruct (negb (Qle_bool delta 0)); [|reflexivity].
  unfold bind, assert.
  change (@seqb Z int_scalar) with Z.eqb.
  change (@to_double Z int_scalar) with inject_Z.
  assert ((k * a =? k * b) = (a =? b)) as ->.
  { destruct (Z.eqb_spec a b) as [->|Hne]; [apply Z.eqb_refl|].
    apply Z.eqb_neq. nia. }
  destruct (a =? b); [reflexivity|].
  assert (Hkq : ~ (inject_Z k == 0)%Q).
  { intros E. apply Hk. unfold Qeq in E. simpl in E. lia. }
  assert (Qeq_bool (inject_Z (k * b)) 0 = Qeq_bool (inject_Z b) 0) as ->.
  { destruct (Qeq_bool (inject_Z b) 0) eqn:E.
    - apply Qeq_bool_iff. apply Qeq_bool_iff in E.
      rewrite inject_Z_mult, E. ring.
    - destruct (Qeq_bool (inject_Z (k * b)) 0) eqn:E2; [|reflexivity].
      apply Qeq_bool_iff in E2. apply Qeq_bool_neq in E.
      exfalso. apply E. rewrite inject_Z_mult in E2.
      destruct (Qmult_integral _ _ E2); [contradiction | assumption]. }
  destruct (Qeq_bool (inject_Z b) 0) eqn:Eb; [reflexivity|].
  apply Qeq_bool_neq in Eb.
  destruct (difference_int (k * a) (k * b) Ika Ikb) as [Ek ->].
  destruct (difference_int a b Ia Ib) as [E1 ->].
  unfold negb, ret. do 2 f_equal.
  apply Qleb_comp; [|reflexivity]. apply Qabs_wd. apply round64_wd.
  rewrite Ek, E1. replace (k * a - k * b) with (k * (a - b)) by ring.
  rewrite !inject_Z_mult. field. split; assumption.
Qed.

(** X13: the initializer-list constructor of [matrix] fills the matrix in
    row-major order from one iterator: entry [i][j] is element i * WIDTH + j
    of the list if the list has one and 0 otherwise, the values past
    HEIGHT * WIDTH being ignored. *)
Theorem mat_init_row_major (T : Type) (ST : Scalar T) (H W : Z) (il : list T) :
  0 <= H -> 0 <= W ->
  shaped H W (mat_init H W il) /\
  forall i j, 0 <= i < H -> 0 <= j < W ->
    entry (mat_init H W il) (Z.to_nat i) (Z.to_nat j)
    = Some (default s0 (il !! Z.to_nat (i * W + j))).
Proof. apply mat_init_entries. Qed.

Lemma mat_init_row_major_witness :
  entry (mat_init 2 2 [1; 2; 3]) 1 0 = Some 3 /\
  entry (mat_init 2 2 [1; 2; 3]) 1 1 = Some 0.
Proof.
  destruct (mat_init_row_major Z _ 2 2 [1; 2; 3] ltac:(lia) ltac:(lia))
    as [_ He].
  split; [exact (He 1 0 ltac:(lia) ltac:(lia)) | exact (He 1 1 ltac:(lia) ltac:(lia))].
Defined.

(** X14: [operator[]] of [matrix] asserts 0 <= row < HEIGHT (outside it the
    call aborts) and otherwise returns a reference to the row itself, not a
    copy: after [m[i][j] = x] a read of [m[i'][j']] gives x at that entry and
    the old value at every other one. *)
Theorem mat_index_names_the_row (T : Type) (ST : Scalar T) (h : @heap T)
    (H W : Z) (m : nat) (i j i' j' : Z) (x : T) (a : list (list T))
    (row : list T) :
  mats h !! m = Some a -> shaped H W a -> a !! Z.to_nat i = Some row ->
  0 <= i < H -> 0 <= j < W -> 0 <= i' < H -> 0 <= j' < W ->
  mat_index H m i h = Ret (VRow m (Z.to_nat i), h) /\
  lookup_vec (VRow m (Z.to_nat i)) h = Some row /\
  (mat_set H W m i j x;; mat_get H W m i' j') h
  = Ret (if (i =? i') && (j =? j') then x else entry_or_0 a i' j',
         update_mat m (<[Z.to_nat i := <[Z.to_nat j := x]> row]> a) h) /\
  (forall k, ~ 0 <= k < H -> mat_index H m k h = Abort).
Proof.
  intros Ha Hs Hrow Hi Hj Hi' Hj'. split; [|split; [|split]].
  - apply mat_index_eval, is_row_true. assumption.
  - eapply lookup_row; eauto.
  - eapply bind_eval.
    + rewrite <- (update_mat_same m a h Ha) at 1.
      now apply (mat_set_object H W m i j x a a row h).
    + rewrite (mat_get_object H W m i' j'
                 (<[Z.to_nat i := <[Z.to_nat j := x]> row]> a)); try assumption.
      * f_equal. f_equal. apply (entry_or_0_insert H W); (assumption || lia).
      * eapply mats_update_mat; eauto.
      * eapply shaped_insert; eauto. now rewrite length_insert.
  - intros k Hk. now apply mat_index_abort.
Qed.

Lemma mat_index_names_the_row_witness :
  (mat_set 3 3 4%nat 1 1 0;; mat_get 3 3 4%nat 1 1) example_store
  = Ret (0, update_mat 4 [[1; 2; 3]; [4; 0; 6]; [7; 8; 9]] example_store) /\
  mat_index 3 4%nat 3 example_store = Abort.
Proof.
  destruct (mat_index_names_the_row Z _ example_store 3 3 4%nat 1 1 1 1 0
              [[1; 2; 3]; [4; 5; 6]; [7; 8; 9]] [4; 5; 6]
              eq_refl (shaped_3x3 _ _ _ _ _ _ _ _ _) eq_refl
              ltac:(lia) ltac:(lia) ltac:(lia) ltac:(lia))
    as (_ & _ & Hrw & Hout).
  split; [exact Hrw | apply Hout; lia].
Defined.

(** X15: [operator==] of [matrix] returns true exactly when every entry of
    the left operand compares equal, with the scalar ==, to the entry of the
    right operand at the same place, and [operator!=] returns the negation. *)
Theorem mat_eq_all_entries (T : Type) (ST : Scalar T) (h : @heap T)
    (H W : Z) (this rhs : nat) (a b : list (list T)) :
  mats h !! this = Some a -> mats h !! rhs = Some b ->
  shaped H W a -> shaped H W b ->
  exists e : bool,
    mat_eq H W this rhs h = Ret (e, h) /\
    mat_ne H W this rhs h = Ret (negb e, h) /\
    (e = true <-> forall i j, 0 <= i < H -> 0 <= j < W ->
                              seqb (entry_or_0 a i j) (entry_or_0 b i j) = true).
Proof. apply mat_eq_result. Qed.

Lemma mat_eq_all_entries_witness :
  mat_eq 3 3 0%nat 4%nat example_store = Ret (false, example_store) /\
  mat_ne 3 3 0%nat 4%nat example_store = Ret (true, example_store).
Proof.
  destruct (mat_eq_all_entries Z _ example_store 3 3 0%nat 4%nat
              [[1; 2; 3]; [3; 1; -3]; [-3; 4; 7]]
              [[1; 2; 3]; [4; 5; 6]; [7; 8; 9]]
              eq_refl eq_refl (shaped_3x3 _ _ _ _ _ _ _ _ _)
              (shaped_3x3 _ _ _ _ _ _ _ _ _)) as (e & He & Hn & Hiff).
  destruct e.
  - specialize (proj1 Hiff eq_refl 1 0 ltac:(lia) ltac:(lia)). discriminate.
  - split; [exact He | exact Hn].
Defined.

(** X16: [operator+] and [operator-] of [matrix] work entry by entry: the
    result has the shape of the operands and entry [i][j] is
    this[i][j] + rhs[i][j], respectively this[i][j] - rhs[i][j]; the store
    is left as it was. *)
Theorem mat_add_sub_entrywise (T : Type) (ST : Scalar T) (h : @heap T)
    (H W : Z) (this rhs : nat) (a b : list (list T)) :
  mats h !! this = Some a -> mats h !! rhs = Some b ->
  shaped H W a -> shaped H W b -> 0 <= W ->
  (exists r,
     mat_add H W this rhs h = Ret (r, h) /\ shaped H W r /\
     forall i j, 0 <= i < H -> 0 <= j < W ->
       entry r (Z.to_nat i) (Z.to_nat j)
       = Some (sadd (entry_or_0 a i j) (entry_or_0 b i j))) /\
  (exists r,
     mat_sub H W this rhs h = Ret (r, h) /\ shaped H W r /\
     forall i j, 0 <= i < H -> 0 <= j < W ->
       entry r (Z.to_nat i) (Z.to_nat j)
       = Some (ssub (entry_or_0 a i j) (entry_or_0 b i j))).
Proof.
  intros Ha Hb Hsa Hsb HW.
  split; [exact (mat_zip_copy H W this rhs sadd a b h Ha Hb Hsa Hsb HW)
         | exact (mat_zip_copy H W this rhs ssub a b h Ha Hb Hsa Hsb HW)].
Qed.

Lemma mat_add_sub_entrywise_witness :
  exists r,
    mat_add 2 2 1%nat 3%nat example_store = Ret (r, example_store) /\
    entry r 0 1 = Some 3.
Proof.
  destruct (mat_add_sub_entrywise Z _ example_store 2 2 1%nat 3%nat
              [[4; 6]; [3; 8]] [[4; -3]; [6; 5]]
              eq_refl eq_refl (shaped_2x2 _ _ _ _) (shaped_2x2 _ _ _ _)
              ltac:(lia)) as [(r & Hrun & _ & He) _].
  exists r. split; [exact Hrun | exact (He 0 1 ltac:(lia) ltac:(lia))].
Defined.

(** X17: unary [operator-] of [matrix] returns 0 - this[i][j] at every entry
    and [operator*(scalar)] returns this[i][j] * rhs, the scalar on the
    right (the vector operator has it on the left). *)
Theorem mat_neg_scale_entrywise (T : Type) (ST : Scalar T) (h : @heap T)
    (H W : Z) (this : nat) (x : T) (a : list (list T)) :
  mats h !! this = Some a -> shaped H W a -> 0 <= W ->
  (exists r,
     mat_neg H W this h = Ret (r, h) /\ shaped H W r /\
     forall i j, 0 <= i < H -> 0 <= j < W ->
       entry r (Z.to_nat i) (Z.to_nat j) = Some (ssub s0 (entry_or_0 a i j))) /\
  (exists r,
     mat_scale H W this x h = Ret (r, h) /\ shaped H W r /\
     forall i j, 0 <= i < H -> 0 <= j < W ->
       entry r (Z.to_nat i) (Z.to_nat j) = Some (smul (entry_or_0 a i j) x)).
Proof.
  intros Ha Hsa HW.
  split; [exact (mat_map_copy H W this (ssub s0) a h Ha Hsa HW)
         | exact (mat_map_copy H W this (fun y => smul y x) a h Ha Hsa HW)].
Qed.

Lemma mat_neg_scale_entrywise_witness :
  exists r,
    mat_scale 2 2 1%nat 3 example_store = Ret (r, example_store) /\
    entry r 1 0 = Some 9.
Proof.
  destruct (mat_neg_scale_entrywise Z _ example_store 2 2 1%nat 3
              [[4; 6]; [3; 8]] eq_refl (shaped_2x2 _ _ _ _) ltac:(lia))
    as [_ (r & Hrun & _ & He)].
  exists r. split; [exact Hrun | exact (He 1 0 ltac:(lia) ltac:(lia))].
Defined.

(** X18: [operator/(scalar)] of [matrix] returns the entry-wise quotients
    when the scalar type defines the quotient of every entry by rhs, and is
    undefined behaviour as soon as one entry has none; for [int] the
    quotients, truncated, are defined for every divisor other than 0, the
    divisor -1 being allowed when no entry is INT_MIN; dividing a matrix
    with at least one entry by 0, or a matrix with an entry INT_MIN by -1,
    is undefined behaviour. *)
Theorem mat_div_entrywise_or_undefined (T : Type) (ST : Scalar T)
    (h : @heap T) (H W : Z) (this : nat) (rhs : T) (q : T -> T)
    (a : list (list T)) :
  mats h !! this = Some a -> shaped H W a -> 0 <= W ->
  ((forall i j, 0 <= i < H -> 0 <= j < W ->
      sdiv (entry_or_0 a i j) rhs = Some (q (entry_or_0 a i j))) ->
   exists r,
     mat_div H W this rhs h = Ret (r, h) /\ shaped H W r /\
     forall i j, 0 <= i < H -> 0 <= j < W ->
       entry r (Z.to_nat i) (Z.to_nat j) = Some (q (entry_or_0 a i j))) /\
  (forall i j, 0 <= i < H -> 0 <= j < W ->
     sdiv (entry_or_0 a i j) rhs = None -> mat_div H W this rhs h = Undefined) /\
  (forall (h' : @heap Z) (b : list (list Z)) (d : Z),
      mats h' !! this = Some b -> shaped H W b ->
      (d <> 0 ->
       (d = -1 -> forall i j, 0 <= i < H -> 0 <= j < W ->
                              entry_or_0 b i j <> INT_MIN) ->
       exists r,
         mat_div H W this d h' = Ret (r, h') /\ shaped H W r /\
         forall i j, 0 <= i < H -> 0 <= j < W ->
           entry r (Z.to_nat i) (Z.to_nat j)
           = Some (Z.quot (entry_or_0 b i j) d)) /\
      (0 < H -> 0 < W -> mat_div H W this 0 h' = Undefined) /\
      (forall i j, 0 <= i < H -> 0 <= j < W -> entry_or_0 b i j = INT_MIN ->
                   mat_div H W this (-1) h' = Undefined)).
Proof.
  intros Ha Hsa HW. split; [|split].
  - intros Hq. now apply mat_div_defined.
  - intros i j Hi Hj Hq. now apply (mat_div_some_undefined H W this rhs a h i j).
  - intros h' b d Hb Hsb. split; [|split].
    + intros Hd Hmin.
      apply (mat_div_defined H W this d (fun y => Z.quot y d) b h');
        try assumption.
      intros i j Hi Hj. apply sdiv_int; [assumption|].
      intros E. now apply Hmin.
    + intros HH HW'. now apply (mat_div_undefined H W this 0 b h').
    + intros i j Hi Hj Hmin.
      apply (mat_div_some_undefined H W this (-1) b h' i j); try assumption.
      rewrite Hmin. apply sdiv_int_min.
Qed.

Lemma mat_div_entrywise_or_undefined_witness :
  (exists r,
     mat_div 2 2 1%nat 2 example_store = Ret (r, example_store) /\
     entry r 1 0 = Some 1) /\
  mat_div 2 2 1%nat 0 example_store = Undefined.
Proof.
  destruct (mat_div_entrywise_or_undefined Z _ example_store 2 2 1%nat 2
              (fun y => Z.quot y 2) [[4; 6]; [3; 8]]
              eq_refl (shaped_2x2 _ _ _ _) ltac:(lia)) as (_ & _ & Hint).
  destruct (Hint example_store [[4; 6]; [3; 8]] 2 eq_refl (shaped_2x2 _ _ _ _))
    as (Hq & _ & _).
  destruct (Hint example_store [[4; 6]; [3; 8]] 0 eq_refl (shaped_2x2 _ _ _ _))
    as (_ & Hz & _).
  destruct (Hq ltac:(lia) ltac:(discriminate)) as (r & Hrun & _ & He).
  split; [|apply Hz; lia].
  exists r. split; [exact Hrun | exact (He 1 0 ltac:(lia) ltac:(lia))].
Defined.

(** X19: the matrix product [operator*] of an HxW matrix by a WxR matrix
    returns the HxR matrix whose entry [i][j] is the sum over k, in
    ascending order from 0, of this[i][k] * rhs[k][j]; for [int] entries the
    product of a matrix by [identity()] of its width is the matrix itself. *)
Theorem mat_mul_entries_and_identity (T : Type) (ST : Scalar T) (h : @heap T)
    (H W RW : Z) (this rhs : nat) (a b : list (list T)) :
  mats h !! this = Some a -> mats h !! rhs = Some b ->
  shaped H W a -> shaped W RW b -> 0 <= W -> 0 <= RW ->
  (exists r,
     mat_mul H W RW this rhs h = Ret (r, h) /\ shaped H RW r /\
     forall i j, 0 <= i < H -> 0 <= j < RW ->
       entry r (Z.to_nat i) (Z.to_nat j)
       = Some (fold_left
                 (fun acc k => sadd acc (smul (entry_or_0 a i k)
                                              (entry_or_0 b k j)))
                 (seqZ 0 W) s0)) /\
  (forall (h' : @heap Z) (c : list (list Z)),
      mats h' !! this = Some c -> shaped H W c ->
      times_identity H W this h' = Ret (c, h')).
Proof.
  intros Ha Hb Hsa Hsb HW HRW. split.
  - exact (mat_mul_entries H W RW this rhs a b h Ha Hb Hsa Hsb HW HRW).
  - intros h' c Hc Hsc. now apply times_identity_same.
Qed.

Lemma mat_mul_entries_and_identity_witness :
  (exists r,
     mat_mul 2 2 2 1%nat 3%nat example_store = Ret (r, example_store) /\
     entry r 0 0 = Some 52) /\
  times_identity 2 2 1%nat example_store = Ret ([[4; 6]; [3; 8]], example_store).
Proof.
  destruct (mat_mul_entries_and_identity Z _ example_store 2 2 2 1%nat 3%nat
              [[4; 6]; [3; 8]] [[4; -3]; [6; 5]]
              eq_refl eq_refl (shaped_2x2 _ _ _ _) (shaped_2x2 _ _ _ _)
              ltac:(lia) ltac:(lia)) as [(r & Hrun & _ & He) Hid].
  split.
  - exists r. split; [exact Hrun | exact (He 0 0 ltac:(lia) ltac:(lia))].
  - exact (Hid example_store [[4; 6]; [3; 8]] eq_refl (shaped_2x2 _ _ _ _)).
Defined.

Section MatrixAssign.

Context {T : Type} {ST : Scalar T}.

Lemma mats_update_mat_ne m k (a : list (list T)) (h : @heap T) :
  k <> m -> mats (update_mat m a h) !! k = mats h !! k.
Proof. intros Hne. simpl. now apply list_lookup_insert_ne. Qed.

Lemma mat_assign_eval this rhs (a b : list (list T)) (h : @heap T) :
  mats h !! this = Some a -> mats h !! rhs = Some b ->
  mat_assign this rhs h = Ret (tt, update_mat this b h).
Proof.
  intros Ha Hb. unfold mat_assign.
  eapply bind_eval; [apply load_mat_eval; exact Hb|].
  unfold store_mat. now rewrite Ha.
Qed.

Lemma mat_row_matrix_row H W this row (a : list (list T)) (v : list T)
    (h : @heap T) :
  mats h !! this = Some a -> shaped H W a -> 0 <= W -> 0 <= row < H ->
  a !! Z.to_nat row = Some v ->
  mat_row_matrix H W this row h = Ret ([v], h).
Proof.
  intros Ha Hsa HW Hrow Hv.
  assert (Lv : Z.of_nat (length v) = W) by (destruct Hsa as [_ Hr]; eauto).
  destruct (mat_row_matrix_entries H W this row a h Ha Hsa HW Hrow)
    as (r & Hrun & Hsr & Her).
  rewrite Hrun. do 2 f_equal.
  apply (mat_ext 1 W); [assumption | |].
  - split; [reflexivity|]. intros [|i] x; simpl; [now intros [= <-] | discriminate].
  - intros i j Hi Hj. replace i with 0 by lia.
    change (entry r 0 (Z.to_nat j) = v !! Z.to_nat j).
    rewrite (Her j Hj). unfold entry. now rewrite Hv.
Qed.

End MatrixAssign.

(** X20: [submatrix<RH, RW>(top, left)], for result dimensions that are
    positive and no larger than the matrix, returns the RH x RW block whose
    entry [i][j] is this[i + top][j + left] when the block lies within the
    matrix, and aborts on [operator[]] when it does not: for a negative
    [top] or [left], and as soon as a row or a column runs out. *)
Theorem submatrix_block_or_abort (T : Type) (ST : Scalar T) (h : @heap T)
    (H W RH RW : Z) (this : nat) (top left : Z) (a : list (list T)) :
  mats h !! this = Some a -> shaped H W a ->
  0 < RH <= H -> 0 < RW <= W ->
  (0 <= top /\ top + RH <= H /\ 0 <= left /\ left + RW <= W ->
   exists r,
     mat_submatrix H W RH RW this top left h = Ret (r, h) /\
     shaped RH RW r /\
     forall i j, 0 <= i < RH -> 0 <= j < RW ->
       entry r (Z.to_nat i) (Z.to_nat j)
       = entry a (Z.to_nat (i + top)) (Z.to_nat (j + left))) /\
  (~ (0 <= top /\ top + RH <= H /\ 0 <= left /\ left + RW <= W) ->
   mat_submatrix H W RH RW this top left h = Abort).
Proof.
  intros Ha Hsa HRH HRW. split.
  - intros (Ht & Hth & Hl & Hlw). apply submatrix_returns; (assumption || lia).
  - intros Hfit. now apply (submatrix_aborts H W RH RW this top left a).
Qed.

Lemma submatrix_block_or_abort_witness :
  (exists r,
     mat_submatrix 3 3 2 2 4%nat 1 1 example_store = Ret (r, example_store) /\
     entry r 0 0 = Some 5 /\ entry r 1 1 = Some 9) /\
  mat_submatrix 3 3 2 2 4%nat 2 0 example_store = Abort /\
  mat_submatrix 3 3 2 2 4%nat 0 (-1) example_store = Abort.
Proof.
  destruct (submatrix_block_or_abort Z _ example_store 3 3 2 2 4%nat 1 1
              [[1; 2; 3]; [4; 5; 6]; [7; 8; 9]] eq_refl
              (shaped_3x3 _ _ _ _ _ _ _ _ _) ltac:(lia) ltac:(lia)) as [Hin _].
  destruct (submatrix_block_or_abort Z _ example_store 3 3 2 2 4%nat 2 0
              [[1; 2; 3]; [4; 5; 6]; [7; 8; 9]] eq_refl
              (shaped_3x3 _ _ _ _ _ _ _ _ _) ltac:(lia) ltac:(lia)) as [_ Hrows].
  destruct (submatrix_block_or_abort Z _ example_store 3 3 2 2 4%nat 0 (-1)
              [[1; 2; 3]; [4; 5; 6]; [7; 8; 9]] eq_refl
              (shaped_3x3 _ _ _ _ _ _ _ _ _) ltac:(lia) ltac:(lia)) as [_ Hleft].
  destruct (Hin ltac:(lia)) as (r & Hrun & _ & He).
  split; [|split; [apply Hrows | apply Hleft]; lia].
  exists r. split; [exact Hrun|].
  split; [exact (He 0 0 ltac:(lia) ltac:(lia)) | exact (He 1 1 ltac:(lia) ltac:(lia))].
Defined.

(** X21: [grow<RH, RW>(d)] returns the RH x RW matrix that has the matrix in
    its top-left corner, entry [i][j] = this[i][j] for i < HEIGHT and
    j < WIDTH, and d at every other entry. *)
Theorem mat_grow_pads (T : Type) (ST : Scalar T) (h : @heap T)
    (H W RH RW : Z) (this : nat) (d : T) (a : list (list T)) :
  mats h !! this = Some a -> shaped H W a -> 0 <= W ->
  H <= RH -> W <= RW -> H < RH \/ W < RW ->
  exists r,
    mat_grow H W RH RW this d h = Ret (r, h) /\
    shaped RH RW r /\
    forall i j, 0 <= i < RH -> 0 <= j < RW ->
      entry r (Z.to_nat i) (Z.to_nat j)
      = if (i <? H) && (j <? W)
        then entry a (Z.to_nat i) (Z.to_nat j) else Some d.
Proof. apply mat_grow_entries. Qed.

Lemma mat_grow_pads_witness :
  exists r,
    mat_grow 2 2 3 3 1%nat 1 example_store = Ret (r, example_store) /\
    entry r 1 1 = Some 8 /\ entry r 2 1 = Some 1.
Proof.
  destruct (mat_grow_pads Z _ example_store 2 2 3 3 1%nat 1 [[4; 6]; [3; 8]]
              eq_refl (shaped_2x2 _ _ _ _) ltac:(lia) ltac:(lia) ltac:(lia)
              ltac:(lia)) as (r & Hrun & _ & He).
  exists r. split; [exact Hrun|].
  split; [exact (He 1 1 ltac:(lia) ltac:(lia)) | exact (He 2 1 ltac:(lia) ltac:(lia))].
Defined.

(** X22: [identity()] of a square matrix type returns the matrix with 1 on
    the diagonal and 0 everywhere else; for a type that is not square the
    static assertion rejects it. *)
Theorem identity_diagonal (T : Type) (ST : Scalar T) (h : @heap T) (H W : Z) :
  0 <= H ->
  (W = H ->
   exists r,
     mat_identity H W h = Ret (r, h) /\ shaped H W r /\
     forall i j, 0 <= i < H -> 0 <= j < W ->
       entry r (Z.to_nat i) (Z.to_nat j) = Some (if i =? j then s1 else s0)) /\
  (W <> H -> mat_identity H W h = Rejected).
Proof.
  intros HH. split.
  - intros ->. now apply mat_identity_entries.
  - intros Hne. unfold mat_identity, is_square, bind, static_assert.
    now replace (W =? H) with false by lia.
Qed.

Lemma identity_diagonal_witness :
  mat_identity 3 3 example_store
  = Ret ([[1; 0; 0]; [0; 1; 0]; [0; 0; 1]], example_store) /\
  mat_identity 2 3 example_store = Rejected.
Proof.
  destruct (identity_diagonal Z _ example_store 3 3 ltac:(lia)) as [Hsq _].
  destruct (identity_diagonal Z _ example_store 2 3 ltac:(lia)) as [_ Hrej].
  destruct (Hsq eq_refl) as (r & Hrun & Hsr & He).
  split; [|apply Hrej; lia].
  rewrite Hrun. do 2 f_equal.
  apply (mat_ext 3 3); [assumption | apply shaped_3x3 |].
  intros i j Hi Hj. rewrite (He i j Hi Hj).
  below_3 i; below_3 j; reflexivity.
Defined.

(** X23: for a row index within the matrix, [row_vector(r)] returns row r as
    a vector and [row_matrix(r)] returns the 1 x WIDTH matrix whose only row
    is row r. *)
Theorem row_extraction_returns_the_row (T : Type) (ST : Scalar T)
    (h : @heap T) (H W : Z) (this : nat) (row : Z) (a : list (list T))
    (v : list T) :
  mats h !! this = Some a -> shaped H W a -> 0 <= W -> 0 <= row < H ->
  a !! Z.to_nat row = Some v ->
  mat_row_vector H W this row h = Ret (v, h) /\
  mat_row_matrix H W this row h = Ret ([v], h).
Proof.
  intros Ha Hsa HW Hrow Hv. split.
  - now apply (mat_row_vector_row H W this row a).
  - now apply (mat_row_matrix_row H W this row a).
Qed.

Lemma row_extraction_returns_the_row_witness :
  mat_row_vector 3 3 4%nat 2 example_store = Ret ([7; 8; 9], example_store) /\
  mat_row_matrix 3 3 4%nat 2 example_store = Ret ([[7; 8; 9]], example_store).
Proof.
  exact (row_extraction_returns_the_row Z _ example_store 3 3 4%nat 2
           [[1; 2; 3]; [4; 5; 6]; [7; 8; 9]] [7; 8; 9] eq_refl
           (shaped_3x3 _ _ _ _ _ _ _ _ _) ltac:(lia) ltac:(lia) eq_refl).
Defined.

(** X24: [transpose()] of an HxW matrix returns the WxH matrix whose entry
    [j][i] is this[i][j], and transposing the result again gives the matrix
    back. *)
Theorem transpose_involution (T : Type) (ST : Scalar T) (h : @heap T)
    (H W : Z) (this : nat) (a : list (list T)) :
  mats h !! this = Some a -> shaped H W a -> 0 <= W ->
  (exists r,
     mat_transpose H W this h = Ret (r, h) /\ shaped W H r /\
     forall i j, 0 <= i < H -> 0 <= j < W ->
       entry r (Z.to_nat j) (Z.to_nat i) = entry a (Z.to_nat i) (Z.to_nat j)) /\
  transpose_twice H W this h = Ret (a, h).
Proof.
  intros Ha Hsa HW. split.
  - now apply mat_transpose_entries.
  - now apply transpose_twice_same.
Qed.

Lemma transpose_involution_witness :
  mat_transpose 2 2 3%nat example_store
  = Ret ([[4; 6]; [-3; 5]], example_store) /\
  transpose_twice 2 2 3%nat example_store
  = Ret ([[4; -3]; [6; 5]], example_store).
Proof.
  destruct (transpose_involution Z _ example_store 2 2 3%nat [[4; -3]; [6; 5]]
              eq_refl (shaped_2x2 _ _ _ _) ltac:(lia))
    as [(r & Hrun & Hsr & He) Htwice].
  split; [|exact Htwice].
  rewrite Hrun. do 2 f_equal.
  apply (mat_ext 2 2); [assumption | apply shaped_2x2 |].
  intros i j Hi Hj. rewrite (He j i Hj Hi).
  below_2 i; below_2 j; reflexivity.
Defined.

(** X25: for [int] matrices of the two sizes [determinant] accepts, the
    determinant of the transpose is the determinant of the matrix. *)
Theorem determinant_of_transpose (h : @heap Z) (this : nat) :
  (forall a00 a01 a10 a11,
      mats h !! this = Some [[a00; a01]; [a10; a11]] ->
      transpose_determinant 2 2 this h = mat_determinant 2 2 this h) /\
  (forall a00 a01 a02 a10 a11 a12 a20 a21 a22,
      mats h !! this
      = Some [[a00; a01; a02]; [a10; a11; a12]; [a20; a21; a22]] ->
      transpose_determinant 3 3 this h = mat_determinant 3 3 this h).
Proof.
  split; intros.
  - now apply (transpose_determinant_2x2 this a00 a01 a10 a11).
  - now apply (transpose_determinant_3x3 this a00 a01 a02 a10 a11 a12 a20 a21 a22).
Qed.

Lemma determinant_of_transpose_witness :
  transpose_determinant 3 3 2%nat example_store = Ret (-306, example_store).
Proof.
  rewrite (proj2 (determinant_of_transpose example_store 2%nat)
                 6 1 1 4 (-2) 5 2 8 7 eq_refl).
  exact (determinant_3x3 (T:=Z) example_store 2%nat 6 1 1 4 (-2) 5 2 8 7 eq_refl).
Defined.

(** X26: for an [int] system of one of the two sizes whose matrix has a
    determinant other than 0 and whose entries, like the components of the
    right-hand side, are at most 710 in absolute value (no product and no
    sum of the determinants then leaves [int]), if the right-hand side is A
    times an integer vector y then [solve] returns y: every division of
    Cramer's rule is then exact. *)
Theorem solve_returns_the_integer_solution (h : @heap Z) (this : nat)
    (b : vref) :
  (forall a00 a01 a10 a11 y0 y1,
      mats h !! this = Some [[a00; a01]; [a10; a11]] ->
      lookup_vec b h = Some [a00 * y0 + a01 * y1; a10 * y0 + a11 * y1] ->
      Forall small [a00; a01; a10; a11] ->
      Forall small [a00 * y0 + a01 * y1; a10 * y0 + a11 * y1] ->
      a00 * a11 - a10 * a01 <> 0 ->
      mat_solve 2 2 this b h = Ret ([y0; y1], h)) /\
  (forall a00 a01 a02 a10 a11 a12 a20 a21 a22 y0 y1 y2,
      mats h !! this
      = Some [[a00; a01; a02]; [a10; a11; a12]; [a20; a21; a22]] ->
      lookup_vec b h = Some [a00 * y0 + a01 * y1 + a02 * y2;
                             a10 * y0 + a11 * y1 + a12 * y2;
                             a20 * y0 + a21 * y1 + a22 * y2] ->
      Forall small [a00; a01; a02; a10; a11; a12; a20; a21; a22] ->
      Forall small [a00 * y0 + a01 * y1 + a02 * y2;
                    a10 * y0 + a11 * y1 + a12 * y2;
                    a20 * y0 + a21 * y1 + a22 * y2] ->
      a00 * a11 * a22 + a01 * a12 * a20 + a02 * a10 * a21
      - a02 * a11 * a20 - a01 * a10 * a22 - a00 * a12 * a21 <> 0 ->
      mat_solve 3 3 this b h = Ret ([y0; y1; y2], h)).
Proof.
  split.
  - intros a00 a01 a10 a11 y0 y1 Ha Hb HsA Hsb Hd.
    exact (solve_2x2_solution this b a00 a01 a10 a11 y0 y1 h Ha Hb HsA Hsb Hd).
  - intros a00 a01 a02 a10 a11 a12 a20 a21 a22 y0 y1 y2 Ha Hb HsA Hsb Hd.
    exact (solve_3x3_solution this b a00 a01 a02 a10 a11 a12 a20 a21 a22
                              y0 y1 y2 h Ha Hb HsA Hsb Hd).
Qed.

(** The system of the regression case, {1,2,3, 3,1,-3, -3,4,7} x = (-5,4,-7),
    whose solution is (-1,1,-2). *)
Lemma solve_returns_the_integer_solution_witness :
  mat_solve 3 3 0%nat (VObj 0) example_store = Ret ([-1; 1; -2], example_store).
Proof.
  apply (proj2 (solve_returns_the_integer_solution example_store 0%nat (VObj 0))
               1 2 3 3 1 (-3) (-3) 4 7 (-1) 1 (-2));
    [reflexivity | reflexivity
    | repeat constructor; unfold small; lia
    | repeat constructor; unfold small; lia
    | discriminate].
Defined.

(** X27: [fill] of [matrix] overwrites every entry of the matrix it is
    called on and no other object, and the constructor from a default value,
    which is a call of [fill], makes a matrix with that value at every
    entry. *)
Theorem mat_fill_overwrites_every_entry (T : Type) (ST : Scalar T)
    (h : @heap T) (H W : Z) (m : nat) (x : T) (a : list (list T)) :
  mats h !! m = Some a -> shaped H W a -> 0 <= W ->
  exists h',
    mat_fill H W m x h = Ret (tt, h') /\
    mats h' !! m = Some (replicate (Z.to_nat H) (replicate (Z.to_nat W) x)) /\
    (forall k, k <> m -> mats h' !! k = mats h !! k) /\
    vecs h' = vecs h /\
    mat_new H W x (fun fresh => load_mat fresh) h
    = Ret (replicate (Z.to_nat H) (replicate (Z.to_nat W) x), h).
Proof.
  intros Ha Hs HW. pose proof (shaped_nonneg _ _ _ Hs) as HH.
  exists (update_mat m (replicate (Z.to_nat H) (replicate (Z.to_nat W) x)) h).
  split; [now apply (mat_fill_object H W m x a)|].
  split; [eapply mats_update_mat; eauto|].
  split; [intros k Hk; now apply mats_update_mat_ne|].
  split; [reflexivity|].
  rewrite <- (ext_nil h). eapply mat_new_sole; [assumption | assumption |].
  now apply load_mat_local.
Qed.

Lemma mat_fill_overwrites_every_entry_witness :
  exists h',
    mat_fill 2 2 1%nat 7 example_store = Ret (tt, h') /\
    mats h' !! 1%nat = Some [[7; 7]; [7; 7]] /\
    mats h' !! 3%nat = Some [[4; -3]; [6; 5]].
Proof.
  destruct (mat_fill_overwrites_every_entry Z _ example_store 2 2 1%nat 7
              [[4; 6]; [3; 8]] eq_refl (shaped_2x2 _ _ _ _) ltac:(lia))
    as (h' & Hrun & Hm & Hrest & _).
  exists h'. split; [exact Hrun|]. split; [exact Hm|].
  rewrite (Hrest 3%nat); [reflexivity | discriminate].
Defined.

(** X28: [operator=] of [matrix] copies the rows: right after [A = B] the
    comparison [A == B] is true (the scalar == being reflexive), and a later
    write to an entry of B, a different object, does not show in A. *)
Theorem mat_assign_copies (T : Type) (ST : Scalar T) (SL : ScalarLaws T)
    (h : @heap T) (H W : Z) (this rhs : nat) (a b : list (list T))
    (i j : Z) (x : T) :
  mats h !! this = Some a -> mats h !! rhs = Some b ->
  shaped H W a -> shaped H W b ->
  (mat_assign this rhs;; mat_eq H W this rhs) h
  = Ret (true, update_mat this b h) /\
  (this <> rhs -> 0 <= i < H -> 0 <= j < W ->
   exists h',
     (mat_assign this rhs;; mat_set H W rhs i j x;; load_mat this) h
     = Ret (b, h')).
Proof.
  intros Ha Hb Hsa Hsb.
  pose proof (mat_assign_eval this rhs a b h Ha Hb) as Hassign.
  assert (Hthis : mats (update_mat this b h) !! this = Some b)
    by (eapply mats_update_mat; eauto).
  assert (Hrhs : mats (update_mat this b h) !! rhs = Some b).
  { destruct (decide (rhs = this)) as [->|Hne]; [assumption|].
    now rewrite mats_update_mat_ne. }
  split.
  - eapply bind_eval; [exact Hassign|].
    destruct (mat_eq_result H W this rhs b b (update_mat this b h))
      as (e & He & _ & Hiff); try assumption.
    rewrite He. do 2 f_equal. apply Hiff. intros. apply seqb_refl.
  - intros Hne Hi Hj.
    destruct (shaped_row H W b i Hsb Hi) as (row & Hrow & _).
    eexists. eapply bind_eval; [exact Hassign|].
    eapply bind_eval.
    + rewrite <- (update_mat_same rhs b (update_mat this b h) Hrhs) at 1.
      now apply (mat_set_object H W rhs i j x b b row).
    + apply load_mat_eval. rewrite mats_update_mat_ne by assumption.
      exact Hthis.
Qed.

Lemma mat_assign_copies_witness :
  (mat_assign 1%nat 3%nat;; mat_eq 2 2 1%nat 3%nat) example_store
  = Ret (true, update_mat 1 [[4; -3]; [6; 5]] example_store) /\
  exists h',
    (mat_assign 1%nat 3%nat;; mat_set 2 2 3%nat 0 0 9;; load_mat 1%nat)
      example_store
    = Ret ([[4; -3]; [6; 5]], h').
Proof.
  destruct (mat_assign_copies Z _ _ example_store 2 2 1%nat 3%nat
              [[4; 6]; [3; 8]] [[4; -3]; [6; 5]] 0 0 9 eq_refl eq_refl
              (shaped_2x2 _ _ _ _) (shaped_2x2 _ _ _ _)) as (He & Hw).
  split; [exact He | apply Hw; [discriminate | lia | lia]].
Defined.

(** X29: the function template [gfx::almost_equal] aborts for every delta
    that is not positive, also on equal arguments; for a positive delta it
    returns true when lhs == rhs, and false when they differ and rhs is 0;
    otherwise, the error being measured against the right argument, it
    returns true when the computed difference is at most delta * |rhs|
    (delta a double) and false when it is at least d * |rhs| for a double d
    above delta; for [int] arguments the outcome does not change when both
    are multiplied by the same k other than 0, the products being [int]s. *)
Theorem almost_equal_is_relative_to_rhs (T : Type) (ST : Scalar T)
    (h : @heap T) (lhs rhs : T) (delta : double) :
  ((delta <= 0)%Q -> almost_equal lhs rhs delta h = Abort) /\
  ((0 < delta)%Q ->
   exists e : bool,
     almost_equal lhs rhs delta h = Ret (e, h) /\
     (seqb lhs rhs = true -> e = true) /\
     (seqb lhs rhs = false -> (to_double rhs == 0)%Q -> e = false) /\
     (seqb lhs rhs = false -> ~ (to_double rhs == 0)%Q ->
      (round64 delta == delta)%Q ->
      (Qabs (round64 (to_double lhs - to_double rhs)) <= DBL_MAX)%Q ->
      (Qabs (round64 (to_double lhs - to_double rhs))
       <= delta * Qabs (to_double rhs))%Q ->
      e = true) /\
     (forall d : double,
         seqb lhs rhs = false -> ~ (to_double rhs == 0)%Q ->
         (round64 d == d)%Q -> (delta < d)%Q ->
         (d * Qabs (to_double rhs)
          <= Qabs (round64 (to_double lhs - to_double rhs)))%Q ->
         e = false)) /\
  (forall (h' : @heap Z) (k a b : Z),
      k <> 0 -> is_int a -> is_int b -> is_int (k * a) -> is_int (k * b) ->
      almost_equal (k * a) (k * b) delta h' = almost_equal a b delta h').
Proof.
  split; [|split].
  - apply almost_equal_rejects.
  - apply almost_equal_relative.
  - intros h' k a b Hk Ia Ib Ika Ikb. now apply almost_equal_scales.
Qed.

(** With delta = 1/8: 7 against 8 is within an eighth of 8; 8 against 7 is
    not within an eighth of 7, 9/64 being a double between 1/8 and 1/7. *)
Lemma almost_equal_is_relative_to_rhs_witness :
  almost_equal 7 8 (1 # 8)%Q example_store = Ret (true, example_store) /\
  almost_equal 8 7 (1 # 8)%Q example_store = Ret (false, example_store) /\
  almost_equal 5 5 0%Q example_store = Abort.
Proof.
  destruct (almost_equal_is_relative_to_rhs Z _ example_store 5 5 0%Q)
    as (Hrej & _ & _).
  destruct (almost_equal_is_relative_to_rhs Z _ example_store 7 8 (1 # 8)%Q)
    as (_ & Hnear & _).
  destruct (almost_equal_is_relative_to_rhs Z _ example_store 8 7 (1 # 8)%Q)
    as (_ & Hfar & _).
  destruct (Hnear eq_refl) as (e1 & Hr1 & _ & _ & Htrue & _).
  destruct (Hfar eq_refl) as (e2 & Hr2 & _ & _ & _ & Hfalse).
  split; [|split].
  - rewrite Hr1, Htrue; [reflexivity | reflexivity | discriminate | ..];
      vm_compute; try reflexivity; discriminate.
  - rewrite Hr2, (Hfalse (9 # 64)%Q); [reflexivity | reflexivity | discriminate | ..];
      vm_compute; try reflexivity; discriminate.
  - apply Hrej. discriminate.
Defined.
